(** * treeclip: exclusion matching, traversal and aggregation

    A shallow embedding of the core pipeline of treeclip:
    - [src/core/exclude/mod.rs]      ExcludeMatcher (over the ignore crate's
                                     GitignoreBuilder / Gitignore::matched)
    - [src/core/traversal/filter.rs] is_hidden
    - [src/core/traversal/walker.rs] Walker::process_dir, traverse,
                                     write_file_content
    - [src/core/utils.rs]            validate_path_exists, format_number
    - [src/commands/run/run.rs]      execute, with its clipboard, statistics,
                                     editor and delete steps as capabilities
                                     that may fail; the line count and size
                                     message of show_stats
    - [src/core/clipboard/mod.rs]    Clipboard::new, set_clipboard
    - [src/core/editor/mod.rs]       open, open_with_cli_editor, delete
    - [src/core/ui/animations.rs]    progress_counter
    - [src/core/ui/formatter.rs]     StatsBox::get_size_message
    - [src/core/ui/table.rs]         FormattedBox::render, render_stats_box,
                                     render_message_box, align_text,
                                     pad_left, pad_right, border_chars

    Strings are [String.string]: an [ascii] is an 8-bit byte, so a string is a
    byte sequence (an OsStr on unix, or the UTF-8 bytes of a str).

    Not modelled: a failing [stdout().flush()] after a progress message, a
    failing write to the output file once it is open, and the banners and
    boxes printed to the terminal (their text is modelled separately). The
    messages of the walk are modelled as events. *)

From Stdlib Require Import String Ascii List Bool Arith Lia ZArith.
From Stdlib Require DecimalString.
Import ListNotations.
Open Scope string_scope.
Open Scope list_scope.
Open Scope nat_scope.

(** String concatenation ([format!] / successive writes). *)
Infix "+++" := String.append (right associativity, at level 60).

(* ------------------------------------------------------------------ *)
(** ** Bytes and UTF-8 *)

Definition byte_of (c : ascii) : nat := nat_of_ascii c.

Fixpoint bytes (s : string) : list nat :=
  match s with
  | EmptyString => []
  | String c r => byte_of c :: bytes r
  end.

Definition in_range (lo hi b : nat) : bool := (lo <=? b) && (b <=? hi).
Definition cont (b : nat) : bool := in_range 128 191 b.

(** The second byte of a three- and of a four-byte sequence. *)
Definition lead3_ok (b c1 : nat) : bool :=
  if b =? 224 then in_range 160 191 c1
  else if b =? 237 then in_range 128 159 c1
  else cont c1.

Definition lead4_ok (b c1 : nat) : bool :=
  if b =? 240 then in_range 144 191 c1
  else if b =? 244 then in_range 128 143 c1
  else cont c1.

(** [str::from_utf8] acceptance: the well-formed UTF-8 byte sequences
    (no overlong forms, no surrogates, nothing above U+10FFFF). *)
Fixpoint utf8_ok (l : list nat) : bool :=
  match l with
  | [] => true
  | b :: r =>
      if b <? 128 then utf8_ok r
      else if in_range 194 223 b then
        match r with
        | c1 :: r1 => cont c1 && utf8_ok r1
        | _ => false
        end
      else if in_range 224 239 b then
        match r with
        | c1 :: c2 :: r2 => lead3_ok b c1 && cont c2 && utf8_ok r2
        | _ => false
        end
      else if in_range 240 244 b then
        match r with
        | c1 :: c2 :: c3 :: r3 => lead4_ok b c1 && cont c2 && cont c3 && utf8_ok r3
        | _ => false
        end
      else false
  end.

(** [OsStr::to_str]: [Some] exactly when the bytes are valid UTF-8. *)
Definition to_str (s : string) : option string :=
  if utf8_ok (bytes s) then Some s else None.

(** U+FFFD REPLACEMENT CHARACTER, in UTF-8. *)
Definition fffd : string := String "239" (String "191" (String "189" EmptyString)).

(** [String::from_utf8_lossy] (its [Utf8Chunks] decoding): valid sequences
    are kept; the longest prefix of a sequence that is not valid, one byte
    at least, becomes one U+FFFD, and decoding goes on after it. *)
Fixpoint lossy (s : string) : string :=
  match s with
  | EmptyString => EmptyString
  | String c r =>
      let b := byte_of c in
      if b <? 128 then String c (lossy r)
      else if in_range 194 223 b then
        match r with
        | String c1 r1 =>
            if cont (byte_of c1) then String c (String c1 (lossy r1)) else fffd +++ lossy r
        | EmptyString => fffd
        end
      else if in_range 224 239 b then
        match r with
        | String c1 r1 =>
            if lead3_ok b (byte_of c1) then
              match r1 with
              | String c2 r2 =>
                  if cont (byte_of c2) then String c (String c1 (String c2 (lossy r2)))
                  else fffd +++ lossy r1
              | EmptyString => fffd
              end
            else fffd +++ lossy r
        | EmptyString => fffd
        end
      else if in_range 240 244 b then
        match r with
        | String c1 r1 =>
            if lead4_ok b (byte_of c1) then
              match r1 with
              | String c2 r2 =>
                  if cont (byte_of c2) then
                    match r2 with
                    | String c3 r3 =>
                        if cont (byte_of c3)
                        then String c (String c1 (String c2 (String c3 (lossy r3))))
                        else fffd +++ lossy r2
                    | EmptyString => fffd
                    end
                  else fffd +++ lossy r1
              | EmptyString => fffd
              end
            else fffd +++ lossy r
        | EmptyString => fffd
        end
      else fffd +++ lossy r
  end.

Definition starts_with (pre s : string) : bool := String.prefix pre s.

Definition ends_with (suf s : string) : bool :=
  let n := String.length s in
  let m := String.length suf in
  (m <=? n) && String.eqb (substring (n - m) m s) suf.

Definition drop (k : nat) (s : string) : string :=
  substring k (String.length s - k) s.

Definition drop_last (k : nat) (s : string) : string :=
  substring 0 (String.length s - k) s.

Fixpoint contains_char (c : ascii) (s : string) : bool :=
  match s with
  | EmptyString => false
  | String d r => Ascii.eqb c d || contains_char c r
  end.

Fixpoint of_rev_bytes (acc : string) (l : list ascii) : string :=
  match l with
  | [] => acc
  | c :: r => of_rev_bytes (String c acc) r
  end.

Definition rev_bytes (s : string) : list ascii := rev (list_ascii_of_string s).

(** [str::trim_end] for a valid UTF-8 string: drop trailing characters with
    the Unicode White_Space property, i.e. U+0009..U+000D, U+0020, U+0085,
    U+00A0, U+1680, U+2000..U+200A, U+2028, U+2029, U+202F, U+205F, U+3000.
    Works on the reversed byte list. *)
Fixpoint trim_end_rev (l : list ascii) : list ascii :=
  match l with
  | [] => []
  | c :: r =>
      let b := byte_of c in
      if in_range 9 13 b || (b =? 32) then trim_end_rev r
      else
        match r with
        | c1 :: r1 =>
            if (byte_of c1 =? 194) && ((b =? 133) || (b =? 160)) then trim_end_rev r1
            else
              match r1 with
              | c2 :: r2 =>
                  let b1 := byte_of c1 in
                  let b2 := byte_of c2 in
                  if ((b2 =? 225) && (b1 =? 154) && (b =? 128))
                     || ((b2 =? 226) && (b1 =? 128)
                         && (in_range 128 138 b || (b =? 168) || (b =? 169) || (b =? 175)))
                     || ((b2 =? 226) && (b1 =? 129) && (b =? 159))
                     || ((b2 =? 227) && (b1 =? 128) && (b =? 128))
                  then trim_end_rev r2
                  else l
              | [] => l
              end
        | [] => l
        end
  end.

Definition trim_end (s : string) : string :=
  of_rev_bytes EmptyString (trim_end_rev (rev_bytes s)).

(* ------------------------------------------------------------------ *)
(** ** Paths ([std::path::Path]) *)

(** A path is its list of components, as [Path::components] yields them;
    [Path]'s [==] and [strip_prefix] compare component lists. *)
Inductive component : Type :=
| RootDir
| CurDir
| ParentDir
| Normal (s : string).

Definition path := list component.

Definition component_eq_dec (a b : component) : {a = b} + {a <> b}.
Proof. decide equality; apply string_dec. Defined.

Definition path_eqb (p q : path) : bool :=
  if list_eq_dec component_eq_dec p q then true else false.

Definition comp_str (c : component) : string :=
  match c with
  | RootDir => "/"
  | CurDir => "."
  | ParentDir => ".."
  | Normal s => s
  end.

(** The bytes of a path built by [join] ([Path::as_os_str]). *)
Definition os_str (p : path) : string :=
  match p with
  | RootDir :: r => "/" +++ String.concat "/" (map comp_str r)
  | _ => String.concat "/" (map comp_str p)
  end.

(** [Path::display]: the bytes decoded as [String::from_utf8_lossy] does. *)
Definition display (p : path) : string := lossy (os_str p).

(** [Path::strip_prefix]: [Some rest] when [base]'s components are a prefix
    of [p]'s. *)
Fixpoint strip_prefix (base p : path) : option path :=
  match base, p with
  | [], _ => Some p
  | b :: base', c :: p' =>
      if component_eq_dec b c then strip_prefix base' p' else None
  | _ :: _, [] => None
  end.

(** [Path::file_name]. *)
Definition file_name (p : path) : option string :=
  match last (map Some p) None with
  | Some (Normal s) => Some s
  | _ => None
  end.

(** [walkdir::DirEntry::file_name]: the path's file name, or the whole path
    when it has none (only possible for the walk's root). *)
Definition entry_file_name (p : path) : string :=
  match file_name p with
  | Some s => s
  | None => os_str p
  end.

Definition join (p : path) (name : string) : path := p ++ [Normal name].

(* ------------------------------------------------------------------ *)
(** ** The file system *)

Local Set Warnings "-register-all".

(** A directory tree without symbolic links. [NLocked] is a directory whose
    listing cannot be read (permission denied). Children are kept in the
    order [read_dir] returns them. *)
Inductive node : Type :=
| NFile (name : string) (data : string)
| NDir (name : string) (kids : list node)
| NLocked (name : string).

Definition node_name (n : node) : string :=
  match n with
  | NFile nm _ | NDir nm _ | NLocked nm => nm
  end.

Definition node_is_dir (n : node) : bool :=
  match n with
  | NFile _ _ => false
  | _ => true
  end.

Definition node_is_file (n : node) : bool :=
  match n with
  | NFile _ _ => true
  | _ => false
  end.

Fixpoint lookup (n : node) (l : list string) {struct n} : option node :=
  match l with
  | [] => Some n
  | x :: r =>
      match n with
      | NDir _ kids =>
          (fix go (ks : list node) : option node :=
             match ks with
             | [] => None
             | k :: ks' => if String.eqb (node_name k) x then lookup k r else go ks'
             end) kids
      | _ => None
      end
  end.

(** Create or overwrite the regular file at [l] with [data], as
    [File::options().write(true).truncate(true).create(true).open] followed
    by writes does; [None] when the parent directory is missing or the
    target is a directory. A created file is listed after the existing
    entries. *)
Fixpoint upd_file (n : node) (l : list string) (data : string) {struct n} : option node :=
  match n with
  | NDir nm kids =>
      match l with
      | [] => None
      | [x] =>
          option_map (NDir nm)
            ((fix set (ks : list node) : option (list node) :=
                match ks with
                | [] => Some [NFile x data]
                | k :: ks' =>
                    if String.eqb (node_name k) x then
                      match k with
                      | NFile _ _ => Some (NFile x data :: ks')
                      | _ => None
                      end
                    else option_map (cons k) (set ks')
                end) kids)
      | x :: r =>
          option_map (NDir nm)
            ((fix go (ks : list node) : option (list node) :=
                match ks with
                | [] => None
                | k :: ks' =>
                    if String.eqb (node_name k) x then
                      option_map (fun k' => k' :: ks') (upd_file k r data)
                    else option_map (cons k) (go ks')
                end) kids)
      end
  | _ => None
  end.

(** [fs::remove_file] of the regular file at [l]; [None] when there is
    none. *)
Fixpoint rm_file (n : node) (l : list string) {struct n} : option node :=
  match n with
  | NDir nm kids =>
      match l with
      | [] => None
      | [x] =>
          option_map (NDir nm)
            ((fix del (ks : list node) : option (list node) :=
                match ks with
                | [] => None
                | k :: ks' =>
                    if String.eqb (node_name k) x then
                      match k with
                      | NFile _ _ => Some ks'
                      | _ => None
                      end
                    else option_map (cons k) (del ks')
                end) kids)
      | x :: r =>
          option_map (NDir nm)
            ((fix go (ks : list node) : option (list node) :=
                match ks with
                | [] => None
                | k :: ks' =>
                    if String.eqb (node_name k) x then
                      option_map (fun k' => k' :: ks') (rm_file k r)
                    else option_map (cons k) (go ks')
                end) kids)
      end
  | _ => None
  end.

(** The tree and the working directory, as the names below "/". *)
Record FS : Type := mkFS { fs_root : node; fs_cwd : list string }.

Definition is_dir_at (n : node) (l : list string) : bool :=
  match lookup n l with Some k => node_is_dir k | None => false end.

(** Path resolution as the OS does it in a tree without symbolic links:
    every component is looked up in the directory reached so far, which
    must exist and be a directory; [.] stays there, [..] goes to its parent
    ("/" is its own parent), a name goes down. The last name need not
    exist. The result lists the names below "/". *)
Fixpoint resolve_from (root : node) (cur : list string) (p : path) : option (list string) :=
  match p with
  | [] => Some cur
  | c :: r =>
      if is_dir_at root cur then
        match c with
        | RootDir => resolve_from root [] r
        | CurDir => resolve_from root cur r
        | ParentDir => resolve_from root (removelast cur) r
        | Normal x => resolve_from root (cur ++ [x]) r
        end
      else None
  end.

(** An absolute path from "/", a relative one from the working directory;
    the empty path names nothing. *)
Definition resolve (fs : FS) (p : path) : option (list string) :=
  match p with
  | [] => None
  | RootDir :: r => resolve_from (fs_root fs) [] r
  | _ => resolve_from (fs_root fs) (fs_cwd fs) p
  end.

Definition fs_lookup (fs : FS) (p : path) : option node :=
  match resolve fs p with
  | Some l => lookup (fs_root fs) l
  | None => None
  end.

(** Whether two paths name the same entry. *)
Definition same_file (fs : FS) (p q : path) : bool :=
  match resolve fs p, resolve fs q with
  | Some a, Some b => if list_eq_dec string_dec a b then true else false
  | _, _ => false
  end.

(** [Path::exists]. *)
Definition path_exists (fs : FS) (p : path) : bool :=
  match fs_lookup fs p with Some _ => true | None => false end.

(** [Path::is_dir]. *)
Definition path_is_dir (fs : FS) (p : path) : bool :=
  match fs_lookup fs p with Some n => node_is_dir n | None => false end.

(* ------------------------------------------------------------------ *)
(** ** Errors *)

(** The failures of the pipeline, one per place the code raises one. *)
Inductive err : Type :=
| PathDoesNotExist (p : path)   (* utils::validate_path_exists *)
| GlobError (original : string) (* GitignoreBuilder::add_line *)
| OpenFailed (p : path)         (* File::options()...open(&self.output) *)
| ReadFailed (p : path)         (* fs::read_to_string: "failed reading content from" *)
| BuildFailed                   (* GitignoreBuilder::build *)
| CurrentDirFailed              (* env::current_dir *)
| ClipboardFailed               (* arboard: Clipboard::new, set().text *)
| EditorFailed (p : path)       (* editor::open *)
| RemoveFailed (p : path).      (* editor::delete: fs::remove_file *)

Inductive result (A : Type) : Type :=
| Ok (a : A)
| Err (e : err).
Arguments Ok {A} a.
Arguments Err {A} e.

(* ------------------------------------------------------------------ *)
(** ** Reading lines ([BufRead::lines]) *)

Definition nl : ascii := "010".
Definition cr : ascii := "013".

(** Each line loses its ["\n"] and then a ["\r"] before it; a last line
    without ["\n"] is kept as is; nothing follows a final ["\n"]. *)
Fixpoint lines_acc (acc : list ascii) (s : string) : list string :=
  match s with
  | EmptyString =>
      match acc with
      | [] => []
      | _ => [string_of_list_ascii (rev acc)]
      end
  | String c r =>
      if Ascii.eqb c nl then
        let acc' := match acc with
                    | d :: acc'' => if Ascii.eqb d cr then acc'' else acc
                    | [] => []
                    end in
        string_of_list_ascii (rev acc') :: lines_acc [] r
      else lines_acc (c :: acc) r
  end.

Definition lines (s : string) : list string := lines_acc [] s.

(* ------------------------------------------------------------------ *)
(** ** The gitignore matcher (ignore crate, [gitignore.rs]) *)

(** One compiled rule: [Glob] of the ignore crate. *)
Record Glob : Type := mkGlob {
  g_original : string;
  g_actual : string;
  is_whitelist : bool;
  is_only_dir : bool
}.

Inductive gmatch : Type :=
| MNone
| MIgnore (g : Glob)
| MWhitelist (g : Glob).

Definition is_ignore (m : gmatch) : bool :=
  match m with MIgnore _ => true | _ => false end.

Record GitignoreBuilder : Type := mkBuilder { gb_root : string; gb_globs : list Glob }.
Record Gitignore : Type := mkGitignore { gi_root : string; gi_globs : list Glob }.

(** The ignore crate's byte-wise [strip_prefix] on paths. *)
Definition strip_str (pre s : string) : option string :=
  if starts_with pre s then Some (drop (String.length pre) s) else None.

Definition has_doublestar_prefix (actual : string) : bool :=
  starts_with "**/" actual || String.eqb actual "**".

Section Matcher.

(** The glob engine (globset) is a capability behind a narrow interface:
    [glob_valid a] says whether [GlobBuilder::new(a).literal_separator(true)
    .backslash_escape(true).build()] succeeds, and [glob_is_match a c]
    whether the compiled glob matches the candidate path [c]. *)
Variable glob_valid : string -> bool.
Variable glob_is_match : string -> string -> bool.

(** [globset_builds actuals] says whether [GlobSetBuilder::build] compiles
    the globs of a [GitignoreBuilder] into one set (it fails, for instance,
    past the size limits of the regex engine). *)
Variable globset_builds : list string -> bool.

(** [GitignoreBuilder::add_line]: [Ok None] when the line adds no rule. *)
Definition add_line (line0 : string) : result (option Glob) :=
  if starts_with "#" line0 then Ok None
  else
    let original := if ends_with "\ " line0 then line0 else trim_end line0 in
    if String.eqb original "" then Ok None
    else
      let '(l1, wl, abs) :=
        if starts_with "\!" original || starts_with "\#" original then
          let l := drop 1 original in (l, false, starts_with "/" l)
        else
          let '(l, wl) :=
            if starts_with "!" original then (drop 1 original, true) else (original, false) in
          if starts_with "/" l then (drop 1 l, wl, true) else (l, wl, false) in
      let '(l2, od) :=
        if ends_with "/" l1 then
          let l := drop_last 1 l1 in
          ((if ends_with "\" l then drop_last 1 l else l), true)
        else (l1, false) in
      let actual :=
        if negb abs && negb (contains_char "/" l2) && negb (has_doublestar_prefix l2)
        then "**/" +++ l2 else l2 in
      let actual := if ends_with "/**" actual then actual +++ "/*" else actual in
      if glob_valid actual then Ok (Some (mkGlob original actual wl od))
      else Err (GlobError original).

Definition builder_new (root : path) : GitignoreBuilder :=
  let r := os_str root in
  mkBuilder (match strip_str "./" r with Some r' => r' | None => r end) [].

Definition builder_add_line (b : GitignoreBuilder) (line : string)
  : result GitignoreBuilder :=
  match add_line line with
  | Ok None => Ok b
  | Ok (Some g) => Ok (mkBuilder (gb_root b) (gb_globs b ++ [g]))
  | Err e => Err e
  end.

(** The per-line loop of [GitignoreBuilder::add]: a line that is not UTF-8
    ends the reading, a line that fails to parse is recorded as an error and
    the loop goes on. *)
Fixpoint add_lines (file : path) (b : GitignoreBuilder) (ls : list string)
  (errs : list err) : GitignoreBuilder * list err :=
  match ls with
  | [] => (b, errs)
  | l :: ls' =>
      if utf8_ok (bytes l) then
        match builder_add_line b l with
        | Ok b' => add_lines file b' ls' errs
        | Err e => add_lines file b ls' (errs ++ [e])
        end
      else (b, errs ++ [ReadFailed file])
  end.

(** [GitignoreBuilder::add]: the builder and the errors it reports. *)
Definition builder_add (fs : FS) (b : GitignoreBuilder) (file : path)
  : GitignoreBuilder * list err :=
  match fs_lookup fs file with
  | Some (NFile _ data) => add_lines file b (lines data) []
  | Some _ => (b, [ReadFailed file])
  | None => (b, [OpenFailed file])
  end.

(** [GitignoreBuilder::build]: compiling the glob set may fail. *)
Definition build (b : GitignoreBuilder) : result Gitignore :=
  if globset_builds (map g_actual (gb_globs b))
  then Ok (mkGitignore (gb_root b) (gb_globs b))
  else Err BuildFailed.

(** [Gitignore::strip]. *)
Definition gi_strip (gi : Gitignore) (s0 : string) : string :=
  let s := match strip_str "./" s0 with Some s' => s' | None => s0 end in
  if negb (String.eqb (gi_root gi) ".") && contains_char "/" s then
    match strip_str (gi_root gi) s with
    | Some s' => match strip_str "/" s' with Some s'' => s'' | None => s' end
    | None => s
    end
  else s.

(** [Gitignore::matched_stripped]: the indices of the matching globs in
    ascending order, scanned in reverse; the first glob that is not
    directory-only (or the path is a directory) decides. *)
Definition matched_stripped (gi : Gitignore) (cand : string) (is_dir : bool) : gmatch :=
  let ms := filter (fun g => glob_is_match (g_actual g) cand) (gi_globs gi) in
  match find (fun g => negb (is_only_dir g) || is_dir) (rev ms) with
  | Some g => if is_whitelist g then MWhitelist g else MIgnore g
  | None => MNone
  end.

(** [Gitignore::matched]. *)
Definition matched (gi : Gitignore) (p : string) (is_dir : bool) : gmatch :=
  match gi_globs gi with
  | [] => MNone
  | _ => matched_stripped gi (gi_strip gi p) is_dir
  end.

(** *** ExcludeMatcher ([src/core/exclude/mod.rs]) *)

Definition ExcludeMatcher := Gitignore.

Definition ignore_file_name : string := ".treeclipignore".

(** [ExcludeMatcher::add_ignore_file]: the error [builder.add] returns is
    dropped (the function returns unit). The two messages it prints are
    [ignore_msgs] below. *)
Definition add_ignore_file (fs : FS) (b : GitignoreBuilder) (root : path)
  : GitignoreBuilder :=
  let ignore_file := join root ignore_file_name in
  if path_exists fs ignore_file then fst (builder_add fs b ignore_file) else b.

(** [ExcludeMatcher::add_cli_patterns]: [builder.add_line(None, pat)?]. *)
Fixpoint add_cli_patterns (b : GitignoreBuilder) (cli : list string)
  : result GitignoreBuilder :=
  match cli with
  | [] => Ok b
  | pat :: r =>
      match builder_add_line b pat with
      | Ok b' => add_cli_patterns b' r
      | Err e => Err e
      end
  end.

(** [ExcludeMatcher::new]. *)
Definition matcher_new (fs : FS) (root : path) (cli_patterns : list string)
  : result ExcludeMatcher :=
  let b := add_ignore_file fs (builder_new root) root in
  match add_cli_patterns b cli_patterns with
  | Ok b' => build b'
  | Err e => Err e
  end.

(** [ExcludeMatcher::is_excluded]. *)
Definition is_excluded (fs : FS) (m : ExcludeMatcher) (p : path) : bool :=
  is_ignore (matched m (os_str p) (path_is_dir fs p)).

(* ------------------------------------------------------------------ *)
(** ** Traversal ([src/core/traversal]) *)

(** [filter::is_hidden]: the entry's file name, when it is UTF-8, starts with
    a dot; a name that is not UTF-8 is not hidden ([unwrap_or(false)]). The
    message it prints in verbose mode is [WHidden] below. *)
Definition is_hidden (p : path) : bool :=
  match to_str (entry_file_name p) with
  | Some s => starts_with "." s
  | None => false
  end.

(** [WalkDir::new(root).into_iter().filter_entry(keep)] over one node: the
    entry is yielded when [keep] accepts it, and a directory is then
    descended in [read_dir] order; a rejected entry is neither yielded nor
    descended ([skip_current_dir]). An unreadable directory yields an [Err]
    for its listing, which the caller drops. *)
Fixpoint walk_node (keep : path -> bool) (p : path) (n : node) : list (path * node) :=
  if keep p then
    (p, n) :: match n with
              | NDir _ kids => flat_map (fun k => walk_node keep (join p (node_name k)) k) kids
              | _ => []
              end
  else [].

(** The walk from the root path as given; a missing root yields only an
    [Err], dropped by [filter_map(|e| e.ok())]. *)
Definition walk (fs : FS) (keep : path -> bool) (root : path) : list (path * node) :=
  match fs_lookup fs root with
  | Some n => walk_node keep root n
  | None => []
  end.

(** What the walk produces, in order: the entries [filter_entry] yields,
    and the messages its predicate prints while deciding an entry (before
    the entry, when it is yielded). *)
Inductive witem : Type :=
| WEntry (x : path * node)  (* a yielded entry *)
| WHidden (p : path).       (* "Hidden entry '{}' was skipped" *)

(** [walk_node] with the messages: [msg p] says whether deciding [p]
    prints the hidden-entry message. *)
Fixpoint walk_node_items (keep msg : path -> bool) (p : path) (n : node) : list witem :=
  (if msg p then [WHidden p] else []) ++
  (if keep p then
     WEntry (p, n) :: match n with
                      | NDir _ kids =>
                          flat_map (fun k => walk_node_items keep msg (join p (node_name k)) k) kids
                      | _ => []
                      end
   else []).

Definition walk_items (fs : FS) (keep msg : path -> bool) (root : path) : list witem :=
  match fs_lookup fs root with
  | Some n => walk_node_items keep msg root n
  | None => []
  end.

(** The entries among the items. *)
Definition entries_of (its : list witem) : list (path * node) :=
  flat_map (fun i => match i with WEntry x => [x] | WHidden _ => [] end) its.

(** [Path::is_file]. *)
Definition path_is_file (fs : FS) (p : path) : bool :=
  match fs_lookup fs p with Some n => node_is_file n | None => false end.

(** *** The walker's state *)

Inductive event : Type :=
| EvIgnoreFile (p : path) (* ui::found_ignore_file(ignore_file.display()) *)
| EvApplyingRules         (* ui::applying_ignore_rules() *)
| EvHidden (p : path)     (* "Hidden entry '{}' was skipped" *)
| EvProgress (n : nat)   (* "{emoji} Collected {n} files so far..." *)
| EvCollected (n : nat)  (* "Collected {n} files total! Nice work!" *)
| EvComplete.            (* "Extraction complete! All files gathered~" *)

(** [out] is the content of the output file; [recs] records, for each file
    whose content was read, its entry path and the text read. *)
Record St : Type := mkSt {
  out : string;
  first : bool;
  file_count : nat;
  recs : list (path * string);
  log : list event
}.

Definition st0 : St := mkSt "" true 0 [] [].

Definition M (A : Type) : Type := St -> result A * St.

Definition ret {A : Type} (a : A) : M A := fun s => (Ok a, s).

Definition bind {A B : Type} (m : M A) (k : A -> M B) : M B :=
  fun s => match m s with
           | (Ok a, s') => k a s'
           | (Err e, s') => (Err e, s')
           end.

Notation "x <- m ;; k" := (bind m (fun x => k)) (at level 61, m at next level, right associativity).
Notation "m ;;; k" := (bind m (fun _ => k)) (at level 61, right associativity).

Definition modify (f : St -> St) : M unit := fun s => (Ok tt, f s).
Definition fail {A : Type} (e : err) : M A := fun s => (Err e, s).

Definition write (t : string) : M unit :=
  modify (fun s => mkSt (out s +++ t) (first s) (file_count s) (recs s) (log s)).
Definition set_first (b : bool) : M unit :=
  modify (fun s => mkSt (out s) b (file_count s) (recs s) (log s)).
Definition incr_count : M unit :=
  modify (fun s => mkSt (out s) (first s) (S (file_count s)) (recs s) (log s)).
Definition record (p : path) (c : string) : M unit :=
  modify (fun s => mkSt (out s) (first s) (file_count s) (recs s ++ [(p, c)]) (log s)).
Definition emit (e : event) : M unit :=
  modify (fun s => mkSt (out s) (first s) (file_count s) (recs s) (log s ++ [e])).
Definition get : M St := fun s => (Ok s, s).

Record Walker : Type := mkWalker {
  w_root : path;
  w_input : path;
  w_output : path;
  exclude_patterns : list string
}.

(** The fields of [RunArgs] the code reads ([raw] is read nowhere). *)
Record RunArgs : Type := mkRunArgs {
  input_path : path;
  output_path : option path;
  root_arg : option path;
  exclude : list string;
  clipboard : bool;
  stats : bool;
  editor : bool;
  delete : bool;
  verbose : bool;
  skip_hidden : bool;
  fast_mode : bool
}.

(** The bytes of the file at [p] when it is read, the output file holding
    [current], what has been written to it so far. *)
Definition file_data (fs : FS) (w : Walker) (p : path) (current : string) : option string :=
  if same_file fs p (w_output w) then Some current
  else match fs_lookup fs p with Some (NFile _ d) => Some d | _ => None end.

(** [fs::read_to_string]: fails when the file cannot be read or its bytes
    are not UTF-8. *)
Definition read_to_string (fs : FS) (w : Walker) (p : path) : M string :=
  s <- get ;;
  match file_data fs w p (out s) with
  | Some d => match to_str d with Some c => ret c | None => fail (ReadFailed p) end
  | None => fail (ReadFailed p)
  end.

(** The header line: [writeln!(output_file, "==> {}", relative_path.display())]
    with [relative_path = entry_path.strip_prefix(&self.root).unwrap_or(entry_path)]. *)
Definition relative_path (root p : path) : path :=
  match strip_prefix root p with Some r => r | None => p end.

Definition header_line (root p : path) : string :=
  "==> " +++ display (relative_path root p) +++ String nl EmptyString.

(** [Walker::write_file_content]. *)
Definition write_file_content (fs : FS) (w : Walker) (entry_path : path) : M unit :=
  s <- get ;;
  (if first s then ret tt else write (String nl EmptyString)) ;;;
  write (header_line (w_root w) entry_path) ;;;
  content <- read_to_string fs w entry_path ;;
  record entry_path content ;;;
  write (trim_end content) ;;;
  write (String nl EmptyString) ;;;
  set_first false.

(** [run_args.verbose && !run_args.fast_mode && file_count % 5 == 0]; at
    such counts [animations::progress_counter(.., file_count, 5)] is [Some]. *)
Definition progress_due (args : RunArgs) (n : nat) : bool :=
  verbose args && negb (fast_mode args) && (n mod 5 =? 0).

(** The [for entry in walker.filter_map(|e| e.ok())] loop of [traverse],
    with the messages the walk prints between entries. *)
Fixpoint traverse_loop (fs : FS) (w : Walker) (args : RunArgs)
  (items : list witem) : M unit :=
  match items with
  | [] => ret tt
  | WHidden p :: rest => emit (EvHidden p) ;;; traverse_loop fs w args rest
  | WEntry (entry_path, _) :: rest =>
      (* Skip reading output itself *)
      if path_eqb entry_path (w_output w) then traverse_loop fs w args rest
      else if path_is_file fs entry_path then
        incr_count ;;;
        s <- get ;;
        (if progress_due args (file_count s) then emit (EvProgress (file_count s)) else ret tt) ;;;
        write_file_content fs w entry_path ;;;
        traverse_loop fs w args rest
      else traverse_loop fs w args rest
  end.

(** The [filter_entry] predicate of [traverse]. *)
Definition keep_entry (fs : FS) (m : ExcludeMatcher) (args : RunArgs) (p : path) : bool :=
  let excluded := is_excluded fs m p in
  let non_hidden_path := negb (skip_hidden args) || negb (is_hidden p) in
  negb excluded && non_hidden_path.

(** Whether the predicate prints the hidden-entry message for [p]:
    [is_hidden] runs only when [skip_hidden] is set (after [is_excluded]),
    and prints when the entry is hidden in verbose mode. *)
Definition hidden_message (args : RunArgs) (p : path) : bool :=
  skip_hidden args && (is_hidden p && verbose args).

(** The output file after [File::options().write(true).truncate(true)
    .create(true).open(&self.output)]. *)
Definition open_output (fs : FS) (output : path) : option FS :=
  match resolve fs output with
  | Some t => option_map (fun r => mkFS r (fs_cwd fs)) (upd_file (fs_root fs) t "")
  | None => None
  end.

(** The file system once the output file, opened in [fs], holds [data]
    (the writes go through the open handle; nothing else changes the tree
    meanwhile). *)
Definition store_output (fs : FS) (output : path) (data : string) : FS :=
  match resolve fs output with
  | Some t =>
      match upd_file (fs_root fs) t data with
      | Some r => mkFS r (fs_cwd fs)
      | None => fs
      end
  | None => fs
  end.

(** The entries the loop of [traverse] sees, once the output is open. *)
Definition walk_entries (fs1 : FS) (m : ExcludeMatcher) (w : Walker) (args : RunArgs)
  : list (path * node) :=
  walk fs1 (keep_entry fs1 m args) (w_input w).

(** The same walk with its messages. *)
Definition walk_its (fs1 : FS) (m : ExcludeMatcher) (w : Walker) (args : RunArgs)
  : list witem :=
  walk_items fs1 (keep_entry fs1 m args) (hidden_message args) (w_input w).

(** The two messages of [add_ignore_file], printed when the ignore file
    exists. *)
Definition ignore_msgs (fs : FS) (root : path) : list event :=
  let ignore_file := join root ignore_file_name in
  if path_exists fs ignore_file then [EvIgnoreFile ignore_file; EvApplyingRules] else [].

(** The walker's state before the loop, with the messages printed so far. *)
Definition st_log (lg : list event) : St := mkSt "" true 0 [] lg.

(** [Walker::traverse]: the result, the final state and the file system. *)
Definition traverse (fs : FS) (w : Walker) (args : RunArgs) : result unit * St * FS :=
  let s0 := st_log (ignore_msgs fs (w_root w)) in
  match matcher_new fs (w_root w) (exclude_patterns w) with
  | Err e => (Err e, s0, fs)
  | Ok m =>
      match open_output fs (w_output w) with
      | None => (Err (OpenFailed (w_output w)), s0, fs)
      | Some fs1 =>
          let '(r, s) := traverse_loop fs1 w args (walk_its fs1 m w args) s0 in
          let s' := match r with
                    | Ok _ => if verbose args then snd (emit (EvCollected (file_count s)) s) else s
                    | Err _ => s
                    end in
          (r, s', store_output fs1 (w_output w) (out s))
      end
  end.

(** [utils::validate_path_exists]. *)
Definition validate_path_exists (fs : FS) (p : path) : result unit :=
  if path_exists fs p then Ok tt else Err (PathDoesNotExist p).

(** [Walker::process_dir]. *)
Definition process_dir (fs : FS) (w : Walker) (args : RunArgs) : result unit * St * FS :=
  match validate_path_exists fs (input_path args) with
  | Err e => (Err e, st0, fs)
  | Ok _ =>
      let '(r, s, fs') := traverse fs w args in
      match r with
      | Ok _ => (r, (if verbose args then snd (emit EvComplete s) else s), fs')
      | Err _ => (r, s, fs')
      end
  end.

(** *** [commands::run::execute] *)

Definition default_output : path := [CurDir; Normal "treeclip_temp.txt"].

Definition cwd_path (fs : FS) : path := RootDir :: map Normal (fs_cwd fs).

(** [env::current_dir]: fails once the working directory has been removed. *)
Definition current_dir (fs : FS) : result path :=
  if is_dir_at (fs_root fs) (fs_cwd fs) then Ok (cwd_path fs) else Err CurrentDirFailed.

Definition output_of (args : RunArgs) : path :=
  match output_path args with
  | Some p => if path_eqb p [CurDir] then default_output else p
  | None => default_output
  end.

(** The [input], [output] and [root] of [execute], in its order. *)
Definition run_paths (fs : FS) (args : RunArgs) : result (path * path * path) :=
  match (if path_eqb (input_path args) [CurDir] then current_dir fs else Ok (input_path args)) with
  | Err e => Err e
  | Ok input =>
      let output := output_of args in
      match match root_arg args with
            | Some p => if path_eqb p [CurDir] then current_dir fs else Ok p
            | None => current_dir fs
            end with
      | Err e => Err e
      | Ok root => Ok (root, input, output)
      end
  end.

(** What [execute] needs from the desktop: whether [arboard::Clipboard::new]
    succeeds, whether setting a text succeeds, and the runs of [xdg-open]
    on a canonical path and of the CLI editor ([$EDITOR] or [/bin/nano]) on
    a path: whether each ran and exited with success, and the file system
    it leaves. *)
Record Env : Type := mkEnv {
  clipboard_new : bool;
  clipboard_set : string -> bool;
  xdg_open : FS -> list string -> bool * FS;
  cli_editor : FS -> path -> bool * FS
}.

(** [fs::read_to_string] of the output file (also [File::open] followed by
    [read_to_string]). *)
Definition read_output (fs : FS) (p : path) : option string :=
  match fs_lookup fs p with
  | Some (NFile _ d) => to_str d
  | _ => None
  end.

(** [Clipboard::set_clipboard]. *)
Definition set_clipboard (env : Env) (fs : FS) (output : path) : result unit :=
  match read_output fs output with
  | Some c => if clipboard_set env c then Ok tt else Err ClipboardFailed
  | None => Err (ReadFailed output)
  end.

(** [run::show_stats]: it fails only on reading the output (what it prints
    is [show_stats_lines] and [show_stats_message] below). *)
Definition show_stats (fs : FS) (output : path) : result unit :=
  match read_output fs output with
  | Some _ => Ok tt
  | None => Err (ReadFailed output)
  end.

(** [Path::canonicalize]: the resolved path of an existing entry. *)
Definition canonicalize (fs : FS) (p : path) : option (list string) :=
  match resolve fs p with
  | Some t => match lookup (fs_root fs) t with Some _ => Some t | None => None end
  | None => None
  end.

(** [editor::open]: [canonicalize()?], then [xdg-open]; when it cannot run
    or fails, [open_with_cli_editor], whose failure is returned. *)
Definition editor_open (env : Env) (fs : FS) (p : path) : result unit * FS :=
  match canonicalize fs p with
  | None => (Err (EditorFailed p), fs)
  | Some t =>
      let '(ok, fs1) := xdg_open env fs t in
      if ok then (Ok tt, fs1)
      else let '(ok2, fs2) := cli_editor env fs1 p in
           if ok2 then (Ok tt, fs2) else (Err (EditorFailed p), fs2)
  end.

(** [editor::delete]: [fs::remove_file]. *)
Definition remove_file (fs : FS) (p : path) : option FS :=
  match resolve fs p with
  | Some t => option_map (fun r => mkFS r (fs_cwd fs)) (rm_file (fs_root fs) t)
  | None => None
  end.

(** [commands::run::execute]: the result, the walker's state and the file
    system. *)
Definition execute (env : Env) (fs : FS) (args : RunArgs) : result unit * St * FS :=
  match run_paths fs args with
  | Err e => (Err e, st0, fs)
  | Ok (root, input, output) =>
      let '(r, s, fs1) := process_dir fs (mkWalker root input output (exclude args)) args in
      match r with
      | Err e => (Err e, s, fs1)
      | Ok _ =>
          if negb (clipboard_new env) then (Err ClipboardFailed, s, fs1) else
          match (if clipboard args then set_clipboard env fs1 output else Ok tt) with
          | Err e => (Err e, s, fs1)
          | Ok _ =>
              match (if stats args then show_stats fs1 output else Ok tt) with
              | Err e => (Err e, s, fs1)
              | Ok _ =>
                  let '(r2, fs2) := if editor args then editor_open env fs1 output else (Ok tt, fs1) in
                  match r2 with
                  | Err e => (Err e, s, fs2)
                  | Ok _ =>
                      if delete args && editor args then
                        match remove_file fs2 output with
                        | Some fs3 => (Ok tt, s, fs3)
                        | None => (Err (RemoveFailed output), s, fs2)
                        end
                      else (Ok tt, s, fs2)
                  end
              end
          end
      end
  end.

End Matcher.

(* ------------------------------------------------------------------ *)
(** ** A literal glob engine for concrete runs *)

(** The outcome of globset's [parse_class] after a [[]. *)
Inductive class_res : Type :=
| ClassClosed (rest : string)  (* closed by []]; the text after it *)
| ClassUnclosed                (* the text ends first *)
| ClassBadRange.               (* a range whose end is below its start *)

(** The body of a class: [first] holds before the first member, where []]
    and [-] are literal; [in_range] after a [-] that follows a member; [lo]
    is the start of the last range. Ranges compare bytes, i.e. characters
    for ASCII patterns. *)
Fixpoint class_body (first in_range : bool) (lo : ascii) (s : string) : class_res :=
  match s with
  | EmptyString => ClassUnclosed
  | String c r =>
      if Ascii.eqb c "]" then
        if first then class_body false false "]" r else ClassClosed r
      else if Ascii.eqb c "-" then
        if first then class_body false false "-" r
        else if in_range then
          (if byte_of "-" <? byte_of lo then ClassBadRange else class_body false false lo r)
        else class_body false true lo r
      else if in_range then
        (if byte_of c <? byte_of lo then ClassBadRange else class_body false false lo r)
      else class_body false false c r
  end.

(** [parse_class]: an optional [!] or [^] negates. *)
Definition parse_class (s : string) : class_res :=
  match s with
  | String c r => if Ascii.eqb c "!" || Ascii.eqb c "^" then class_body true false "000" r
                  else class_body true false "000" s
  | EmptyString => ClassUnclosed
  end.

(** The parser of globset with [backslash_escape(true)] and
    [allow_unclosed_class(true)] (as [GitignoreBuilder] sets them), on
    patterns without alternations: a [\] escapes the next character and
    may not end the pattern; a class whose range is reversed is an error;
    an unclosed [[] is a literal and parsing goes on after it; [*], [**]
    and [?] never fail. Braces are outside this engine and refused. *)
Fixpoint lit_scan (fuel : nat) (s : string) : bool :=
  match fuel with
  | 0 => true
  | S f =>
      match s with
      | EmptyString => true
      | String c r =>
          if Ascii.eqb c "\" then
            match r with EmptyString => false | String _ r' => lit_scan f r' end
          else if Ascii.eqb c "{" || Ascii.eqb c "}" then false
          else if Ascii.eqb c "[" then
            match parse_class r with
            | ClassClosed rest => lit_scan f rest
            | ClassUnclosed => lit_scan f r
            | ClassBadRange => false
            end
          else lit_scan f r
      end
  end.

(** Every step consumes a character, so [length a + 1] steps suffice. *)
Definition lit_valid (a : string) : bool := lit_scan (S (String.length a)) a.

(** Matching of globs whose only wildcard is a leading [**/]. *)
Definition lit_is_match (a c : string) : bool :=
  match strip_str "**/" a with
  | Some x => String.eqb c x || ends_with ("/" +++ x) c
  | None => String.eqb c a
  end.

(** Sets of a few short literal globs always compile. *)
Definition lit_builds (actuals : list string) : bool := true.

(** A desktop where the clipboard and the editors work and leave the files
    as they are. *)
Definition env_desktop : Env :=
  mkEnv true (fun _ => true) (fun fs _ => (true, fs)) (fun fs _ => (true, fs)).

Definition run := execute lit_valid lit_is_match lit_builds env_desktop.

(* ------------------------------------------------------------------ *)
(** ** Concrete file systems and runs *)

Definition nls : string := String nl EmptyString.
Definition proj_root : path := [RootDir; Normal "proj"].
Definition tmp_out : path := [RootDir; Normal "tmp"; Normal "out.txt"].

(** A project whose ignore file excludes [c.log] and the directory [sub]. *)
Definition tree_proj : node :=
  NDir "" [NDir "proj" [NFile "a.txt" ("alpha" +++ nls);
                        NDir "sub" [NFile "b.txt" ("beta  " +++ nls +++ nls);
                                    NFile "c.log" "gamma"];
                        NFile ".treeclipignore" ("c.log" +++ nls +++ "sub/" +++ nls)];
           NDir "tmp" []].
Definition fs_proj : FS := mkFS tree_proj ["proj"].
Definition w_proj (cli : list string) : Walker := mkWalker proj_root proj_root tmp_out cli.
Definition args_proj (cli : list string) : RunArgs :=
  mkRunArgs [CurDir] (Some tmp_out) None cli false false false false true true false.
Definition m_proj (cli : list string) : ExcludeMatcher :=
  match matcher_new lit_valid lit_builds fs_proj proj_root cli with
  | Ok m => m
  | Err _ => mkGitignore "" []
  end.
Definition fs1_proj : FS :=
  match open_output fs_proj tmp_out with Some f => f | None => fs_proj end.
Definition trav_proj (cli : list string) : result unit * St * FS :=
  traverse lit_valid lit_is_match lit_builds fs_proj (w_proj cli) (args_proj cli).

(** A project holding a file that is not UTF-8. *)
Definition bin_data : string := String "255" EmptyString.
Definition tree_bin : node :=
  NDir "" [NDir "proj" [NFile "a.txt" "alpha"; NFile "b.bin" bin_data; NFile "c.txt" "gamma"];
           NDir "tmp" []].
Definition fs_bin : FS := mkFS tree_bin ["proj"].
Definition w_bin : Walker := mkWalker proj_root proj_root tmp_out [].
Definition args_bin : RunArgs := mkRunArgs [CurDir] (Some tmp_out) None [] false false false false false true false.
Definition m_bin : ExcludeMatcher :=
  match matcher_new lit_valid lit_builds fs_bin proj_root [] with
  | Ok m => m
  | Err _ => mkGitignore "" []
  end.
Definition fs1_bin : FS :=
  match open_output fs_bin tmp_out with Some f => f | None => fs_bin end.
Definition pre_bin : list (path * node) := [(proj_root ++ [Normal "a.txt"], NFile "a.txt" "alpha")].
Definition q_bin : path * node := (proj_root ++ [Normal "b.bin"], NFile "b.bin" bin_data).
Definition post_bin : list (path * node) := [(proj_root ++ [Normal "c.txt"], NFile "c.txt" "gamma")].

(** A project with a file whose text contains the header marker. *)
Definition tree_marker : node :=
  NDir "" [NDir "proj" [NFile "a.txt" "==> b.txt"; NFile "b.txt" "beta"]; NDir "tmp" []].
Definition fs_marker : FS := mkFS tree_marker ["proj"].

(** A directory whose name is a dot followed by a byte that is not UTF-8. *)
Definition dot_ff : string := String "." bin_data.
Definition tree_dot : node :=
  NDir "" [NDir "proj" [NDir dot_ff [NFile "x.txt" "secret"]; NDir ".git" [NFile "y.txt" "z"]];
           NDir "tmp" []].
Definition fs_dot : FS := mkFS tree_dot ["proj"].

(** A root given as an absolute path and an input given relative to the
    working directory, both naming the same directory. *)
Definition src_root : path := [RootDir; Normal "w"; Normal "src"].
Definition tree_src : node := NDir "" [NDir "w" [NDir "src" [NFile "a.txt" "hi"]]; NDir "tmp" []].
Definition fs_src : FS := mkFS tree_src ["w"].
Definition args_src : RunArgs :=
  mkRunArgs [Normal "src"] (Some tmp_out) (Some src_root) [] false false false false false true false.

(** A run with every default: input, root and output left to [execute];
    [clipboard] on, [stats], [editor], [delete] and [verbose] off, as the
    [RunArgs] of [commands/run/mod.rs] declares them; hidden entries
    skipped. *)
Definition tree_plain : node := NDir "" [NDir "proj" [NFile "a.txt" "alpha"]].
Definition fs_plain : FS := mkFS tree_plain ["proj"].
Definition args_default : RunArgs :=
  mkRunArgs [CurDir] None None [] true false false false false true false.

(** An ignore file with a line that is not a valid glob. *)
Definition tree_badglob : node :=
  NDir "" [NDir "proj" [NFile ".treeclipignore" ("[z-a]" +++ nls); NFile "a.txt" "alpha"]].
Definition fs_badglob : FS := mkFS tree_badglob ["proj"].

(** The plain project with a working directory that has been removed. *)
Definition fs_gone : FS := mkFS tree_plain ["gone"].
Definition args_nope : RunArgs :=
  mkRunArgs [RootDir; Normal "nope"] None None [] false false false false false true false.

(* ------------------------------------------------------------------ *)
(** ** Views of the matcher used by the statements *)

(** The rules the lines of a pattern list give, in order. *)
Definition rules_of (gv : string -> bool) (ls : list string) : list Glob :=
  flat_map (fun l => match add_line gv l with Ok (Some g) => [g] | _ => [] end) ls.

(** The lines [GitignoreBuilder::add] reads: up to the first line that is
    not UTF-8. *)
Fixpoint utf8_prefix (ls : list string) : list string :=
  match ls with
  | [] => []
  | l :: r => if utf8_ok (bytes l) then l :: utf8_prefix r else []
  end.

(** The rules of the root's ignore file, when there is one. *)
Definition ignore_rules (gv : string -> bool) (fs : FS) (root : path) : list Glob :=
  let f := join root ignore_file_name in
  if path_exists fs f then
    match fs_lookup fs f with
    | Some (NFile _ d) => rules_of gv (utf8_prefix (lines d))
    | _ => []
    end
  else [].

(** A rule decides a path when its glob matches the stripped path and, for
    a directory-only rule, the path is a directory. *)
Definition rule_applies (glob_is_match : string -> string -> bool) (fs : FS) (m : ExcludeMatcher) (g : Glob) (p : path) : bool :=
  glob_is_match (g_actual g) (gi_strip m (os_str p))
  && (negb (is_only_dir g) || path_is_dir fs p).

(** ** Views of a run used by the statements *)

(** The entries the loop of [traverse] hands to [write_file_content]. *)
Definition qualifies (fs : FS) (w : Walker) (x : path * node) : bool :=
  negb (path_eqb (fst x) (w_output w)) && path_is_file fs (fst x).

(** One record of the output: header line, trimmed content, newline. *)
Definition render_rec (root : path) (x : path * string) : string :=
  header_line root (fst x) +++ trim_end (snd x) +++ String nl EmptyString.

(** The records joined by one ["\n"], i.e. one blank line between records. *)
Definition render_all (root : path) (rs : list (path * string)) : string :=
  String.concat (String nl EmptyString) (map (render_rec root) rs).

(** What [write_file_content] writes before a record's header. *)
Definition sep_before (rs : list (path * string)) : string :=
  match rs with [] => "" | _ => String nl EmptyString end.

(** A file that the loop reads as UTF-8: the output file (whose text, all
    written by the loop, is UTF-8), or a file whose bytes are UTF-8. *)
Definition decodes (fs : FS) (w : Walker) (p : path) : bool :=
  if same_file fs p (w_output w) then true
  else match fs_lookup fs p with Some (NFile _ d) => utf8_ok (bytes d) | _ => false end.

(** A file other than the output file whose bytes are not UTF-8. *)
Definition undecodable (fs : FS) (w : Walker) (p : path) : bool :=
  if same_file fs p (w_output w) then false
  else match fs_lookup fs p with Some (NFile _ d) => negb (utf8_ok (bytes d)) | _ => false end.

(** Occurrences of [pat] in [s], counted at every position. *)
Fixpoint count_sub (pat s : string) : nat :=
  match s with
  | EmptyString => 0
  | String c r => (if String.prefix pat s then 1 else 0) + count_sub pat r
  end.

(** The state after [file_count += 1] and the progress message. *)
Definition counted (args : RunArgs) (s : St) : St :=
  let n := S (file_count s) in
  mkSt (out s) (first s) n (recs s)
    (log s ++ (if progress_due args n then [EvProgress n] else [])).

(** The output holds the records read so far, joined, and is UTF-8;
    [first] says whether there is none yet; the counter counts them. *)
Definition wf_state (root : path) (s : St) : Prop :=
  out s = render_all root (recs s) /\
  utf8_ok (bytes (out s)) = true /\
  first s = match recs s with [] => true | _ => false end /\
  file_count s = length (recs s).

(** The header marker. *)
Definition hdr : string := "==> ".

(** The kind of a message. *)
Definition ev_is_progress (e : event) : bool :=
  match e with EvProgress _ => true | _ => false end.

Definition ev_is_hidden (e : event) : bool :=
  match e with EvHidden _ => true | _ => false end.

(** The paths the walk reports as skipped hidden entries, in order. *)
Definition hidden_paths (its : list witem) : list path :=
  flat_map (fun i => match i with WHidden p => [p] | WEntry _ => [] end) its.

(* ------------------------------------------------------------------ *)
(** ** Numbers and messages ([src/core/utils.rs], [src/core/ui]) *)

(** A panic ([Panics]) or a returned value. *)
Inductive outcome (A : Type) : Type :=
| Returns (a : A)
| Panics.
Arguments Returns {A} a.
Arguments Panics {A}.

Definition obind {A B : Type} (m : outcome A) (k : A -> outcome B) : outcome B :=
  match m with
  | Returns a => k a
  | Panics => Panics
  end.

(** [usize] subtraction: an underflow panics. In a release build it wraps,
    and the huge count then makes [str::repeat] panic ("capacity overflow"),
    so both builds panic at the same inputs in [render_stats_box]. *)
Definition usub (a b : nat) : outcome nat := if a <? b then Panics else Returns (a - b).

(** [i64::to_string] / [usize::to_string]. *)
Definition to_string (n : Z) : string := DecimalString.NilZero.string_of_int (Z.to_int n).

(** The loop of [utils::format_number]: before the character at index [i]
    a comma is pushed when [i > 0 && (s.len() - i) % 3 == 0]. *)
Fixpoint format_number_loop (len i : nat) (s : string) : string :=
  match s with
  | EmptyString => EmptyString
  | String c r =>
      let rest := String c (format_number_loop len (S i) r) in
      if (0 <? i) && ((len - i) mod 3 =? 0) then String "," rest else rest
  end.

(** [utils::format_number]. *)
Definition format_number (n : Z) : string :=
  let s := to_string n in
  if String.length s <=? 3 then s else format_number_loop (String.length s) 0 s.

(** [str::split] on a one-character pattern. *)
Fixpoint split_on (c : ascii) (s : string) : list string :=
  match s with
  | EmptyString => [EmptyString]
  | String x r =>
      if Ascii.eqb x c then EmptyString :: split_on c r
      else match split_on c r with
           | g :: gs => String x g :: gs
           | [] => [String x EmptyString]
           end
  end.

(** Occurrences of one character. *)
Fixpoint count_char (c : ascii) (s : string) : nat :=
  match s with
  | EmptyString => 0
  | String x r => (if Ascii.eqb x c then 1 else 0) + count_char c r
  end.

(** The line count of [run::show_stats]: [content.split("\n").count()]. *)
Definition show_stats_lines (content : string) : nat := List.length (split_on nl content).

(** The size message [run::show_stats] prints after its box (the colour
    escapes are not modelled). *)
Definition show_stats_message (bytes : N) : string * string :=
  if (bytes <? 1024)%N then ("🐣", "Tiny but mighty!")
  else if (bytes <? 1024 * 100)%N then ("🐇", "Perfect size! Easy to handle~")
  else if (bytes <? 1024 * 1024)%N then ("🐘", "That's a big one! Impressive~")
  else ("🐋", "Whoa! You've got a whale of content!").

(** [formatter::StatsBox::get_size_message] (colour escapes not modelled). *)
Definition get_size_message (bytes : N) : string * string :=
  if (0 <=? bytes)%N && (bytes <=? 1023)%N then ("🐣", "Tiny but mighty!")
  else if (1024 <=? bytes)%N && (bytes <=? 102399)%N then ("🐇", "Perfect size! Easy to handle~")
  else if (102400 <=? bytes)%N && (bytes <=? 1048575)%N then ("🐘", "That's a big one! Impressive~")
  else ("🐋", "Whoa! You've got a whale of content!").

(** [animations::progress_counter]: [%] by zero panics, and so does the
    index into an empty emoji set. *)
Definition progress_counter (emoji_set : list string) (current interval : nat)
  : outcome (option string) :=
  if interval =? 0 then Panics
  else if current mod interval =? 0 then
    let len := List.length emoji_set in
    if len =? 0 then Panics
    else match nth_error emoji_set ((current / interval) mod len) with
         | Some e => Returns (Some (e +++ " Collected " +++ to_string (Z.of_nat current)
                                      +++ " files so far..."))
         | None => Panics
         end
  else Returns None.

(** The emoji set [Walker::traverse] passes to [progress_counter]. *)
Definition tree_emojis : list string := ["🌱"; "🌿"; "🍃"; "🌳"; "🌲"; "🎄"].

(** *** [FormattedBox::render_stats_box] ([src/core/ui/table.rs]) *)

Section Table.

(** [UnicodeWidthStr::width]. *)
Variable width : string -> nat.

Fixpoint spaces (n : nat) : string :=
  match n with
  | 0 => EmptyString
  | S k => String " " (spaces k)
  end.

(** [table::pad_left]: [width.saturating_sub(w)] spaces after [s]. *)
Definition pad_left (s : string) (w : nat) : string := s +++ spaces (w - width s).

(** [table::pad_right]: the spaces before [s]. *)
Definition pad_right (s : string) (w : nat) : string := spaces (w - width s) +++ s.

Inductive RowKind : Type :=
| Stat (label value : string)
| Message (line : string).

Definition stats_row (r : RowKind) : string :=
  match r with
  | Stat label value =>
      "│  " +++ pad_left label 18 +++ "  " +++ pad_right value (25 + 1) +++ "  │" +++ nls
  | Message _ => ""
  end.

Definition render_stats_box (title : string) (rows : list RowKind) : outcome string :=
  let title_width := width title in
  let total_width := 51 in
  obind (usub total_width title_width) (fun d =>
  let padding := d / 2 in
  obind (usub total_width padding) (fun d1 =>
  obind (usub d1 title_width) (fun d2 =>
  obind (usub d2 1) (fun right =>
  Returns ("┌──────────────────────────────────────────────────┐" +++ nls +++
           "│" +++ spaces padding +++ title +++ spaces right +++ "│" +++ nls +++
           "├──────────────────────────────────────────────────┤" +++ nls +++
           String.concat "" (map stats_row rows) +++
           "└──────────────────────────────────────────────────┘"))))).

(** [table::BorderStyle], [table::Align] and [table::BoxTheme]. *)
Inductive BorderStyle : Type := Sharp | Rounded | Double.
Inductive Align : Type := Left | Center.

Record BoxTheme : Type := mkBoxTheme {
  padding : nat;
  border : BorderStyle;
  align : Align
}.

(** [BoxTheme::default]. *)
Definition theme_default : BoxTheme := mkBoxTheme 2 Sharp Center.

Record BorderChars : Type := mkBorderChars {
  top_left : string;
  top_right : string;
  bottom_left : string;
  bottom_right : string;
  h : string;
  v : string
}.

(** [table::border_chars]. *)
Definition border_chars (style : BorderStyle) : BorderChars :=
  match style with
  | Sharp => mkBorderChars "┌" "┐" "└" "┘" "─" "│"
  | Rounded => mkBorderChars "╭" "╮" "╰" "╯" "─" "│"
  | Double => mkBorderChars "╔" "╗" "╚" "╝" "═" "║"
  end.

(** [str::repeat]. *)
Fixpoint str_repeat (s : string) (n : nat) : string :=
  match n with
  | 0 => EmptyString
  | S k => s +++ str_repeat s k
  end.

(** [usize] addition and multiplication as a debug build runs them: an
    overflow panics. *)
Definition usize_max : N := 18446744073709551615%N.
Definition uadd (a b : nat) : outcome nat :=
  if (N.of_nat (a + b) <=? usize_max)%N then Returns (a + b) else Panics.
Definition umul (a b : nat) : outcome nat :=
  if (N.of_nat (a * b) <=? usize_max)%N then Returns (a * b) else Panics.

(** [table::align_text]: [width - w] is not saturating. *)
Definition align_text (s : string) (w : nat) (al : Align) : outcome string :=
  let sw := width s in
  match al with
  | Left => obind (usub w sw) (fun k => Returns (s +++ spaces k))
  | Center =>
      obind (usub w sw) (fun d =>
      let left := d / 2 in
      obind (usub w sw) (fun d' =>
      obind (usub d' left) (fun right =>
      Returns (spaces left +++ s +++ spaces right))))
  end.

(** The widest of the title and the [Message] lines. *)
Definition max_step (m : nat) (r : RowKind) : nat :=
  match r with
  | Message line => Nat.max m (width line)
  | Stat _ _ => m
  end.

Definition max_width (title : string) (rows : list RowKind) : nat :=
  fold_left max_step rows (width title).

(** The [Message] rows loop of [render_message_box]. *)
Fixpoint message_lines (b : BorderChars) (pad inner_width : nat) (al : Align)
  (rows : list RowKind) : outcome string :=
  match rows with
  | [] => Returns ""
  | Message line :: rest =>
      obind (align_text (spaces pad +++ line) inner_width al) (fun c =>
      obind (message_lines b pad inner_width al rest) (fun r =>
      Returns (v b +++ c +++ v b +++ nls +++ r)))
  | Stat _ _ :: rest => message_lines b pad inner_width al rest
  end.

(** [FormattedBox::render_message_box]. *)
Definition render_message_box (title : string) (rows : list RowKind) (theme : BoxTheme)
  : outcome string :=
  let b := border_chars (border theme) in
  let pad := padding theme in
  obind (umul pad 2) (fun p2 =>
  obind (uadd (max_width title rows) p2) (fun inner_width =>
  obind (align_text (spaces pad +++ title) inner_width (align theme)) (fun t =>
  obind (message_lines b pad inner_width (align theme) rows) (fun body =>
  Returns (top_left b +++ str_repeat (h b) inner_width +++ top_right b +++ nls +++
           v b +++ t +++ v b +++ nls +++
           body +++
           bottom_left b +++ str_repeat (h b) inner_width +++ bottom_right b))))).

Record FormattedBox : Type := mkFormattedBox {
  box_title : string;
  box_rows : list RowKind;
  box_theme : BoxTheme
}.

(** The [Message] lines of a box, in order. *)
Definition message_texts (rows : list RowKind) : list string :=
  flat_map (fun r => match r with Message line => [line] | Stat _ _ => [] end) rows.

(** The blanks [align_text] puts before and after a line [t] of a message
    box once [pad] blanks are prefixed, in a field [inner] wide. *)
Definition lpad (pad inner : nat) (al : Align) (t : string) : nat :=
  match al with
  | Left => 0
  | Center => (inner - (pad + width t)) / 2
  end.

Definition rpad (pad inner : nat) (al : Align) (t : string) : nat :=
  inner - (pad + width t) - lpad pad inner al t.

Definition is_stat (r : RowKind) : bool :=
  match r with Stat _ _ => true | Message _ => false end.

(** [FormattedBox::render]. *)
Definition render (fb : FormattedBox) : outcome string :=
  if existsb is_stat (box_rows fb)
  then render_stats_box (box_title fb) (box_rows fb)
  else render_message_box (box_title fb) (box_rows fb) (box_theme fb).

End Table.

(* ------------------------------------------------------------------ *)
(** ** More concrete file systems *)

(** Six files, enough for one progress message in verbose mode. *)
Definition tree_six : node :=
  NDir "" [NDir "proj" [NFile "f1" "1"; NFile "f2" "2"; NFile "f3" "3";
                        NFile "f4" "4"; NFile "f5" "5"; NFile "f6" "6"];
           NDir "tmp" []].
Definition fs_six : FS := mkFS tree_six ["proj"].
Definition w_six : Walker := mkWalker proj_root proj_root tmp_out [].
Definition args_six (fast : bool) : RunArgs :=
  mkRunArgs [CurDir] (Some tmp_out) None [] false false false false true true fast.
Definition trav_six : result unit * St * FS :=
  traverse lit_valid lit_is_match lit_builds fs_six w_six (args_six false).

(** A working directory below the project, and an input [..]. *)
Definition fs_up : FS := mkFS tree_proj ["proj"; "sub"].
Definition w_up : Walker := mkWalker proj_root [ParentDir] tmp_out [].
Definition args_up : RunArgs := mkRunArgs [ParentDir] (Some tmp_out) None [] false false false false false true false.

(** Whether [execute] calls [env::current_dir]: for the input ["."], or for
    a root that is omitted or ["."]. *)
Definition needs_cwd (args : RunArgs) : bool :=
  path_eqb (input_path args) [CurDir] ||
  match root_arg args with Some p => path_eqb p [CurDir] | None => true end.

(** A component written [.] or [..]. *)
Definition dot_comp (c : component) : Prop := c = CurDir \/ c = ParentDir.

(** The loops inside [upd_file] and [lookup], as functions of their own. *)
Fixpoint set_kid (x data : string) (ks : list node) : option (list node) :=
  match ks with
  | [] => Some [NFile x data]
  | k :: ks' =>
      if String.eqb (node_name k) x then
        match k with
        | NFile _ _ => Some (NFile x data :: ks')
        | _ => None
        end
      else option_map (cons k) (set_kid x data ks')
  end.

Fixpoint upd_kid (f : node -> option node) (x : string) (ks : list node) : option (list node) :=
  match ks with
  | [] => None
  | k :: ks' =>
      if String.eqb (node_name k) x then option_map (fun k' => k' :: ks') (f k)
      else option_map (cons k) (upd_kid f x ks')
  end.

Fixpoint find_kid (f : node -> option node) (x : string) (ks : list node) : option node :=
  match ks with
  | [] => None
  | k :: ks' => if String.eqb (node_name k) x then f k else find_kid f x ks'
  end.

(* ================================================================== *)
(** * Properties *)

(** ** String and list lemmas *)

Example trim_end_ex : trim_end ("hello" +++ String "010" (String "032" EmptyString)) = "hello".
Proof. reflexivity. Qed.

Example utf8_ex : utf8_ok (bytes (String "255" EmptyString)) = false.
Proof. reflexivity. Qed.

Lemma sapp_assoc (a b c : string) : (a +++ b) +++ c = a +++ (b +++ c).
Proof. induction a as [|x a IH]; simpl; [reflexivity | now rewrite IH]. Qed.

Lemma sapp_nil_r (a : string) : a +++ "" = a.
Proof. induction a as [|x a IH]; simpl; [reflexivity | now rewrite IH]. Qed.

(** Appending one element to a ["\n"]-joined list. *)
Lemma concat_snoc (sep : string) (l : list string) (y : string) :
  String.concat sep (l ++ [y]) =
  match l with [] => y | _ => String.concat sep l +++ sep +++ y end.
Proof.
  induction l as [|x l IH]; [reflexivity|].
  simpl. destruct l as [|x' l].
  - reflexivity.
  - change ((x' :: l) ++ [y]) with (x' :: (l ++ [y])) in *.
    rewrite IH. destruct (l ++ [y]) eqn:E.
    + destruct l; discriminate.
    + rewrite !sapp_assoc. reflexivity.
Qed.

Lemma find_app {A : Type} (f : A -> bool) (l l' : list A) :
  find f (l ++ l') = match find f l with Some x => Some x | None => find f l' end.
Proof. induction l as [|x l IH]; simpl; [reflexivity|]. destruct (f x); auto. Qed.

Lemma find_all_false {A : Type} (f : A -> bool) (l : list A) :
  (forall x, In x l -> f x = false) -> find f l = None.
Proof.
  induction l as [|x l IH]; intros H; simpl; [reflexivity|].
  rewrite (H x (or_introl eq_refl)). apply IH. intros y Hy. apply H. now right.
Qed.

(** An induction principle for [node] that sees the children. *)
Definition node_ind' (P : node -> Prop)
  (Hf : forall nm d, P (NFile nm d))
  (Hd : forall nm kids, Forall P kids -> P (NDir nm kids))
  (Hl : forall nm, P (NLocked nm)) : forall n, P n :=
  fix F (n : node) : P n :=
    match n as n0 return P n0 with
    | NFile nm d => Hf nm d
    | NDir nm kids =>
        Hd nm kids
          ((fix G (ks : list node) : Forall P ks :=
              match ks as ks0 return Forall P ks0 with
              | [] => Forall_nil P
              | k :: ks' => Forall_cons k (F k) (G ks')
              end) kids)
    | NLocked nm => Hl nm
    end.

(** ** UTF-8 lemmas *)

Lemma in_range_spec (lo hi b : nat) : in_range lo hi b = true <-> lo <= b <= hi.
Proof. unfold in_range. rewrite andb_true_iff, !Nat.leb_le. tauto. Qed.

Lemma utf8_ok_cons (b : nat) (r : list nat) :
  utf8_ok (b :: r) =
  if b <? 128 then utf8_ok r
  else if in_range 194 223 b then
    match r with c1 :: r1 => cont c1 && utf8_ok r1 | _ => false end
  else if in_range 224 239 b then
    match r with c1 :: c2 :: r2 => lead3_ok b c1 && cont c2 && utf8_ok r2 | _ => false end
  else if in_range 240 244 b then
    match r with
    | c1 :: c2 :: c3 :: r3 => lead4_ok b c1 && cont c2 && cont c3 && utf8_ok r3
    | _ => false
    end
  else false.
Proof. reflexivity. Qed.

Lemma lead3_cont (b c : nat) : lead3_ok b c = true -> cont c = true.
Proof.
  unfold lead3_ok, cont. destruct (b =? 224); [|destruct (b =? 237)]; intros H;
    apply in_range_spec in H; apply in_range_spec; lia.
Qed.

Lemma lead4_cont (b c : nat) : lead4_ok b c = true -> cont c = true.
Proof.
  unfold lead4_ok, cont. destruct (b =? 240); [|destruct (b =? 244)]; intros H;
    apply in_range_spec in H; apply in_range_spec; lia.
Qed.

Ltac split_ands :=
  repeat match goal with H : (_ && _) = true |- _ => apply andb_prop in H as [? ?] end.

(** Valid UTF-8 is closed under concatenation. *)
Lemma utf8_app (a b : list nat) :
  utf8_ok a = true -> utf8_ok b = true -> utf8_ok (a ++ b) = true.
Proof.
  intros Ha Hb. remember (length a) as n eqn:En. revert a En Ha.
  induction n as [n IH] using lt_wf_ind. intros a En Ha.
  destruct a as [|x r]; [exact Hb|]. simpl in En.
  change ((x :: r) ++ b) with (x :: (r ++ b)).
  rewrite utf8_ok_cons in Ha |- *.
  destruct (x <? 128); [apply (IH (length r)); auto; lia|].
  destruct (in_range 194 223 x).
  { destruct r as [|c1 r1]; [discriminate|]. apply andb_prop in Ha as [H1 H2].
    cbn [app]. rewrite H1. cbn [andb]. apply (IH (length r1)); simpl in En; auto; lia. }
  destruct (in_range 224 239 x).
  { destruct r as [|c1 [|c2 r2]]; try discriminate.
    apply andb_prop in Ha as [H1 H2]. cbn [app]. rewrite H1. cbn [andb].
    apply (IH (length r2)); simpl in En; auto; lia. }
  destruct (in_range 240 244 x); [|discriminate].
  destruct r as [|c1 [|c2 [|c3 r3]]]; try discriminate.
  apply andb_prop in Ha as [H1 H2]. cbn [app]. rewrite H1. cbn [andb].
  apply (IH (length r3)); simpl in En; auto; lia.
Qed.

(** A prefix of valid UTF-8 that stops before a byte that is not a
    continuation byte is valid UTF-8. *)
Lemma utf8_app_l (a b : list nat) :
  utf8_ok (a ++ b) = true -> (forall c b', b = c :: b' -> cont c = false) -> utf8_ok a = true.
Proof.
  intros Hab Hb. remember (length a) as n eqn:En. revert a En Hab.
  induction n as [n IH] using lt_wf_ind. intros a En Hab.
  destruct a as [|x r]; [reflexivity|]. simpl in En.
  change ((x :: r) ++ b) with (x :: (r ++ b)) in Hab.
  rewrite utf8_ok_cons in Hab |- *.
  destruct (x <? 128); [apply (IH (length r)); auto; lia|].
  destruct (in_range 194 223 x).
  { destruct r as [|c1 r1].
    - destruct b as [|c b']; [cbn in Hab; discriminate|].
      pose proof (Hb c b' eq_refl) as Hc. cbn [app] in Hab. split_ands. congruence.
    - cbn [app] in Hab |- *. apply andb_prop in Hab as [H1 H2]. rewrite H1. cbn [andb].
      apply (IH (length r1)); simpl in En; auto; lia. }
  destruct (in_range 224 239 x).
  { destruct r as [|c1 [|c2 r2]].
    - destruct b as [|c [|c2 b']]; [cbn in Hab; discriminate..|].
      pose proof (Hb c _ eq_refl) as Hc. cbn [app] in Hab. split_ands.
      match goal with H : lead3_ok _ _ = true |- _ => apply lead3_cont in H end. congruence.
    - destruct b as [|c b']; [cbn in Hab; discriminate|].
      pose proof (Hb c _ eq_refl) as Hc. cbn [app] in Hab. split_ands. congruence.
    - cbn [app] in Hab |- *. apply andb_prop in Hab as [H1 H2]. rewrite H1. cbn [andb].
      apply (IH (length r2)); simpl in En; auto; lia. }
  destruct (in_range 240 244 x); [|discriminate].
  destruct r as [|c1 [|c2 [|c3 r3]]].
  - destruct b as [|c [|c2 [|c3 b']]]; [cbn in Hab; discriminate..|].
    pose proof (Hb c _ eq_refl) as Hc. cbn [app] in Hab. split_ands.
    match goal with H : lead4_ok _ _ = true |- _ => apply lead4_cont in H end. congruence.
  - destruct b as [|c [|c3 b']]; [cbn in Hab; discriminate..|].
    pose proof (Hb c _ eq_refl) as Hc. cbn [app] in Hab. split_ands. congruence.
  - destruct b as [|c b']; [cbn in Hab; discriminate|].
    pose proof (Hb c _ eq_refl) as Hc. cbn [app] in Hab. split_ands. congruence.
  - cbn [app] in Hab |- *. apply andb_prop in Hab as [H1 H2]. rewrite H1. cbn [andb].
    apply (IH (length r3)); simpl in En; auto; lia.
Qed.

Lemma bytes_app (a b : string) : bytes (a +++ b) = bytes a ++ bytes b.
Proof. induction a as [|c a IH]; simpl; [reflexivity | now rewrite IH]. Qed.

Lemma string_of_list_app (a b : list ascii) :
  string_of_list_ascii (a ++ b) = string_of_list_ascii a +++ string_of_list_ascii b.
Proof. induction a as [|c a IH]; simpl; [reflexivity | now rewrite IH]. Qed.

Lemma bytes_string_of_list (l : list ascii) : bytes (string_of_list_ascii l) = map byte_of l.
Proof. induction l as [|c l IH]; simpl; [reflexivity | now rewrite IH]. Qed.

Lemma bytes_list (s : string) : bytes s = map byte_of (list_ascii_of_string s).
Proof. induction s as [|c s IH]; simpl; [reflexivity | now rewrite IH]. Qed.

Lemma of_rev_bytes_eq (l : list ascii) : forall acc,
  of_rev_bytes acc l = string_of_list_ascii (rev l) +++ acc.
Proof.
  induction l as [|c l IH]; intros acc; [reflexivity|].
  simpl. rewrite IH, string_of_list_app, sapp_assoc. reflexivity.
Qed.

(** The three-byte white space characters begin with a lead byte. *)
Lemma ws3_lead (b b1 b2 : nat) :
  ((b2 =? 225) && (b1 =? 154) && (b =? 128))
  || ((b2 =? 226) && (b1 =? 128)
      && (in_range 128 138 b || (b =? 168) || (b =? 169) || (b =? 175)))
  || ((b2 =? 226) && (b1 =? 129) && (b =? 159))
  || ((b2 =? 227) && (b1 =? 128) && (b =? 128)) = true -> cont b2 = false.
Proof.
  intros H. unfold cont. apply not_true_is_false. rewrite in_range_spec. intros Hr.
  repeat rewrite orb_true_iff, ?andb_true_iff in H. rewrite !Nat.eqb_eq in H. lia.
Qed.

(** [trim_end_rev] removes whole characters: what it removes is empty or
    begins (in text order) with a byte that is not a continuation byte. *)
Lemma trim_end_rev_split (l : list ascii) :
  exists d, l = d ++ trim_end_rev l /\
            (d = [] \/ exists d' c, d = d' ++ [c] /\ cont (byte_of c) = false).
Proof.
  remember (length l) as n eqn:En. revert l En.
  induction n as [n IH] using lt_wf_ind. intros l En.
  destruct l as [|c r]; [exists []; split; [reflexivity | now left]|].
  simpl in En.
  assert (Hcons : forall (pre : list ascii) (c0 : ascii) (r0 : list ascii),
             c :: r = pre ++ c0 :: r0 -> cont (byte_of c0) = false ->
             trim_end_rev (c :: r) = trim_end_rev r0 ->
             exists d, c :: r = d ++ trim_end_rev (c :: r) /\
               (d = [] \/ exists d' c, d = d' ++ [c] /\ cont (byte_of c) = false)).
  { intros pre c0 r0 E Hc0 Ht.
    assert (Hl : length r0 < n).
    { assert (Hlen : length (c :: r) = length (pre ++ c0 :: r0)) by now rewrite E.
      rewrite length_app in Hlen. simpl in Hlen. lia. }
    destruct (IH _ Hl r0 eq_refl) as [d [Ed Hd]].
    exists (pre ++ c0 :: d). rewrite Ht. split.
    - rewrite E, <- app_assoc. simpl. rewrite <- Ed. reflexivity.
    - right. destruct Hd as [-> | [d' [c1 [-> Hc1]]]].
      + exists pre, c0. split; [reflexivity | exact Hc0].
      + exists (pre ++ c0 :: d'), c1. split; [now rewrite <- app_assoc | exact Hc1]. }
  destruct (in_range 9 13 (byte_of c) || (byte_of c =? 32)) eqn:E1.
  { apply (Hcons [] c r eq_refl).
    - unfold cont. apply not_true_is_false. rewrite in_range_spec. intros Hr.
      apply orb_true_iff in E1 as [E1|E1]; [apply in_range_spec in E1 | apply Nat.eqb_eq in E1]; lia.
    - cbn [trim_end_rev]. cbv zeta. rewrite E1. reflexivity. }
  destruct r as [|c1 r1].
  { exists []. split; [|now left]. cbn [trim_end_rev]. cbv zeta. rewrite E1. reflexivity. }
  destruct ((byte_of c1 =? 194) && ((byte_of c =? 133) || (byte_of c =? 160))) eqn:E2.
  { apply (Hcons [c] c1 r1 eq_refl).
    - apply andb_prop in E2 as [E2 _]. apply Nat.eqb_eq in E2. rewrite E2. reflexivity.
    - cbn [trim_end_rev]. cbv zeta. rewrite E1, E2. reflexivity. }
  destruct r1 as [|c2 r2].
  { exists []. split; [|now left]. cbn [trim_end_rev]. cbv zeta. rewrite E1, E2. reflexivity. }
  destruct (((byte_of c2 =? 225) && (byte_of c1 =? 154) && (byte_of c =? 128))
     || ((byte_of c2 =? 226) && (byte_of c1 =? 128)
         && (in_range 128 138 (byte_of c) || (byte_of c =? 168) || (byte_of c =? 169) || (byte_of c =? 175)))
     || ((byte_of c2 =? 226) && (byte_of c1 =? 129) && (byte_of c =? 159))
     || ((byte_of c2 =? 227) && (byte_of c1 =? 128) && (byte_of c =? 128))) eqn:E3.
  - apply (Hcons [c; c1] c2 r2 eq_refl).
    + exact (ws3_lead _ _ _ E3).
    + cbn [trim_end_rev]. cbv zeta. rewrite E1, E2, E3. reflexivity.
  - exists []. split; [|now left]. cbn [trim_end_rev]. cbv zeta. rewrite E1, E2, E3. reflexivity.
Qed.

(** Trimming keeps a valid UTF-8 text valid. *)
Lemma trim_end_ok (s : string) : utf8_ok (bytes s) = true -> utf8_ok (bytes (trim_end s)) = true.
Proof.
  unfold trim_end, rev_bytes. intros H.
  destruct (trim_end_rev_split (rev (list_ascii_of_string s))) as [d [E Hd]].
  revert E. generalize (trim_end_rev (rev (list_ascii_of_string s))). intros t E.
  rewrite of_rev_bytes_eq, sapp_nil_r, bytes_string_of_list.
  rewrite bytes_list in H.
  assert (Es : list_ascii_of_string s = rev t ++ rev d).
  { rewrite <- rev_app_distr, <- E, rev_involutive. reflexivity. }
  rewrite Es, map_app in H.
  apply (utf8_app_l _ _ H).
  intros c b' Hc. destruct Hd as [-> | [d' [c0 [-> Hc0]]]]; [discriminate|].
  rewrite rev_app_distr in Hc. simpl in Hc. injection Hc as Hc1 _. rewrite <- Hc1. exact Hc0.
Qed.

Lemma fffd_app (x : string) : utf8_ok (bytes x) = true -> utf8_ok (bytes (fffd +++ x)) = true.
Proof. intros H. exact H. Qed.

(** [String::from_utf8_lossy] always gives valid UTF-8. *)
Lemma lossy_ok (s : string) : utf8_ok (bytes (lossy s)) = true.
Proof.
  remember (String.length s) as n eqn:En. revert s En.
  induction n as [n IH] using lt_wf_ind. intros s En.
  destruct s as [|c r]; [reflexivity|]. simpl in En.
  assert (IHr : forall t, String.length t <= String.length r -> utf8_ok (bytes (lossy t)) = true)
    by (intros t Ht; apply (IH (String.length t)); [lia | reflexivity]).
  cbn [lossy].
  destruct (byte_of c <? 128) eqn:E0.
  { cbn [bytes]. rewrite utf8_ok_cons, E0. apply IHr. lia. }
  destruct (in_range 194 223 (byte_of c)) eqn:E1.
  { destruct r as [|c1 r1]; [reflexivity|].
    destruct (cont (byte_of c1)) eqn:E2; [|apply fffd_app, IHr; lia].
    cbn [bytes]. rewrite utf8_ok_cons, E0, E1, E2. apply IHr. simpl. lia. }
  destruct (in_range 224 239 (byte_of c)) eqn:E3.
  { destruct r as [|c1 r1]; [reflexivity|].
    destruct (lead3_ok (byte_of c) (byte_of c1)) eqn:E4; [|apply fffd_app, IHr; lia].
    destruct r1 as [|c2 r2]; [reflexivity|].
    destruct (cont (byte_of c2)) eqn:E5; [|apply fffd_app, IHr; simpl; lia].
    cbn [bytes]. rewrite utf8_ok_cons, E0, E1, E3, E4, E5. apply IHr. simpl. lia. }
  destruct (in_range 240 244 (byte_of c)) eqn:E6.
  { destruct r as [|c1 r1]; [reflexivity|].
    destruct (lead4_ok (byte_of c) (byte_of c1)) eqn:E7; [|apply fffd_app, IHr; lia].
    destruct r1 as [|c2 r2]; [reflexivity|].
    destruct (cont (byte_of c2)) eqn:E8; [|apply fffd_app, IHr; simpl; lia].
    destruct r2 as [|c3 r3]; [reflexivity|].
    destruct (cont (byte_of c3)) eqn:E9; [|apply fffd_app, IHr; simpl; lia].
    cbn [bytes]. rewrite utf8_ok_cons, E0, E1, E3, E6, E7, E8, E9. apply IHr. simpl. lia. }
  apply fffd_app, IHr. lia.
Qed.

Lemma header_line_ok (root p : path) : utf8_ok (bytes (header_line root p)) = true.
Proof.
  unfold header_line, display. rewrite !bytes_app.
  apply utf8_app; [reflexivity|]. apply utf8_app; [apply lossy_ok | reflexivity].
Qed.

Lemma to_str_some (d c : string) : to_str d = Some c -> c = d /\ utf8_ok (bytes d) = true.
Proof. unfold to_str. destruct (utf8_ok (bytes d)); intros H; [now injection H as <-|discriminate]. Qed.

(** ** Tree lemmas *)

(** ** Writing the output file *)

Lemma upd_file_single (nm x d : string) (kids : list node) :
  upd_file (NDir nm kids) [x] d = option_map (NDir nm) (set_kid x d kids).
Proof.
  simpl. f_equal. induction kids as [|k ks IH]; simpl; [reflexivity|].
  destruct (String.eqb (node_name k) x); [reflexivity|]. now rewrite IH.
Qed.

Lemma upd_file_deep (nm x y d : string) (r : list string) (kids : list node) :
  upd_file (NDir nm kids) (x :: y :: r) d =
  option_map (NDir nm) (upd_kid (fun k => upd_file k (y :: r) d) x kids).
Proof.
  simpl. f_equal. induction kids as [|k ks IH]; simpl; [reflexivity|].
  destruct (String.eqb (node_name k) x); [reflexivity|]. now rewrite IH.
Qed.

Lemma lookup_dir (nm x : string) (r : list string) (kids : list node) :
  lookup (NDir nm kids) (x :: r) = find_kid (fun k => lookup k r) x kids.
Proof.
  simpl. induction kids as [|k ks IH]; simpl; [reflexivity|].
  destruct (String.eqb (node_name k) x); [reflexivity|]. exact IH.
Qed.

Lemma upd_file_name (n : node) (t : list string) (d : string) (n' : node) :
  upd_file n t d = Some n' -> node_name n' = node_name n.
Proof.
  destruct n as [nm0 d0|nm kids|nm0]; try discriminate.
  destruct t as [|x [|y r]]; [discriminate| |].
  - rewrite upd_file_single. destruct (set_kid x d kids); [|discriminate].
    intros H; injection H as <-. reflexivity.
  - rewrite upd_file_deep. destruct (upd_kid _ x kids); [|discriminate].
    intros H; injection H as <-. reflexivity.
Qed.

Lemma lookup_file_deep (nm d : string) (z : string) (l : list string) :
  lookup (NFile nm d) (z :: l) = None.
Proof. reflexivity. Qed.

Lemma not_prefix_cons (x : string) (t l : list string) (z : string) :
  ~ (exists q, x :: t = (z :: l) ++ q) -> z <> x \/ ~ (exists q, t = l ++ q).
Proof.
  intros H. destruct (string_dec z x) as [->|E]; [right|left; exact E].
  intros [q Hq]. apply H. exists q. simpl. now rewrite Hq.
Qed.

(** Writing a file leaves every path that is not one of its ancestors, or the
    file itself, as it was. *)
Lemma upd_file_frame (n : node) : forall t d n',
  upd_file n t d = Some n' ->
  forall l, ~ (exists q, t = l ++ q) -> lookup n' l = lookup n l.
Proof.
  induction n as [nm0 d0|nm kids IHk|nm0] using node_ind'; intros t d n' H l Hl;
    try discriminate.
  destruct l as [|z l]; [exfalso; apply Hl; exists t; reflexivity|].
  destruct t as [|x [|y r]]; [discriminate| |].
  - rewrite upd_file_single in H.
    destruct (set_kid x d kids) as [ks'|] eqn:E; [|discriminate]. injection H as <-.
    rewrite !lookup_dir.
    assert (Hzl : z <> x \/ l <> []).
    { destruct (not_prefix_cons x [] l z Hl) as [H|H]; [now left|right].
      intros ->. apply H. exists []. reflexivity. }
    clear IHk Hl. revert ks' E. induction kids as [|k ks IH]; intros ks' E; simpl in E.
    + injection E as <-. simpl.
      destruct (String.eqb_spec x z) as [<-|]; [|reflexivity].
      destruct Hzl as [H|H]; [contradiction|]. destruct l; [contradiction|reflexivity].
    + destruct (String.eqb_spec (node_name k) x) as [Ek|Ek].
      * destruct k as [nk dk|nk kk|nk]; try discriminate. injection E as <-.
        simpl in Ek. subst nk. simpl.
        destruct (String.eqb_spec x z) as [<-|]; [|reflexivity].
        destruct Hzl as [H|H]; [contradiction|]. destruct l; [contradiction|reflexivity].
      * destruct (set_kid x d ks) as [ks''|]; [|discriminate]. injection E as <-.
        simpl. destruct (String.eqb (node_name k) z); [reflexivity|]. now apply IH.
  - rewrite upd_file_deep in H.
    destruct (upd_kid _ x kids) as [ks'|] eqn:E; [|discriminate]. injection H as <-.
    rewrite !lookup_dir.
    pose proof (not_prefix_cons x (y :: r) l z Hl) as Hzl. clear Hl.
    revert ks' E. induction kids as [|k ks IH]; intros ks' E; simpl in E; [discriminate|].
    inversion IHk as [|k0 ks0 Pk Pks]; subst.
    destruct (String.eqb_spec (node_name k) x) as [Ek|Ek].
    + destruct (upd_file k (y :: r) d) as [k'|] eqn:Ek'; [|discriminate]. injection E as <-.
      simpl. rewrite (upd_file_name k (y :: r) d k' Ek').
      destruct (String.eqb_spec (node_name k) z) as [Ez|]; [|reflexivity].
      destruct Hzl as [H|H]; [congruence|]. exact (Pk _ _ _ Ek' l H).
    + destruct (upd_kid _ x ks) as [ks''|]; [|discriminate]. injection E as <-.
      simpl. destruct (String.eqb (node_name k) z); [reflexivity|]. now apply IH.
Qed.

(** After the write, the file's path leads to the file with the new data. *)
Lemma upd_file_target (n : node) : forall t d n',
  upd_file n t d = Some n' -> lookup n' t = Some (NFile (last t "") d).
Proof.
  induction n as [nm0 d0|nm kids IHk|nm0] using node_ind'; intros t d n' H; try discriminate.
  destruct t as [|x [|y r]]; [discriminate| |].
  - rewrite upd_file_single in H.
    destruct (set_kid x d kids) as [ks'|] eqn:E; [|discriminate]. injection H as <-.
    rewrite lookup_dir. simpl last. clear IHk.
    revert ks' E. induction kids as [|k ks IH]; intros ks' E; simpl in E.
    + injection E as <-. simpl. now rewrite String.eqb_refl.
    + destruct (String.eqb_spec (node_name k) x) as [Ek|Ek].
      * destruct k as [nk dk|nk kk|nk]; try discriminate. injection E as <-.
        simpl. now rewrite String.eqb_refl.
      * destruct (set_kid x d ks) as [ks''|]; [|discriminate]. injection E as <-.
        simpl. apply String.eqb_neq in Ek. rewrite Ek. now apply IH.
  - rewrite upd_file_deep in H.
    destruct (upd_kid _ x kids) as [ks'|] eqn:E; [|discriminate]. injection H as <-.
    rewrite lookup_dir. change (last (x :: y :: r) "") with (last (y :: r) "").
    revert ks' E. induction kids as [|k ks IH]; intros ks' E; simpl in E; [discriminate|].
    inversion IHk as [|k0 ks0 Pk Pks]; subst.
    destruct (String.eqb_spec (node_name k) x) as [Ek|Ek].
    + destruct (upd_file k (y :: r) d) as [k'|] eqn:Ek'; [|discriminate]. injection E as <-.
      simpl. rewrite (upd_file_name k (y :: r) d k' Ek'), Ek, String.eqb_refl.
      exact (Pk _ _ _ Ek').
    + destruct (upd_kid _ x ks) as [ks''|]; [|discriminate]. injection E as <-.
      simpl. apply String.eqb_neq in Ek. rewrite Ek. now apply IH.
Qed.

(** Whether the write succeeds does not depend on the data, and writing
    twice is writing the second data once. *)
Lemma upd_file_again (n : node) : forall t d n',
  upd_file n t d = Some n' ->
  forall d', (exists n'', upd_file n t d' = Some n'') /\ upd_file n' t d' = upd_file n t d'.
Proof.
  induction n as [nm0 d0|nm kids IHk|nm0] using node_ind'; intros t d n' H d'; try discriminate.
  destruct t as [|x [|y r]]; [discriminate| |].
  - rewrite upd_file_single in H.
    destruct (set_kid x d kids) as [ks'|] eqn:E; [|discriminate]. injection H as <-.
    rewrite !upd_file_single. clear IHk.
    enough (Hs : (exists ks'', set_kid x d' kids = Some ks'') /\ set_kid x d' ks' = set_kid x d' kids).
    { destruct Hs as [[ks'' Hs1] Hs2]. rewrite Hs2, Hs1. cbn [option_map]. split; [eexists; reflexivity | reflexivity]. }
    revert ks' E. induction kids as [|k ks IH]; intros ks' E; simpl in E.
    + injection E as <-. simpl. rewrite String.eqb_refl. split; [eexists; reflexivity | reflexivity].
    + destruct (String.eqb_spec (node_name k) x) as [Ek|Ek].
      * destruct k as [nk dk|nk kk|nk]; try discriminate. injection E as <-.
        simpl in Ek |- *. subst nk. rewrite String.eqb_refl. split; [eexists; reflexivity | reflexivity].
      * destruct (set_kid x d ks) as [ks''|] eqn:E'; [|discriminate]. injection E as <-.
        destruct (IH ks'' eq_refl) as [[k3 H3] H4].
        simpl. apply String.eqb_neq in Ek. rewrite Ek, H4, H3. split; [eexists; reflexivity | reflexivity].
  - rewrite upd_file_deep in H.
    destruct (upd_kid _ x kids) as [ks'|] eqn:E; [|discriminate]. injection H as <-.
    rewrite !upd_file_deep.
    enough (Hs : (exists ks'', upd_kid (fun k => upd_file k (y :: r) d') x kids = Some ks'') /\
                 upd_kid (fun k => upd_file k (y :: r) d') x ks' =
                 upd_kid (fun k => upd_file k (y :: r) d') x kids).
    { destruct Hs as [[ks'' Hs1] Hs2]. rewrite Hs2, Hs1. cbn [option_map]. split; [eexists; reflexivity | reflexivity]. }
    revert ks' E. induction kids as [|k ks IH]; intros ks' E; simpl in E; [discriminate|].
    inversion IHk as [|k0 ks0 Pk Pks]; subst.
    destruct (String.eqb_spec (node_name k) x) as [Ek|Ek].
    + destruct (upd_file k (y :: r) d) as [k'|] eqn:Ek'; [|discriminate]. injection E as <-.
      destruct (Pk _ _ _ Ek' d') as [[k3 H3] H4].
      simpl. rewrite (upd_file_name k (y :: r) d k' Ek'), Ek, String.eqb_refl, H4, H3.
      split; [eexists; reflexivity | reflexivity].
    + destruct (upd_kid _ x ks) as [ks''|] eqn:E'; [|discriminate]. injection E as <-.
      destruct (IH Pks ks'' eq_refl) as [[k3 H3] H4].
      simpl. apply String.eqb_neq in Ek. rewrite Ek, H4, H3. split; [eexists; reflexivity | reflexivity].
Qed.

(** Writing a file changes no answer to "is this path a directory". *)
Lemma upd_file_is_dir (n : node) : forall t d n',
  upd_file n t d = Some n' -> forall l, is_dir_at n' l = is_dir_at n l.
Proof.
  induction n as [nm0 d0|nm kids IHk|nm0] using node_ind'; intros t d n' H l; try discriminate.
  destruct l as [|z l].
  { destruct t as [|x [|y r]]; [discriminate| |].
    - rewrite upd_file_single in H. destruct (set_kid x d kids); [|discriminate].
      injection H as <-. reflexivity.
    - rewrite upd_file_deep in H. destruct (upd_kid _ x kids); [|discriminate].
      injection H as <-. reflexivity. }
  unfold is_dir_at.
  destruct t as [|x [|y r]]; [discriminate| |].
  - rewrite upd_file_single in H.
    destruct (set_kid x d kids) as [ks'|] eqn:E; [|discriminate]. injection H as <-.
    rewrite !lookup_dir. clear IHk.
    revert ks' E. induction kids as [|k ks IH]; intros ks' E; simpl in E.
    + injection E as <-. simpl. destruct (String.eqb x z); [|reflexivity].
      destruct l; reflexivity.
    + destruct (String.eqb_spec (node_name k) x) as [Ek|Ek].
      * destruct k as [nk dk|nk kk|nk]; try discriminate. injection E as <-.
        simpl in Ek |- *. subst nk. destruct (String.eqb x z); [|reflexivity].
        destruct l; reflexivity.
      * destruct (set_kid x d ks) as [ks''|]; [|discriminate]. injection E as <-.
        simpl. destruct (String.eqb (node_name k) z); [reflexivity|]. now apply IH.
  - rewrite upd_file_deep in H.
    destruct (upd_kid _ x kids) as [ks'|] eqn:E; [|discriminate]. injection H as <-.
    rewrite !lookup_dir.
    revert ks' E. induction kids as [|k ks IH]; intros ks' E; simpl in E; [discriminate|].
    inversion IHk as [|k0 ks0 Pk Pks]; subst.
    destruct (String.eqb_spec (node_name k) x) as [Ek|Ek].
    + destruct (upd_file k (y :: r) d) as [k'|] eqn:Ek'; [|discriminate]. injection E as <-.
      simpl. rewrite (upd_file_name k (y :: r) d k' Ek').
      destruct (String.eqb (node_name k) z); [|reflexivity].
      exact (Pk _ _ _ Ek' l).
    + destruct (upd_kid _ x ks) as [ks''|]; [|discriminate]. injection E as <-.
      simpl. destruct (String.eqb (node_name k) z); [reflexivity|]. now apply IH.
Qed.

Lemma resolve_from_same (n n' : node) :
  (forall l, is_dir_at n' l = is_dir_at n l) ->
  forall p cur, resolve_from n' cur p = resolve_from n cur p.
Proof.
  intros H p. induction p as [|c p IH]; intros cur; simpl; [reflexivity|].
  rewrite H. destruct (is_dir_at n cur); [destruct c; apply IH | reflexivity].
Qed.

(** Paths resolve as before once a file has been written. *)
Lemma resolve_upd (fs : FS) (t : list string) (d : string) (r : node) :
  upd_file (fs_root fs) t d = Some r -> forall p, resolve (mkFS r (fs_cwd fs)) p = resolve fs p.
Proof.
  intros H p. pose proof (resolve_from_same _ _ (upd_file_is_dir _ _ _ _ H)) as E.
  unfold resolve. cbn [fs_root fs_cwd].
  destruct p as [|[| | |x] p]; [reflexivity|apply E..].
Qed.

(** Opening the output and then storing [data] in it writes [data] at the
    output's resolved path; that path then leads to a file holding [data]. *)
Lemma open_store (fs fs1 : FS) (output : path) (data : string) :
  open_output fs output = Some fs1 ->
  exists t n2, resolve fs output = Some t /\
    upd_file (fs_root fs) t data = Some n2 /\
    store_output fs1 output data = mkFS n2 (fs_cwd fs) /\
    fs_lookup (mkFS n2 (fs_cwd fs)) output = Some (NFile (last t "") data).
Proof.
  unfold open_output. destruct (resolve fs output) as [t|] eqn:Er; [|discriminate].
  destruct (upd_file (fs_root fs) t "") as [n1|] eqn:E1; [|discriminate].
  intros H; injection H as <-.
  destruct (upd_file_again _ _ _ _ E1 data) as [[n2 E2] E3].
  exists t, n2. split; [reflexivity|]. split; [exact E2|]. split.
  - unfold store_output. rewrite (resolve_upd fs t "" n1 E1), Er. cbn [fs_root fs_cwd].
    rewrite E3, E2. reflexivity.
  - unfold fs_lookup. rewrite (resolve_upd fs t data n2 E2), Er. cbn [fs_root].
    exact (upd_file_target _ _ _ _ E2).
Qed.

(** ** Walk lemmas *)

Lemma entries_of_app (a b : list witem) : entries_of (a ++ b) = entries_of a ++ entries_of b.
Proof. unfold entries_of. apply flat_map_app. Qed.

Lemma entries_walk_node (keep msg : path -> bool) (n : node) : forall p,
  entries_of (walk_node_items keep msg p n) = walk_node keep p n.
Proof.
  induction n as [nm d|nm kids IHk|nm] using node_ind'; intros p;
    cbn [walk_node_items walk_node]; rewrite entries_of_app.
  - destruct (msg p), (keep p); reflexivity.
  - assert (Hk : entries_of (flat_map (fun k => walk_node_items keep msg (join p (node_name k)) k) kids)
                 = flat_map (fun k => walk_node keep (join p (node_name k)) k) kids).
    { induction IHk as [|k ks Pk Pks IH]; [reflexivity|].
      cbn [flat_map]. rewrite entries_of_app, Pk, IH. reflexivity. }
    destruct (msg p), (keep p); cbn [app]; try reflexivity;
      change (entries_of (WEntry (p, NDir nm kids) :: ?l)) with ((p, NDir nm kids) :: entries_of l);
      rewrite Hk; reflexivity.
  - destruct (msg p), (keep p); reflexivity.
Qed.


(** ** Sums *)

Lemma list_sum_zero {A : Type} (f : A -> nat) (l : list A) :
  list_sum (map f l) = 0 <-> forall x, In x l -> f x = 0.
Proof.
  induction l as [|y l IH]; simpl; [split; [contradiction|reflexivity]|].
  split.
  - intros H x [<-|Hx]; [lia|]. apply IH; [lia|exact Hx].
  - intros H. rewrite (H y (or_introl eq_refl)). apply IH. intros x Hx. apply H. now right.
Qed.

(* ------------------------------------------------------------------ *)
(** ** Runs for every glob engine *)

Section Proofs.

Variable glob_valid : string -> bool.
Variable glob_is_match : string -> string -> bool.
Variable globset_builds : list string -> bool.

Lemma builder_add_line_globs (b b' : GitignoreBuilder) (l : string) :
  builder_add_line glob_valid b l = Ok b' ->
  gb_root b' = gb_root b /\ gb_globs b' = gb_globs b ++ rules_of glob_valid [l].
Proof.
  unfold builder_add_line, rules_of. simpl.
  destruct (add_line glob_valid l) as [[g|]|e]; intros H; inversion H; subst; simpl.
  - auto.
  - now rewrite app_nil_r.
Qed.

Lemma add_lines_globs (f : path) (ls : list string) : forall b errs,
  gb_root (fst (add_lines glob_valid f b ls errs)) = gb_root b /\
  gb_globs (fst (add_lines glob_valid f b ls errs)) =
  gb_globs b ++ rules_of glob_valid (utf8_prefix ls).
Proof.
  induction ls as [|l ls IH]; intros b errs; simpl.
  - now rewrite app_nil_r.
  - destruct (utf8_ok (bytes l)); simpl.
    + destruct (builder_add_line glob_valid b l) as [b'|e] eqn:E.
      * apply builder_add_line_globs in E as [E1 E2].
        destruct (IH b' errs) as [I1 I2]. rewrite I1, I2, E1, E2.
        unfold rules_of at 1. simpl. rewrite app_nil_r, <- app_assoc. auto.
      * destruct (IH b (errs ++ [e])) as [I1 I2]. rewrite I1, I2.
        unfold builder_add_line in E. unfold rules_of at 2. simpl.
        destruct (add_line glob_valid l) as [[g|]|e']; try discriminate. auto.
    + now rewrite app_nil_r.
Qed.

Lemma add_cli_patterns_globs (cli : list string) : forall b b',
  add_cli_patterns glob_valid b cli = Ok b' ->
  gb_root b' = gb_root b /\ gb_globs b' = gb_globs b ++ rules_of glob_valid cli.
Proof.
  induction cli as [|pat cli IH]; intros b b' H; simpl in H.
  - inversion H; subst. now rewrite app_nil_r.
  - destruct (builder_add_line glob_valid b pat) as [b1|e] eqn:E; [|discriminate].
    apply builder_add_line_globs in E as [E1 E2].
    destruct (IH b1 b' H) as [I1 I2]. rewrite I1, I2, E1, E2.
    unfold rules_of. simpl. rewrite app_nil_r, <- app_assoc. auto.
Qed.

Lemma add_ignore_file_globs (fs : FS) (root : path) :
  gb_globs (add_ignore_file glob_valid fs (builder_new root) root) = ignore_rules glob_valid fs root.
Proof.
  unfold add_ignore_file, ignore_rules.
  destruct (path_exists fs (join root ignore_file_name)); [|reflexivity].
  unfold builder_add.
  destruct (fs_lookup fs (join root ignore_file_name)) as [[nm d| |]|]; try reflexivity.
  apply add_lines_globs.
Qed.

Lemma matcher_new_globs (fs : FS) (root : path) (cli : list string) (m : ExcludeMatcher) :
  matcher_new glob_valid globset_builds fs root cli = Ok m ->
  gi_globs m = ignore_rules glob_valid fs root ++ rules_of glob_valid cli.
Proof.
  unfold matcher_new.
  destruct (add_cli_patterns glob_valid _ cli) as [b'|e] eqn:E; [|discriminate].
  unfold build. destruct (globset_builds _); [|discriminate].
  intros H. inversion H; subst; clear H. simpl.
  apply add_cli_patterns_globs in E as [_ E]. now rewrite E, add_ignore_file_globs.
Qed.

Lemma matched_nonempty (m : ExcludeMatcher) (s : string) (d : bool) :
  gi_globs m <> [] -> matched glob_is_match m s d = matched_stripped glob_is_match m (gi_strip m s) d.
Proof. unfold matched. destruct (gi_globs m); [congruence | reflexivity]. Qed.

Lemma matched_stripped_last (m : ExcludeMatcher) (cand : string) (d : bool)
  (l1 : list Glob) (g : Glob) (l2 : list Glob) :
  gi_globs m = l1 ++ g :: l2 ->
  glob_is_match (g_actual g) cand && (negb (is_only_dir g) || d) = true ->
  (forall g', In g' l2 -> glob_is_match (g_actual g') cand && (negb (is_only_dir g') || d) = false) ->
  matched_stripped glob_is_match m cand d = if is_whitelist g then MWhitelist g else MIgnore g.
Proof.
  intros Hm Hg Hl2. apply andb_prop in Hg as [Hg1 Hg2].
  unfold matched_stripped. rewrite Hm, filter_app. simpl. rewrite Hg1.
  rewrite rev_app_distr. simpl. rewrite <- app_assoc, find_app.
  rewrite find_all_false.
  - simpl. now rewrite Hg2.
  - intros x Hx. apply in_rev, filter_In in Hx as [Hx1 Hx2].
    specialize (Hl2 x Hx1). rewrite Hx2 in Hl2. exact Hl2.
Qed.

Lemma matched_stripped_none (m : ExcludeMatcher) (cand : string) (d : bool) :
  (forall g, In g (gi_globs m) -> glob_is_match (g_actual g) cand && (negb (is_only_dir g) || d) = false) ->
  matched_stripped glob_is_match m cand d = MNone.
Proof.
  intros H. unfold matched_stripped. rewrite find_all_false; [reflexivity|].
  intros x Hx. apply in_rev, filter_In in Hx as [Hx1 Hx2].
  specialize (H x Hx1). rewrite Hx2 in H. exact H.
Qed.

(** C2: the matcher's rules are the ignore file's rules followed by the CLI
    patterns' rules, in order; the last rule that applies to a path (a
    directory-only rule applying only to a directory) decides it, excluded
    for an ignore rule and not excluded for a negated one; a path no rule
    applies to is not excluded. *)
Theorem exclude_last_match_wins (fs : FS) (root : path) (cli : list string) (m : ExcludeMatcher) :
  matcher_new glob_valid globset_builds fs root cli = Ok m ->
  gi_globs m = ignore_rules glob_valid fs root ++ rules_of glob_valid cli /\
  (forall p l1 g l2,
      gi_globs m = l1 ++ g :: l2 ->
      rule_applies glob_is_match fs m g p = true ->
      (forall g', In g' l2 -> rule_applies glob_is_match fs m g' p = false) ->
      is_excluded glob_is_match fs m p = negb (is_whitelist g)) /\
  (forall p,
      (forall g, In g (gi_globs m) -> rule_applies glob_is_match fs m g p = false) ->
      is_excluded glob_is_match fs m p = false).
Proof.
  intros Hm. split; [now apply matcher_new_globs|]. split.
  - intros p l1 g l2 Hs Hg Hl2. unfold is_excluded.
    rewrite matched_nonempty by (rewrite Hs; destruct l1; discriminate).
    rewrite (matched_stripped_last m _ _ l1 g l2 Hs Hg Hl2).
    destruct (is_whitelist g); reflexivity.
  - intros p Hn. unfold is_excluded, matched.
    destruct (gi_globs m) as [|g0 gs] eqn:E; [reflexivity|].
    rewrite matched_stripped_none; [reflexivity|].
    intros g Hg. apply Hn. rewrite <- E. exact Hg.
Qed.

(** C10: an entry whose file name is not valid UTF-8 is not hidden, so the
    filter keeps or prunes it by the matcher alone, whatever [skip_hidden]. *)
Theorem is_hidden_non_utf8 (p : path) :
  utf8_ok (bytes (entry_file_name p)) = false ->
  is_hidden p = false /\
  (forall fs m args,
      keep_entry glob_is_match fs m args p = negb (is_excluded glob_is_match fs m p)).
Proof.
  intros H.
  assert (Hh : is_hidden p = false) by (unfold is_hidden, to_str; now rewrite H).
  split; [exact Hh|]. intros fs m args. unfold keep_entry. rewrite Hh.
  rewrite orb_true_r, andb_true_r. reflexivity.
Qed.

(** ** The paths of [execute] *)

Lemma run_paths_err (fs : FS) (args : RunArgs) (e : err) :
  run_paths fs args = Err e ->
  e = CurrentDirFailed /\ needs_cwd args && negb (is_dir_at (fs_root fs) (fs_cwd fs)) = true.
Proof.
  unfold run_paths, needs_cwd, current_dir.
  destruct (path_eqb (input_path args) [CurDir]), (is_dir_at (fs_root fs) (fs_cwd fs)),
    (root_arg args) as [r|]; try destruct (path_eqb r [CurDir]);
    cbn; intros H; try discriminate; injection H as <-; auto.
Qed.

Lemma run_paths_ok (fs : FS) (args : RunArgs) (x : path * path * path) :
  run_paths fs args = Ok x -> needs_cwd args && negb (is_dir_at (fs_root fs) (fs_cwd fs)) = false.
Proof.
  unfold run_paths, needs_cwd, current_dir.
  destruct (path_eqb (input_path args) [CurDir]), (is_dir_at (fs_root fs) (fs_cwd fs)),
    (root_arg args) as [r|]; try destruct (path_eqb r [CurDir]);
    cbn; intros H; try discriminate; reflexivity.
Qed.

(** C8: when the input path does not exist, [process_dir] fails with
    [PathDoesNotExist] before the matcher is built or the output opened, the
    file system unchanged and nothing printed; so does [execute], except
    when it needs the working directory (input ["."], or the root omitted or
    ["."]) and that directory has been removed: then [current_dir] fails
    first, the file system again unchanged. *)
Theorem execute_missing_input (env : Env) (fs : FS) (args : RunArgs) :
  path_exists fs (input_path args) = false ->
  (forall w, process_dir glob_valid glob_is_match globset_builds fs w args
             = (Err (PathDoesNotExist (input_path args)), st0, fs)) /\
  execute glob_valid glob_is_match globset_builds env fs args =
    (Err (if needs_cwd args && negb (is_dir_at (fs_root fs) (fs_cwd fs))
          then CurrentDirFailed else PathDoesNotExist (input_path args)), st0, fs).
Proof.
  intros H.
  assert (Hp : forall w, process_dir glob_valid glob_is_match globset_builds fs w args
                         = (Err (PathDoesNotExist (input_path args)), st0, fs))
    by (intros w; unfold process_dir, validate_path_exists; now rewrite H).
  split; [exact Hp|]. unfold execute.
  destruct (run_paths fs args) as [[[root input] output]|e] eqn:Er.
  - rewrite (run_paths_ok fs args _ Er). cbv beta iota. rewrite Hp. reflexivity.
  - destruct (run_paths_err fs args e Er) as [-> ->]. reflexivity.
Qed.

(** ** The write loop *)

Lemma write_file_content_eq (fs : FS) (w : Walker) (p : path) (s : St) :
  let o := out s +++ (if first s then "" else String nl EmptyString) +++ header_line (w_root w) p in
  write_file_content fs w p s =
  match match file_data fs w p o with Some d => to_str d | None => None end with
  | Some c => (Ok tt, mkSt (o +++ trim_end c +++ String nl EmptyString) false
                            (file_count s) (recs s ++ [(p, c)]) (log s))
  | None => (Err (ReadFailed p), mkSt o (first s) (file_count s) (recs s) (log s))
  end.
Proof.
  destruct s as [o0 f0 c0 r0 l0]. simpl.
  unfold write_file_content, read_to_string, bind, get, write, modify, set_first, record, ret, fail.
  simpl. destruct f0; simpl.
  - destruct (file_data fs w p (o0 +++ header_line (w_root w) p)) as [d|]; [|reflexivity].
    destruct (to_str d) as [c|]; [|reflexivity]. simpl. now rewrite !sapp_assoc.
  - rewrite !sapp_assoc.
    destruct (file_data fs w p _) as [d|]; [|reflexivity].
    destruct (to_str d) as [c|]; [|reflexivity]. simpl. now rewrite !sapp_assoc.
Qed.

Lemma traverse_loop_skip (fs : FS) (w : Walker) (args : RunArgs) (x : path * node)
  (its : list witem) (s : St) :
  qualifies fs w x = false ->
  traverse_loop fs w args (WEntry x :: its) s = traverse_loop fs w args its s.
Proof.
  destruct x as [p n]. unfold qualifies. simpl.
  destruct (path_eqb p (w_output w)); simpl; [reflexivity|].
  intros H. now rewrite H.
Qed.

Lemma traverse_loop_qual (fs : FS) (w : Walker) (args : RunArgs) (x : path * node)
  (its : list witem) (s : St) :
  qualifies fs w x = true ->
  traverse_loop fs w args (WEntry x :: its) s =
  match write_file_content fs w (fst x) (counted args s) with
  | (Ok _, s2) => traverse_loop fs w args its s2
  | (Err e, s2) => (Err e, s2)
  end.
Proof.
  destruct x as [p n]. unfold qualifies. cbn -[progress_due write_file_content].
  destruct (path_eqb p (w_output w)); cbn -[progress_due write_file_content]; [discriminate|].
  intros H. rewrite H. unfold counted, bind, incr_count, modify, get, emit, ret.
  cbn -[progress_due write_file_content traverse_loop].
  destruct (progress_due args (S (file_count s))); cbn -[write_file_content traverse_loop].
  - destruct (write_file_content fs w p _) as [[u|e] s2]; reflexivity.
  - rewrite app_nil_r. destruct s; simpl.
    destruct (write_file_content fs w p _) as [[u|e] s2]; reflexivity.
Qed.

Lemma traverse_loop_hidden (fs : FS) (w : Walker) (args : RunArgs) (p : path)
  (its : list witem) (s : St) :
  traverse_loop fs w args (WHidden p :: its) s =
  traverse_loop fs w args its (mkSt (out s) (first s) (file_count s) (recs s) (log s ++ [EvHidden p])).
Proof. reflexivity. Qed.

Lemma entries_of_hidden (p : path) (its : list witem) :
  entries_of (WHidden p :: its) = entries_of its.
Proof. reflexivity. Qed.

Lemma entries_of_entry (x : path * node) (its : list witem) :
  entries_of (WEntry x :: its) = x :: entries_of its.
Proof. reflexivity. Qed.

Lemma render_all_snoc (root : path) (rs : list (path * string)) (x : path * string) :
  render_all root (rs ++ [x]) = render_all root rs +++ sep_before rs +++ render_rec root x.
Proof.
  unfold render_all. rewrite map_app. simpl. rewrite concat_snoc.
  destruct rs; simpl; [reflexivity|]. reflexivity.
Qed.

Lemma wf_state_log (root : path) (s : St) (lg : list event) :
  wf_state root s -> wf_state root (mkSt (out s) (first s) (file_count s) (recs s) lg).
Proof. intros H. exact H. Qed.

Lemma wf_state_init (root : path) (lg : list event) : wf_state root (st_log lg).
Proof. unfold wf_state; simpl; auto. Qed.

(** The text before a record's content is UTF-8. *)
Lemma wf_pre_ok (root : path) (s : St) (p : path) :
  wf_state root s ->
  utf8_ok (bytes (out s +++ (if first s then "" else String nl EmptyString) +++ header_line root p)) = true.
Proof.
  intros [_ [Hu _]]. rewrite !bytes_app. apply utf8_app; [exact Hu|].
  apply utf8_app; [destruct (first s); reflexivity | apply header_line_ok].
Qed.

Lemma wf_state_step (root : path) (s : St) (p : path) (c : string) (lg : list event) :
  wf_state root s -> utf8_ok (bytes c) = true ->
  wf_state root
    (mkSt ((out s +++ (if first s then "" else String nl EmptyString) +++ header_line root p)
             +++ trim_end c +++ String nl EmptyString)
          false (S (file_count s)) (recs s ++ [(p, c)]) lg).
Proof.
  intros Hs Hc. pose proof (wf_pre_ok root s p Hs) as Hpre.
  destruct Hs as [Ho [Hu [Hf Hn]]]. unfold wf_state; simpl. split; [|split; [|split]].
  - rewrite render_all_snoc, Ho, Hf. unfold render_rec, sep_before.
    destruct (recs s); cbn [String.append]; rewrite ?sapp_assoc; reflexivity.
  - rewrite !bytes_app. apply utf8_app; [rewrite <- !bytes_app; exact Hpre|].
    apply utf8_app; [apply trim_end_ok, Hc | reflexivity].
  - destruct (recs s); reflexivity.
  - rewrite length_app, Hn. simpl. lia.
Qed.

Lemma read_some_ok (o : option string) (c : string) :
  match o with Some d => to_str d | None => None end = Some c -> utf8_ok (bytes c) = true.
Proof.
  destruct o as [d|]; [|discriminate]. intros H.
  destruct (to_str_some d c H) as [-> Hd]. exact Hd.
Qed.

Lemma traverse_loop_run (fs : FS) (w : Walker) (args : RunArgs) (its : list witem) :
  forall s, wf_state (w_root w) s ->
  let '(r, s') := traverse_loop fs w args its s in
  (exists k, map fst (recs s') = map fst (recs s) ++ firstn k (map fst (filter (qualifies fs w) (entries_of its)))) /\
  match r with
  | Ok _ =>
      wf_state (w_root w) s' /\
      map fst (recs s') = map fst (recs s) ++ map fst (filter (qualifies fs w) (entries_of its))
  | Err e =>
      exists p, e = ReadFailed p /\
      out s' = render_all (w_root w) (recs s') +++ sep_before (recs s') +++ header_line (w_root w) p
  end.
Proof.
  induction its as [|[x|p] its IH]; intros s Hs.
  - simpl. split; [exists 0; simpl; now rewrite app_nil_r|]. split; [exact Hs|]. now rewrite app_nil_r.
  - rewrite entries_of_entry. destruct (qualifies fs w x) eqn:Hq.
    + rewrite traverse_loop_qual by exact Hq.
      rewrite write_file_content_eq.
      pose proof (wf_state_step (w_root w) s (fst x)) as Hstep.
      assert (Hs' := Hs). destruct Hs as [Ho [Hu [Hf Hc]]].
      unfold counted; simpl.
      set (o := out s +++ (if first s then "" else String nl EmptyString) +++ header_line (w_root w) (fst x)).
      destruct (match file_data fs w (fst x) o with Some d => to_str d | None => None end) as [c|] eqn:Ec.
      * set (s2 := mkSt (o +++ trim_end c +++ String nl EmptyString) false (S (file_count s))
                         (recs s ++ [(fst x, c)]) _).
        assert (H2 : wf_state (w_root w) s2) by (apply Hstep; [exact Hs'|exact (read_some_ok _ _ Ec)]).
        specialize (IH s2 H2).
        destruct (traverse_loop fs w args its s2) as [r s'] eqn:E.
        destruct IH as [[k Hk] IH]. simpl in Hk. rewrite map_app in Hk. simpl in Hk.
        split.
        -- exists (S k). simpl. rewrite Hq. simpl. rewrite Hk, <- app_assoc. reflexivity.
        -- destruct r as [u|e]; [|exact IH].
           destruct IH as [IH1 IH2]. split; [exact IH1|].
           simpl. rewrite Hq. simpl. rewrite IH2. simpl. rewrite map_app, <- app_assoc. reflexivity.
      * simpl. split; [exists 0; simpl; now rewrite app_nil_r|].
        exists (fst x). split; [reflexivity|].
        unfold o. rewrite Ho, Hf. destruct (recs s); reflexivity.
    + rewrite traverse_loop_skip by exact Hq. specialize (IH s Hs).
      destruct (traverse_loop fs w args its s) as [r s'].
      simpl. rewrite Hq. exact IH.
  - rewrite traverse_loop_hidden, entries_of_hidden.
    exact (IH _ (wf_state_log _ _ _ Hs)).
Qed.

Lemma decodes_data (fs : FS) (w : Walker) (p : path) (cur : string) :
  utf8_ok (bytes cur) = true ->
  decodes fs w p = true ->
  exists d, file_data fs w p cur = Some d /\ to_str d = Some d.
Proof.
  unfold decodes, file_data. intros Hc.
  destruct (same_file fs p (w_output w)).
  - intros _. exists cur. unfold to_str. now rewrite Hc.
  - destruct (fs_lookup fs p) as [[nm d| |]|]; try discriminate.
    intros H. exists d. unfold to_str. now rewrite H.
Qed.

Lemma undecodable_data (fs : FS) (w : Walker) (p : path) (cur : string) :
  undecodable fs w p = true ->
  exists d, file_data fs w p cur = Some d /\ to_str d = None.
Proof.
  unfold undecodable, file_data.
  destruct (same_file fs p (w_output w)); [discriminate|].
  destruct (fs_lookup fs p) as [[nm d| |]|]; try discriminate.
  intros H. exists d. unfold to_str. apply negb_true_iff in H. now rewrite H.
Qed.

Lemma traverse_loop_fail (fs : FS) (w : Walker) (args : RunArgs) (its : list witem) :
  forall s pre q post,
  wf_state (w_root w) s ->
  filter (qualifies fs w) (entries_of its) = pre ++ q :: post ->
  (forall x, In x pre -> decodes fs w (fst x) = true) ->
  undecodable fs w (fst q) = true ->
  let '(r, s') := traverse_loop fs w args its s in
  r = Err (ReadFailed (fst q)) /\ map fst (recs s') = map fst (recs s) ++ map fst pre.
Proof.
  induction its as [|[x|p] its IH]; intros s pre q post Hs Hf Hpre Hq.
  - destruct pre; discriminate.
  - rewrite entries_of_entry in Hf. simpl in Hf. destruct (qualifies fs w x) eqn:Hx.
    + rewrite traverse_loop_qual by exact Hx. rewrite write_file_content_eq.
      pose proof (wf_pre_ok (w_root w) s (fst x) Hs) as Hpre_ok.
      unfold counted; simpl.
      destruct pre as [|y pre].
      * injection Hf as Hxq _. subst q.
        destruct (undecodable_data fs w (fst x)
                    (out s +++ (if first s then "" else String nl EmptyString)
                       +++ header_line (w_root w) (fst x)) Hq) as [d [Hd1 Hd2]].
        rewrite Hd1, Hd2. simpl. split; [reflexivity|]. now rewrite app_nil_r.
      * injection Hf as Hxy Hf. subst y.
        destruct (decodes_data fs w (fst x)
                    (out s +++ (if first s then "" else String nl EmptyString)
                       +++ header_line (w_root w) (fst x)) Hpre_ok (Hpre x (or_introl eq_refl)))
          as [d [Hd1 Hd2]].
        rewrite Hd1, Hd2.
        assert (Hdu : utf8_ok (bytes d) = true) by (apply (to_str_some d d Hd2)).
        specialize (IH _ pre q post
                      (wf_state_step (w_root w) s (fst x) d
                         (log s ++ (if progress_due args (S (file_count s))
                                    then [EvProgress (S (file_count s))] else [])) Hs Hdu) Hf
                      (fun y Hy => Hpre y (or_intror Hy)) Hq).
        destruct (traverse_loop fs w args its _) as [r s'].
        destruct IH as [IH1 IH2]. split; [exact IH1|].
        rewrite IH2. simpl. rewrite map_app, <- app_assoc. reflexivity.
    + rewrite traverse_loop_skip by exact Hx. now apply IH with post.
  - rewrite traverse_loop_hidden. rewrite entries_of_hidden in Hf.
    exact (IH _ pre q post (wf_state_log _ _ _ Hs) Hf Hpre Hq).
Qed.

(** ** The walk *)

Lemma walk_its_entries (fs1 : FS) (m : ExcludeMatcher) (w : Walker) (args : RunArgs) :
  entries_of (walk_its glob_is_match fs1 m w args) = walk_entries glob_is_match fs1 m w args.
Proof.
  unfold walk_its, walk_entries, walk_items, walk.
  destruct (fs_lookup fs1 (w_input w)); [apply entries_walk_node | reflexivity].
Qed.

Lemma walk_node_prefixes (keep : path -> bool) (n : node) :
  forall base x, In x (walk_node keep base n) ->
  exists rel, fst x = base ++ rel /\
              forall l1 l2, rel = l1 ++ l2 -> keep (base ++ l1) = true.
Proof.
  induction n as [nm d|nm kids IHk|nm] using node_ind'; intros base x Hin; simpl in Hin;
    destruct (keep base) eqn:Hk; try contradiction;
    destruct Hin as [<-|Hin];
    try (exists []; split; [now rewrite app_nil_r|];
         intros l1 l2 E; destruct l1; [now rewrite app_nil_r|discriminate]);
    try contradiction.
  apply in_flat_map in Hin as [k [Hk' Hx]].
  rewrite Forall_forall in IHk.
  destruct (IHk k Hk' (join base (node_name k)) x Hx) as [rel [E1 E2]].
  exists (Normal (node_name k) :: rel). unfold join in *. split.
  - rewrite E1, <- app_assoc. reflexivity.
  - intros l1 l2 E. destruct l1 as [|c l1]; [now rewrite app_nil_r|].
    injection E as <- E'. specialize (E2 l1 l2 E'). rewrite <- app_assoc in E2. exact E2.
Qed.

Lemma walk_pruned (fs : FS) (keep : path -> bool) (root : path) (l1 l2 : list component) (n : node) :
  keep (root ++ l1) = false -> ~ In (root ++ l1 ++ l2, n) (walk fs keep root).
Proof.
  intros Hk Hin. unfold walk in Hin.
  destruct (fs_lookup fs root) as [n0|]; [|contradiction].
  apply walk_node_prefixes in Hin as [rel [E1 E2]]. simpl in E1.
  apply app_inv_head in E1. rewrite (E2 l1 l2 (eq_sym E1)) in Hk. discriminate.
Qed.

(** ** Runs of [traverse] *)

(** The run after the matcher is built and the output opened. *)
Lemma traverse_spec (fs : FS) (w : Walker) (args : RunArgs) (m : ExcludeMatcher) (fs1 : FS) :
  matcher_new glob_valid globset_builds fs (w_root w) (exclude_patterns w) = Ok m ->
  open_output fs (w_output w) = Some fs1 ->
  let '(r, s, _) := traverse glob_valid glob_is_match globset_builds fs w args in
  let '(r0, s0) := traverse_loop fs1 w args (walk_its glob_is_match fs1 m w args)
                     (st_log (ignore_msgs fs (w_root w))) in
  r = r0 /\ out s = out s0 /\ recs s = recs s0 /\ file_count s = file_count s0 /\
  log s = log s0 ++ match r0 with
                    | Ok _ => if verbose args then [EvCollected (file_count s0)] else []
                    | Err _ => []
                    end.
Proof.
  intros Hm Ho. unfold traverse. cbv zeta. rewrite Hm, Ho.
  destruct (traverse_loop fs1 w args _ _) as [r0 s0].
  destruct r0 as [u|e]; [destruct (verbose args)|]; simpl; rewrite ?app_nil_r; auto.
Qed.

Lemma traverse_ok_inv (fs : FS) (w : Walker) (args : RunArgs) :
  fst (fst (traverse glob_valid glob_is_match globset_builds fs w args)) = Ok tt ->
  exists m fs1,
    matcher_new glob_valid globset_builds fs (w_root w) (exclude_patterns w) = Ok m /\
    open_output fs (w_output w) = Some fs1.
Proof.
  unfold traverse. cbv zeta.
  destruct (matcher_new glob_valid globset_builds fs (w_root w) (exclude_patterns w)) as [m|e]; [|discriminate].
  destruct (open_output fs (w_output w)) as [fs1|]; [|discriminate].
  intros _. eauto.
Qed.

(** The output file ends up holding the text written to it. *)
Lemma traverse_fs (fs : FS) (w : Walker) (args : RunArgs) (m : ExcludeMatcher) (fs1 : FS) :
  matcher_new glob_valid globset_builds fs (w_root w) (exclude_patterns w) = Ok m ->
  open_output fs (w_output w) = Some fs1 ->
  snd (traverse glob_valid glob_is_match globset_builds fs w args) =
  store_output fs1 (w_output w) (out (snd (fst (traverse glob_valid glob_is_match globset_builds fs w args)))).
Proof.
  intros Hm Ho. unfold traverse. cbv zeta. rewrite Hm, Ho.
  destruct (traverse_loop fs1 w args _ _) as [[u|e] s0]; [destruct (verbose args)|]; reflexivity.
Qed.

Lemma recs_in_entries (fs1 : FS) (w : Walker) (es : list (path * node))
  (s0 : St) (p : path) (c : string) :
  (exists k, map fst (recs s0) = firstn k (map fst (filter (qualifies fs1 w) es))) ->
  In (p, c) (recs s0) -> exists n, In (p, n) es.
Proof.
  intros [k Hk] Hin.
  assert (Hp : In p (map fst (recs s0))) by (apply in_map_iff; exists (p, c); auto).
  rewrite Hk in Hp.
  assert (Hp' : In p (map fst (filter (qualifies fs1 w) es)))
    by (rewrite <- (firstn_skipn k); apply in_or_app; now left).
  clear Hp. rename Hp' into Hp.
  apply in_map_iff in Hp as [[p' n] [Ep Hx]]. simpl in Ep. subst p'.
  apply filter_In in Hx as [Hx _]. eauto.
Qed.

Lemma traverse_ok_state (fs : FS) (w : Walker) (args : RunArgs) (s : St) (fs' : FS) :
  traverse glob_valid glob_is_match globset_builds fs w args = (Ok tt, s, fs') ->
  out s = render_all (w_root w) (recs s) /\
  file_count s = length (recs s) /\
  (exists m fs1,
      matcher_new glob_valid globset_builds fs (w_root w) (exclude_patterns w) = Ok m /\
      open_output fs (w_output w) = Some fs1 /\
      map fst (recs s) = map fst (filter (qualifies fs1 w) (walk_entries glob_is_match fs1 m w args)) /\
      fs' = store_output fs1 (w_output w) (out s)) /\
  (verbose args = true -> exists pr, log s = pr ++ [EvCollected (length (recs s))]).
Proof.
  intros Ht.
  assert (H : fst (fst (traverse glob_valid glob_is_match globset_builds fs w args)) = Ok tt) by now rewrite Ht.
  destruct (traverse_ok_inv fs w args H) as [m [fs1 [Hm Ho]]].
  pose proof (traverse_fs fs w args m fs1 Hm Ho) as Hfs. rewrite Ht in Hfs. simpl in Hfs.
  pose proof (traverse_spec fs w args m fs1 Hm Ho) as Hs. rewrite Ht in Hs.
  pose proof (traverse_loop_run fs1 w args (walk_its glob_is_match fs1 m w args) _
                (wf_state_init (w_root w) (ignore_msgs fs (w_root w)))) as Hr.
  rewrite walk_its_entries in Hr.
  destruct (traverse_loop fs1 w args (walk_its glob_is_match fs1 m w args) _) as [r0 s0].
  destruct Hs as [<- [Ho' [Hr' [Hc Hl]]]].
  destruct Hr as [_ [[Ho0 [_ [_ Hc0]]] Hm0]].
  rewrite Ho', Hr', Hc. split; [exact Ho0|]. split; [exact Hc0|]. split.
  - exists m, fs1. split; [exact Hm|]. split; [exact Ho|]. split; [exact Hm0|].
    rewrite Hfs, Ho'. reflexivity.
  - intros Hv. rewrite Hl, Hv. exists (log s0). rewrite Hc0. reflexivity.
Qed.

(** C3: every entry of the walk that the matcher excludes, or that is hidden
    when hidden entries are skipped, is pruned with its whole subtree: no
    path at or below it is yielded by the walk, and none is read into a
    record of the output. An entry is hidden when its file name is valid
    UTF-8 and begins with a dot. *)
Theorem traverse_prunes_excluded_subtrees (fs : FS) (w : Walker) (args : RunArgs)
  (m : ExcludeMatcher) (fs1 : FS) (l1 : list component) :
  matcher_new glob_valid globset_builds fs (w_root w) (exclude_patterns w) = Ok m ->
  open_output fs (w_output w) = Some fs1 ->
  is_excluded glob_is_match fs1 m (w_input w ++ l1) = true \/
  (skip_hidden args = true /\ is_hidden (w_input w ++ l1) = true) ->
  forall l2,
  (forall n, ~ In (w_input w ++ l1 ++ l2, n) (walk_entries glob_is_match fs1 m w args)) /\
  (forall c, ~ In (w_input w ++ l1 ++ l2, c)
                  (recs (snd (fst (traverse glob_valid glob_is_match globset_builds fs w args))))).
Proof.
  intros Hm Ho Hp l2.
  assert (Hk : keep_entry glob_is_match fs1 m args (w_input w ++ l1) = false).
  { unfold keep_entry. destruct Hp as [H | [H1 H2]]; [now rewrite H|].
    rewrite H1, H2. apply andb_false_r. }
  assert (Hw : forall n, ~ In (w_input w ++ l1 ++ l2, n) (walk_entries glob_is_match fs1 m w args))
    by (intros n; apply walk_pruned, Hk).
  split; [exact Hw|].
  intros c Hin.
  pose proof (traverse_spec fs w args m fs1 Hm Ho) as Hs.
  pose proof (traverse_loop_run fs1 w args (walk_its glob_is_match fs1 m w args) _
                (wf_state_init (w_root w) (ignore_msgs fs (w_root w)))) as Hr.
  rewrite walk_its_entries in Hr.
  destruct (traverse glob_valid glob_is_match globset_builds fs w args) as [[r s] fs'].
  destruct (traverse_loop fs1 w args (walk_its glob_is_match fs1 m w args) _) as [r0 s0].
  destruct Hs as [_ [_ [Hrec _]]]. destruct Hr as [Hk' _].
  simpl in Hin, Hk'. rewrite Hrec in Hin.
  destruct (recs_in_entries _ _ _ _ _ _ Hk' Hin) as [n Hn]. exact (Hw n Hn).
Qed.

(** ** Counting headers *)

Lemma prefix_app_nl (pat : string) : forall a b,
  contains_char nl pat = false ->
  String.prefix pat (a +++ String nl b) = String.prefix pat a.
Proof.
  induction pat as [|x pat IH]; intros a b H; [destruct a; reflexivity|].
  simpl in H. apply orb_false_iff in H as [Hx H].
  destruct a as [|y a]; simpl.
  - destruct (ascii_dec x nl) as [E|E]; [|reflexivity].
    subst. unfold nl in Hx. discriminate.
  - destruct (ascii_dec x y); [apply IH, H | reflexivity].
Qed.

Lemma count_app_nl (a b : string) :
  count_sub hdr (a +++ String nl b) = count_sub hdr a + count_sub hdr b.
Proof.
  induction a as [|y a IH].
  - reflexivity.
  - change (String y a +++ String nl b) with (String y (a +++ String nl b)).
    change (count_sub hdr (String y (a +++ String nl b)))
      with ((if String.prefix hdr (String y (a +++ String nl b)) then 1 else 0)
            + count_sub hdr (a +++ String nl b)).
    rewrite IH.
    change (String y (a +++ String nl b)) with (String y a +++ String nl b).
    rewrite prefix_app_nl by reflexivity. simpl. lia.
Qed.

Lemma count_hdr_app (h : string) : count_sub hdr (hdr +++ h) = S (count_sub hdr h).
Proof. destruct h; reflexivity. Qed.

Lemma count_render_rec (root : path) (x : path * string) :
  count_sub hdr (render_rec root x) =
  S (count_sub hdr (display (relative_path root (fst x))) + count_sub hdr (trim_end (snd x))).
Proof.
  unfold render_rec, header_line. fold hdr.
  rewrite !sapp_assoc, count_hdr_app.
  change (String nl EmptyString +++ ?t) with (String nl t).
  rewrite count_app_nl, count_app_nl. simpl. lia.
Qed.

Lemma count_render_all_eq (root : path) (rs : list (path * string)) :
  count_sub hdr (render_all root rs) =
  length rs + list_sum (map (fun x => count_sub hdr (display (relative_path root (fst x)))
                                      + count_sub hdr (trim_end (snd x))) rs).
Proof.
  unfold render_all. induction rs as [|x rs IH]; [reflexivity|].
  destruct rs as [|y rs].
  - change (String.concat (String nl EmptyString) (map (render_rec root) [x])) with (render_rec root x).
    rewrite count_render_rec. unfold list_sum; cbn [length map fold_right]. lia.
  - change (String.concat (String nl EmptyString) (map (render_rec root) (x :: y :: rs)))
      with (render_rec root x +++ String nl
            (String.concat (String nl EmptyString) (map (render_rec root) (y :: rs)))).
    rewrite count_app_nl, count_render_rec, IH. unfold list_sum; cbn [length map fold_right]. lia.
Qed.

(** ** Paths in headers *)

Lemma strip_prefix_app (root rel : path) : strip_prefix root (root ++ rel) = Some rel.
Proof.
  induction root as [|c root IH]; [reflexivity|]. simpl.
  destruct (component_eq_dec c c) as [_|n]; [exact IH|contradiction].
Qed.

Lemma strip_prefix_some (root : path) : forall p r, strip_prefix root p = Some r -> p = root ++ r.
Proof.
  induction root as [|c root IH]; intros p r H; simpl in H.
  - now injection H as ->.
  - destruct p as [|c' p]; [discriminate|].
    destruct (component_eq_dec c c') as [<-|]; [|discriminate].
    simpl. f_equal. now apply IH.
Qed.

(** C4: after a successful traversal the output is the records joined by
    one newline, each record being the header line, the trimmed text and
    one newline; the records are the files the loop reaches, in walk order;
    the output file, at the path the output resolves to, holds that text.
    The marker ["==> "] occurs once per record plus once for each of its
    occurrences in a header path or a trimmed text; so it occurs exactly
    once per record if and only if no header path and no trimmed text
    contains it. *)
Theorem traverse_output_records (fs : FS) (w : Walker) (args : RunArgs) (s : St) (fs' : FS) :
  traverse glob_valid glob_is_match globset_builds fs w args = (Ok tt, s, fs') ->
  out s = render_all (w_root w) (recs s) /\
  (exists m fs1,
      matcher_new glob_valid globset_builds fs (w_root w) (exclude_patterns w) = Ok m /\
      open_output fs (w_output w) = Some fs1 /\
      map fst (recs s) = map fst (filter (qualifies fs1 w) (walk_entries glob_is_match fs1 m w args)) /\
      fs' = store_output fs1 (w_output w) (out s)) /\
  (exists t, resolve fs (w_output w) = Some t /\
             fs_lookup fs' (w_output w) = Some (NFile (last t "") (out s))) /\
  count_sub hdr (out s) =
    length (recs s) + list_sum (map (fun x => count_sub hdr (display (relative_path (w_root w) (fst x)))
                                              + count_sub hdr (trim_end (snd x))) (recs s)) /\
  (count_sub hdr (out s) = length (recs s) <->
   forall x, In x (recs s) ->
      count_sub hdr (display (relative_path (w_root w) (fst x))) = 0 /\
      count_sub hdr (trim_end (snd x)) = 0).
Proof.
  intros Ht. destruct (traverse_ok_state fs w args s fs' Ht) as [Ho [_ [Hex _]]].
  assert (Hcount := count_render_all_eq (w_root w) (recs s)). rewrite <- Ho in Hcount.
  split; [exact Ho|]. split; [exact Hex|]. split; [|split; [exact Hcount|]].
  - destruct Hex as [m [fs1 [_ [Hop [_ ->]]]]].
    destruct (open_store fs fs1 (w_output w) (out s) Hop) as [t [n2 [Er [_ [Es Hl]]]]].
    exists t. split; [exact Er|]. rewrite Es. exact Hl.
  - rewrite Hcount. split.
    + intros H x Hx.
      assert (H0 : list_sum (map (fun x => count_sub hdr (display (relative_path (w_root w) (fst x)))
                                           + count_sub hdr (trim_end (snd x))) (recs s)) = 0) by lia.
      rewrite list_sum_zero in H0. specialize (H0 x Hx). simpl in H0. lia.
    + intros H.
      assert (H0 : list_sum (map (fun x => count_sub hdr (display (relative_path (w_root w) (fst x)))
                                           + count_sub hdr (trim_end (snd x))) (recs s)) = 0).
      { apply list_sum_zero. intros x Hx. destruct (H x Hx) as [H1 H2]. lia. }
      lia.
Qed.

(** C5: a header strips the root's components when the file's path, as the
    walk yields it, begins with them; otherwise it shows the path as yielded;
    and for an absolute root the path shown never begins with the root. *)
Theorem header_strips_root (root rel p : path) :
  header_line root (root ++ rel) = "==> " +++ display rel +++ String nl EmptyString /\
  (strip_prefix root p = None ->
   header_line root p = "==> " +++ display p +++ String nl EmptyString) /\
  (hd_error root = Some RootDir -> ~ In RootDir (tl p) ->
   strip_prefix root (relative_path root p) = None).
Proof.
  split; [|split].
  - unfold header_line, relative_path. now rewrite strip_prefix_app.
  - intros H. unfold header_line, relative_path. now rewrite H.
  - intros Hh Hn. unfold relative_path.
    destruct (strip_prefix root p) as [r|] eqn:E; [|exact E].
    apply strip_prefix_some in E. destruct root as [|c root']; [discriminate|].
    simpl in Hh. injection Hh as ->. subst p. simpl in Hn.
    destruct r as [|c r]; [reflexivity|].
    destruct c; [|reflexivity..].
    exfalso. apply Hn, in_or_app. right. left. reflexivity.
Qed.

(** C6: when a file the loop reaches is not valid UTF-8 (and is not the
    output file) and the files before it decode (the output file always
    does: it holds the UTF-8 text written so far), the traversal fails with
    a read error for that file; the output then holds the complete records
    of the earlier files followed by the failing file's separator and header
    line, and the output file, at the path the output resolves to, holds
    that text. *)
Theorem traverse_undecodable_fails (fs : FS) (w : Walker) (args : RunArgs)
  (m : ExcludeMatcher) (fs1 : FS) (pre : list (path * node)) (q : path * node)
  (post : list (path * node)) :
  matcher_new glob_valid globset_builds fs (w_root w) (exclude_patterns w) = Ok m ->
  open_output fs (w_output w) = Some fs1 ->
  filter (qualifies fs1 w) (walk_entries glob_is_match fs1 m w args) = pre ++ q :: post ->
  (forall x, In x pre -> decodes fs1 w (fst x) = true) ->
  undecodable fs1 w (fst q) = true ->
  let '(r, s, fs') := traverse glob_valid glob_is_match globset_builds fs w args in
  r = Err (ReadFailed (fst q)) /\
  map fst (recs s) = map fst pre /\
  out s = render_all (w_root w) (recs s) +++ sep_before (recs s) +++ header_line (w_root w) (fst q) /\
  fs' = store_output fs1 (w_output w) (out s) /\
  (exists t, resolve fs (w_output w) = Some t /\
             fs_lookup fs' (w_output w) = Some (NFile (last t "") (out s))).
Proof.
  intros Hm Ho Hf Hpre Hq.
  pose proof (traverse_fs fs w args m fs1 Hm Ho) as Hfs.
  pose proof (traverse_spec fs w args m fs1 Hm Ho) as Hs.
  rewrite <- walk_its_entries in Hf.
  pose proof (traverse_loop_fail fs1 w args (walk_its glob_is_match fs1 m w args) _
                pre q post (wf_state_init (w_root w) (ignore_msgs fs (w_root w))) Hf Hpre Hq) as Hl.
  pose proof (traverse_loop_run fs1 w args (walk_its glob_is_match fs1 m w args) _
                (wf_state_init (w_root w) (ignore_msgs fs (w_root w)))) as Hr.
  destruct (traverse glob_valid glob_is_match globset_builds fs w args) as [[r s] fs'].
  simpl in Hfs.
  destruct (traverse_loop fs1 w args (walk_its glob_is_match fs1 m w args) _) as [r0 s0].
  destruct Hs as [-> [Ho' [Hr' _]]]. destruct Hl as [-> Hl2].
  destruct Hr as [_ [p0 [Ep Hout]]]. injection Ep as <-.
  split; [reflexivity|]. rewrite Hr', Ho'. split; [exact Hl2|]. split; [exact Hout|].
  assert (Hfs' : fs' = store_output fs1 (w_output w) (out s0)) by (rewrite Hfs, Ho'; reflexivity).
  split; [exact Hfs'|].
  destruct (open_store fs fs1 (w_output w) (out s0) Ho) as [t [n2 [Er [_ [Es Hlk]]]]].
  exists t. split; [exact Er|]. rewrite Hfs', Es. exact Hlk.
Qed.

(** C9: [traverse] reports success only ([Ok ()]); the count of records it
    wrote is kept in its counter, equal to the number of records, and is
    printed as the last message ("Collected N files total!") in verbose
    mode. *)
Theorem traverse_counts_records (fs : FS) (w : Walker) (args : RunArgs) (s : St) (fs' : FS) :
  traverse glob_valid glob_is_match globset_builds fs w args = (Ok tt, s, fs') ->
  file_count s = length (recs s) /\
  (verbose args = true -> exists pr, log s = pr ++ [EvCollected (length (recs s))]).
Proof.
  intros Ht. destruct (traverse_ok_state fs w args s fs' Ht) as [_ [Hc [_ Hl]]].
  split; [exact Hc | exact Hl].
Qed.

End Proofs.

(* ------------------------------------------------------------------ *)
(** ** Concrete runs *)

(** C1: with every default, [execute] turns the input ["."] into the absolute
    working directory while the output stays ["./treeclip_temp.txt"]; the
    walk then yields the output file under its absolute name, which differs
    from the output path component by component although both name the same
    file, so the run reads its own in-progress output into a record. *)
Theorem default_run_reads_own_output :
  fst (fst (run fs_plain args_default)) = Ok tt /\
  In (proj_root ++ [Normal "treeclip_temp.txt"]) (map fst (recs (snd (fst (run fs_plain args_default))))) /\
  path_eqb (proj_root ++ [Normal "treeclip_temp.txt"]) default_output = false /\
  resolve fs_plain (proj_root ++ [Normal "treeclip_temp.txt"]) = Some ["proj"; "treeclip_temp.txt"] /\
  resolve fs_plain default_output = Some ["proj"; "treeclip_temp.txt"] /\
  out (snd (fst (run fs_plain args_default))) =
  "==> a.txt" +++ nls +++ "alpha" +++ nls +++ nls +++
  "==> treeclip_temp.txt" +++ nls +++
  "==> a.txt" +++ nls +++ "alpha" +++ nls +++ nls +++ "==> treeclip_temp.txt" +++ nls.
Proof. vm_compute. repeat split; auto. Qed.

(** C2: on the project tree with the command-line pattern ["!sub/"], the
    rules are the ignore file's then the command line's; [sub] is excluded
    by the ignore file and re-included by the later negated pattern;
    [sub/c.log] is excluded by the ignore file's [c.log]; [a.txt] matches no
    rule and is kept. *)
Lemma exclude_last_match_wins_witness :
  gi_globs (m_proj ["!sub/"]) =
    ignore_rules lit_valid fs_proj proj_root ++ rules_of lit_valid ["!sub/"] /\
  is_excluded lit_is_match fs_proj (m_proj ["!sub/"]) (proj_root ++ [Normal "sub"]) = false /\
  is_excluded lit_is_match fs_proj (m_proj ["!sub/"]) (proj_root ++ [Normal "sub"; Normal "c.log"]) = true /\
  is_excluded lit_is_match fs_proj (m_proj ["!sub/"]) (proj_root ++ [Normal "a.txt"]) = false.
Proof.
  destruct (exclude_last_match_wins lit_valid lit_is_match lit_builds fs_proj proj_root ["!sub/"]
              (m_proj ["!sub/"]) ltac:(vm_compute; reflexivity)) as [H1 [H2 H3]].
  split; [exact H1|]. split; [|split].
  - apply (H2 _ [mkGlob "c.log" "**/c.log" false false; mkGlob "sub/" "**/sub" false true]
              (mkGlob "!sub/" "**/sub" true true) []);
      [vm_compute; reflexivity | vm_compute; reflexivity | intros g' Hg; simpl in Hg; contradiction].
  - apply (H2 _ [] (mkGlob "c.log" "**/c.log" false false)
              [mkGlob "sub/" "**/sub" false true; mkGlob "!sub/" "**/sub" true true]);
      [vm_compute; reflexivity | vm_compute; reflexivity |].
    intros g' [<-|[<-|[]]]; vm_compute; reflexivity.
  - apply H3. intros g Hg. vm_compute in Hg.
    destruct Hg as [<-|[<-|[<-|[]]]]; vm_compute; reflexivity.
Defined.

(** C3 counterexample: a directory whose name is a dot followed by a byte
    that is not UTF-8 is not pruned although hidden entries are skipped and
    its name begins with a dot; the file below it is read into the output. *)
Lemma non_utf8_dot_dir_not_pruned :
  skip_hidden (mkRunArgs [CurDir] (Some tmp_out) None [] false false false false false true false) = true /\
  starts_with "." dot_ff = true /\
  In (proj_root ++ [Normal dot_ff; Normal "x.txt"])
     (map fst (recs (snd (fst (run fs_dot
        (mkRunArgs [CurDir] (Some tmp_out) None [] false false false false false true false)))))).
Proof. vm_compute. auto. Qed.

(** C3: the ignore file of the project tree excludes [sub]; nothing at or
    below it is walked or read. *)
Lemma traverse_prunes_excluded_subtrees_witness :
  (forall n, ~ In (proj_root ++ [Normal "sub"] ++ [Normal "b.txt"], n)
                 (walk_entries lit_is_match fs1_proj (m_proj []) (w_proj []) (args_proj []))) /\
  (forall c, ~ In (proj_root ++ [Normal "sub"] ++ [Normal "b.txt"], c)
                 (recs (snd (fst (trav_proj []))))).
Proof.
  apply (traverse_prunes_excluded_subtrees lit_valid lit_is_match lit_builds fs_proj (w_proj [])
           (args_proj []) (m_proj []) fs1_proj [Normal "sub"]);
    [vm_compute; reflexivity | vm_compute; reflexivity | left; vm_compute; reflexivity].
Defined.

(** C4 counterexample: a file whose text contains the header marker makes
    the output hold three markers for two records. *)
Lemma marker_in_content_miscounts :
  fst (fst (traverse lit_valid lit_is_match lit_builds fs_marker (mkWalker proj_root proj_root tmp_out [])
             (mkRunArgs [CurDir] (Some tmp_out) None [] false false false false false true false))) = Ok tt /\
  length (recs (snd (fst (traverse lit_valid lit_is_match lit_builds fs_marker
             (mkWalker proj_root proj_root tmp_out [])
             (mkRunArgs [CurDir] (Some tmp_out) None [] false false false false false true false))))) = 2 /\
  count_sub hdr (out (snd (fst (traverse lit_valid lit_is_match lit_builds fs_marker
             (mkWalker proj_root proj_root tmp_out [])
             (mkRunArgs [CurDir] (Some tmp_out) None [] false false false false false true false))))) = 3.
Proof. vm_compute. auto. Qed.

(** C4: the project tree with ["!sub/"] gives two records, laid out as
    [render_all] and stored in [/tmp/out.txt], and two markers. *)
Lemma traverse_output_records_witness :
  out (snd (fst (trav_proj ["!sub/"]))) = render_all proj_root (recs (snd (fst (trav_proj ["!sub/"])))) /\
  fs_lookup (snd (trav_proj ["!sub/"])) tmp_out = Some (NFile "out.txt" (out (snd (fst (trav_proj ["!sub/"]))))) /\
  count_sub hdr (out (snd (fst (trav_proj ["!sub/"])))) = length (recs (snd (fst (trav_proj ["!sub/"])))).
Proof.
  destruct (traverse_output_records lit_valid lit_is_match lit_builds fs_proj (w_proj ["!sub/"])
              (args_proj ["!sub/"]) (snd (fst (trav_proj ["!sub/"]))) (snd (trav_proj ["!sub/"]))
              ltac:(vm_compute; reflexivity)) as [H1 [_ [[t [Ht H3]] [_ H5]]]].
  split; [exact H1|]. split.
  - vm_compute in Ht. injection Ht as <-. exact H3.
  - apply H5. intros x Hx. vm_compute in Hx.
    destruct Hx as [<-|[<-|[]]]; split; vm_compute; reflexivity.
Defined.

(** C5 counterexample: with the root [/w/src] and the input [src] from
    [/w], the file [/w/src/a.txt] is headed [src/a.txt], not [a.txt]. *)
Lemma relative_input_keeps_prefix :
  out (snd (fst (run fs_src args_src))) = "==> src/a.txt" +++ nls +++ "hi" +++ nls /\
  In [Normal "src"; Normal "a.txt"] (map fst (recs (snd (fst (run fs_src args_src))))) /\
  resolve fs_src [Normal "src"; Normal "a.txt"] = Some ["w"; "src"; "a.txt"] /\
  resolve fs_src (src_root ++ [Normal "a.txt"]) = Some ["w"; "src"; "a.txt"].
Proof. vm_compute. auto. Qed.

(** C5: [/w/src/a.txt] is headed [a.txt] under the root [/w/src];
    [src/a.txt] is not below it and is shown whole; and the shown path never
    begins with the root. *)
Lemma header_strips_root_witness :
  header_line src_root (src_root ++ [Normal "a.txt"]) = "==> a.txt" +++ nls /\
  header_line src_root [Normal "src"; Normal "a.txt"] = "==> src/a.txt" +++ nls /\
  strip_prefix src_root (relative_path src_root [Normal "src"; Normal "a.txt"]) = None.
Proof.
  destruct (header_strips_root src_root [Normal "a.txt"] [Normal "src"; Normal "a.txt"])
    as [H1 [H2 H3]].
  split; [exact H1|]. split.
  - apply H2. vm_compute. reflexivity.
  - apply H3; [vm_compute; reflexivity|]. simpl. intros [H|[]]; discriminate.
Defined.

(** C6: the second file of [tree_bin] is not UTF-8; the traversal fails on
    it after the first record and its header, which [/tmp/out.txt] holds. *)
Lemma traverse_undecodable_fails_witness :
  let '(r, s, fs') := traverse lit_valid lit_is_match lit_builds fs_bin w_bin args_bin in
  r = Err (ReadFailed (fst q_bin)) /\
  map fst (recs s) = map fst pre_bin /\
  out s = render_all proj_root (recs s) +++ sep_before (recs s) +++ header_line proj_root (fst q_bin) /\
  fs' = store_output fs1_bin tmp_out (out s) /\
  (exists t, resolve fs_bin tmp_out = Some t /\
             fs_lookup fs' tmp_out = Some (NFile (last t "") (out s))).
Proof.
  apply (traverse_undecodable_fails lit_valid lit_is_match lit_builds fs_bin w_bin args_bin m_bin fs1_bin
           pre_bin q_bin post_bin);
    [vm_compute; reflexivity | vm_compute; reflexivity | vm_compute; reflexivity
    | intros x [<-|[]]; vm_compute; reflexivity | vm_compute; reflexivity].
Defined.

(** C8 counterexample: the input [/nope] does not exist, and the working
    directory [/gone] has been removed; with the root omitted, [execute]
    calls [current_dir] before [process_dir] and fails with its error, not
    with [PathDoesNotExist]. *)
Lemma missing_input_cwd_removed :
  path_exists fs_gone (input_path args_nope) = false /\
  run fs_gone args_nope = (Err CurrentDirFailed, st0, fs_gone).
Proof. vm_compute. auto. Qed.

(** C8: the input [nope] does not exist in the project tree, whose working
    directory exists. *)
Lemma execute_missing_input_witness :
  execute lit_valid lit_is_match lit_builds env_desktop fs_proj
    (mkRunArgs [Normal "nope"] None None [] false false false false false true false) =
  (Err (PathDoesNotExist [Normal "nope"]), st0, fs_proj).
Proof.
  destruct (execute_missing_input lit_valid lit_is_match lit_builds env_desktop fs_proj
              (mkRunArgs [Normal "nope"] None None [] false false false false false true false)
              ltac:(vm_compute; reflexivity)) as [_ H].
  rewrite H. vm_compute. reflexivity.
Defined.

(** C9 counterexample: two successful traversals return the same value
    [Ok ()] for two and for one record, so no function of the returned value
    gives the number of records. *)
Lemma traverse_result_carries_no_count :
  ~ (exists f : result unit -> nat,
       forall fs w args s fs',
         traverse lit_valid lit_is_match lit_builds fs w args = (Ok tt, s, fs') ->
         f (Ok tt) = length (recs s)).
Proof.
  intros [f Hf].
  pose proof (Hf fs_proj (w_proj ["!sub/"]) (args_proj ["!sub/"])
                (snd (fst (trav_proj ["!sub/"]))) (snd (trav_proj ["!sub/"]))
                ltac:(vm_compute; reflexivity)) as H1.
  pose proof (Hf fs_proj (w_proj []) (args_proj [])
                (snd (fst (trav_proj []))) (snd (trav_proj []))
                ltac:(vm_compute; reflexivity)) as H2.
  rewrite H1 in H2. vm_compute in H2. discriminate.
Qed.

(** C9: the verbose run on the project tree counts its two records and
    reports the count last. *)
Lemma traverse_counts_records_witness :
  file_count (snd (fst (trav_proj ["!sub/"]))) = length (recs (snd (fst (trav_proj ["!sub/"])))) /\
  exists pr, log (snd (fst (trav_proj ["!sub/"]))) =
             pr ++ [EvCollected (length (recs (snd (fst (trav_proj ["!sub/"])))))].
Proof.
  destruct (traverse_counts_records lit_valid lit_is_match lit_builds fs_proj (w_proj ["!sub/"])
              (args_proj ["!sub/"]) (snd (fst (trav_proj ["!sub/"]))) (snd (trav_proj ["!sub/"]))
              ltac:(vm_compute; reflexivity)) as [H1 H2].
  split; [exact H1|]. apply H2. reflexivity.
Defined.

(** C7: a line of the ignore file that is not a valid glob ([[z-a]], a
    character class whose range is reversed) makes [GitignoreBuilder::add]
    return an error, which [add_ignore_file] drops: the line is left out and
    the matcher builds, while the same line given on the command line makes
    the build fail; a default run over that tree succeeds. *)
Theorem ignore_file_glob_error_dropped :
  snd (builder_add lit_valid fs_badglob (builder_new proj_root) (join proj_root ignore_file_name))
    = [GlobError "[z-a]"] /\
  matcher_new lit_valid lit_builds fs_badglob proj_root [] = Ok (mkGitignore "/proj" []) /\
  matcher_new lit_valid lit_builds fs_badglob proj_root ["[z-a]"] = Err (GlobError "[z-a]") /\
  lit_valid ("**/" +++ "[z-a]") = false /\
  fst (fst (run fs_badglob args_default)) = Ok tt.
Proof. vm_compute. auto. Qed.

(** C10: the directory [dot_ff] of [tree_dot] is not hidden, and only the
    matcher decides whether the walk keeps it. *)
Lemma is_hidden_non_utf8_witness :
  is_hidden (proj_root ++ [Normal dot_ff]) = false /\
  (forall fs m args,
      keep_entry lit_is_match fs m args (proj_root ++ [Normal dot_ff]) =
      negb (is_excluded lit_is_match fs m (proj_root ++ [Normal dot_ff]))).
Proof.
  apply (is_hidden_non_utf8 lit_is_match). vm_compute. reflexivity.
Defined.

(* ------------------------------------------------------------------ *)
(** ** Further properties *)

Section Extras.

Variable glob_valid : string -> bool.
Variable glob_is_match : string -> string -> bool.
Variable globset_builds : list string -> bool.

(** ** Numbers *)

Lemma uint_no_comma (u : Decimal.uint) :
  contains_char "," (DecimalString.NilEmpty.string_of_uint u) = false.
Proof. induction u; simpl; auto. Qed.

Lemma to_string_no_comma (n : Z) : contains_char "," (to_string n) = false.
Proof.
  unfold to_string. destruct (Z.to_int n) as [u|u]; simpl;
  destruct u; simpl; try reflexivity; apply uint_no_comma.
Qed.

Lemma to_string_nonempty (n : Z) : 1 <= String.length (to_string n).
Proof.
  unfold to_string. destruct (Z.to_int n) as [u|u]; simpl; [|lia].
  destruct u; simpl; lia.
Qed.

Lemma to_string_neg (n : Z) : (n < 0)%Z -> to_string n = String "-" (to_string (- n)).
Proof. destruct n; simpl; intros H; try lia. reflexivity. Qed.

Lemma split_on_cons (c x : ascii) (r : string) :
  x <> c -> exists g gs, split_on c (String x r) = String x g :: gs /\ split_on c r = g :: gs.
Proof.
  intros H. simpl. destruct (Ascii.eqb_spec x c) as [E|_]; [contradiction|].
  destruct (split_on c r) as [|g gs] eqn:E.
  - destruct r; simpl in E; [discriminate|]. destruct (Ascii.eqb a c); [discriminate|].
    destruct (split_on c r); discriminate.
  - eauto.
Qed.

Lemma split_on_hit (c : ascii) (r : string) : split_on c (String c r) = "" :: split_on c r.
Proof. simpl. now rewrite Ascii.eqb_refl. Qed.

Lemma mod3_succ (x : nat) : S x mod 3 = if x mod 3 =? 2 then 0 else S (x mod 3).
Proof.
  pose proof (Nat.div_mod_eq x 3). pose proof (Nat.mod_upper_bound x 3 ltac:(lia)).
  destruct (x mod 3 =? 2) eqn:E; [apply Nat.eqb_eq in E | apply Nat.eqb_neq in E].
  - symmetry. apply Nat.mod_unique with (q := S (x / 3)); lia.
  - symmetry. apply Nat.mod_unique with (q := x / 3); lia.
Qed.

(** Past index 0, the loop splits the rest [r] at commas into a first group
    of [|r| mod 3] characters and groups of three. *)
Lemma format_loop_groups (r : string) : forall len i,
  0 < i -> len - i = String.length r -> contains_char "," r = false ->
  exists g0 gs, split_on "," (format_number_loop len i r) = g0 :: gs /\
    String.length g0 = String.length r mod 3 /\
    Forall (fun g => String.length g = 3) gs /\
    String.concat "" (g0 :: gs) = r.
Proof.
  induction r as [|c r IH]; intros len i Hi Hl Hc.
  - exists "", []. simpl. repeat split; auto.
  - cbn [contains_char] in Hc. apply orb_false_iff in Hc as [Hc1 Hc2].
    assert (Hcc : c <> ","%char) by (intros ->; discriminate).
    simpl in Hl.
    destruct (IH len (S i) ltac:(lia) ltac:(lia) Hc2) as [g0 [gs [E1 [E2 [E3 E4]]]]].
    destruct (split_on_cons "," c (format_number_loop len (S i) r) Hcc) as [g [gs' [F1 F2]]].
    rewrite E1 in F2. injection F2 as <- <-.
    cbn [format_number_loop].
    replace (0 <? i) with true by (symmetry; apply Nat.ltb_lt; exact Hi). cbn [andb].
    rewrite Hl. cbn [String.length]. rewrite mod3_succ.
    destruct (String.length r mod 3 =? 2) eqn:Em; [apply Nat.eqb_eq in Em | apply Nat.eqb_neq in Em];
      cbn [Nat.eqb].
    + exists "", (String c g0 :: gs). rewrite split_on_hit, F1. split; [reflexivity|].
      split; [reflexivity|]. split.
      * constructor; [cbn [String.length]; now rewrite E2, Em | exact E3].
      * simpl in E4. destruct gs; simpl in *; rewrite <- E4; reflexivity.
    + exists (String c g0), gs. split; [exact F1|]. split; [cbn [String.length]; now rewrite E2|].
      split; [exact E3|].
      simpl in E4 |- *. destruct gs; simpl in *; rewrite <- E4; reflexivity.
Qed.

(** Past index 0 the loop depends only on how many characters are left. *)
Lemma format_loop_shift (r : string) : forall len i len' i',
  0 < i -> 0 < i' -> len - i = String.length r -> len' - i' = String.length r ->
  format_number_loop len i r = format_number_loop len' i' r.
Proof.
  induction r as [|c r IH]; intros len i len' i' Hi Hi' Hl Hl'; [reflexivity|].
  simpl in Hl, Hl'. cbn [format_number_loop].
  rewrite (IH len (S i) len' (S i')) by lia.
  replace (len - i) with (len' - i') by lia.
  replace (0 <? i) with true by (symmetry; apply Nat.ltb_lt; exact Hi).
  replace (0 <? i') with true by (symmetry; apply Nat.ltb_lt; exact Hi').
  reflexivity.
Qed.

Lemma format_number_loop_short (s : string) :
  String.length s <= 3 -> format_number_loop (String.length s) 0 s = s.
Proof.
  destruct s as [|a [|b [|c [|d s]]]]; simpl; intros H; try reflexivity. lia.
Qed.

(** The early return for short strings agrees with the loop. *)
Lemma format_number_loop_all (n : Z) :
  format_number n = format_number_loop (String.length (to_string n)) 0 (to_string n).
Proof.
  unfold format_number. destruct (String.length (to_string n) <=? 3) eqn:E; [|reflexivity].
  symmetry. apply format_number_loop_short. now apply Nat.leb_le.
Qed.

(** X1: split at its commas, [format_number n] is a first group of one to
    three characters followed by groups of exactly three, and the groups
    joined give back [n.to_string()]. *)
Theorem format_number_groups (n : Z) :
  let gs := split_on "," (format_number n) in
  1 <= String.length (hd "" gs) <= 3 /\
  Forall (fun g => String.length g = 3) (tl gs) /\
  String.concat "" gs = to_string n.
Proof.
  rewrite format_number_loop_all.
  pose proof (to_string_nonempty n) as Hne. pose proof (to_string_no_comma n) as Hnc.
  destruct (to_string n) as [|c r] eqn:Es; [simpl in Hne; lia|].
  cbn [contains_char] in Hnc. apply orb_false_iff in Hnc as [Hc1 Hc2].
  assert (Hcc : c <> ","%char) by (intros ->; discriminate).
  cbn [format_number_loop]. cbn [Nat.ltb Nat.leb andb].
  destruct (format_loop_groups r (String.length (String c r)) 1 ltac:(lia) ltac:(simpl; lia) Hc2)
    as [g0 [gs [E1 [E2 [E3 E4]]]]].
  destruct (split_on_cons "," c (format_number_loop (String.length (String c r)) 1 r) Hcc)
    as [g [gs' [F1 F2]]].
  rewrite E1 in F2. injection F2 as <- <-.
  rewrite F1. cbn [hd tl]. split; [|split; [exact E3|]].
  - cbn [String.length]. rewrite E2. pose proof (Nat.mod_upper_bound (String.length r) 3). lia.
  - simpl in E4 |- *. destruct gs; simpl in *; rewrite <- E4; reflexivity.
Qed.

(** X2: for a negative number whose digit count is a multiple of three, the
    minus sign counts as a digit position: the result is ["-,"] followed by
    the formatted absolute value, e.g. [-100] gives ["-,100"]. *)
Theorem format_number_negative_lead (n : Z) :
  (n < 0)%Z -> String.length (to_string (- n)) mod 3 = 0 ->
  format_number n = String "-" (String "," (format_number (- n))).
Proof.
  intros Hn Hm. rewrite !format_number_loop_all. rewrite (to_string_neg n Hn).
  pose proof (to_string_nonempty (- n)) as Hne.
  destruct (to_string (- n)) as [|c t] eqn:Et; [simpl in Hne; lia|].
  cbn [String.length] in *. cbn [format_number_loop]. cbn [Nat.ltb Nat.leb andb].
  replace (S (S (String.length t)) - 1) with (S (String.length t)) by lia.
  rewrite Hm. cbn [Nat.eqb andb].
  f_equal. f_equal. f_equal. apply format_loop_shift; lia.
Qed.

(** X3: the size message [show_stats] picks with its chain of [<] tests is
    the one [StatsBox::get_size_message] picks with its range match, for
    every byte count. *)
Theorem size_message_agrees (bytes : N) :
  show_stats_message bytes = get_size_message bytes.
Proof.
  unfold show_stats_message, get_size_message.
  destruct (bytes <? 1024)%N eqn:E1; [apply N.ltb_lt in E1 | apply N.ltb_ge in E1];
  destruct (bytes <? 1024 * 100)%N eqn:E2; try apply N.ltb_lt in E2; try apply N.ltb_ge in E2;
  destruct (bytes <? 1024 * 1024)%N eqn:E3; try apply N.ltb_lt in E3; try apply N.ltb_ge in E3;
  destruct (0 <=? bytes)%N eqn:F0; try apply N.leb_le in F0; try apply N.leb_gt in F0;
  destruct (bytes <=? 1023)%N eqn:F1; try apply N.leb_le in F1; try apply N.leb_gt in F1;
  destruct (1024 <=? bytes)%N eqn:F2; try apply N.leb_le in F2; try apply N.leb_gt in F2;
  destruct (bytes <=? 102399)%N eqn:F3; try apply N.leb_le in F3; try apply N.leb_gt in F3;
  destruct (102400 <=? bytes)%N eqn:F4; try apply N.leb_le in F4; try apply N.leb_gt in F4;
  destruct (bytes <=? 1048575)%N eqn:F5; try apply N.leb_le in F5; try apply N.leb_gt in F5;
  cbn [andb]; try reflexivity; lia.
Qed.

(** ** Progress messages *)

Lemma progress_counter_due (e : list string) (c k : nat) :
  0 < k -> c mod k = 0 -> e <> [] ->
  progress_counter e c k =
  Returns (Some (nth ((c / k) mod List.length e) e "" +++ " Collected " +++ to_string (Z.of_nat c)
                 +++ " files so far...")).
Proof.
  intros Hk Hc He. unfold progress_counter.
  replace (k =? 0) with false by (symmetry; apply Nat.eqb_neq; lia).
  rewrite Hc. cbn [Nat.eqb].
  destruct (List.length e =? 0) eqn:El.
  - apply Nat.eqb_eq, length_zero_iff_nil in El. contradiction.
  - apply Nat.eqb_neq in El.
    destruct (nth_error e ((c / k) mod List.length e)) as [x|] eqn:Ex.
    + rewrite (nth_error_nth e _ "" Ex). reflexivity.
    + apply nth_error_None in Ex. pose proof (Nat.mod_upper_bound (c / k) (List.length e) El). lia.
Qed.


(** X5: at every count where the walker asks for a progress message (verbose,
    not fast, count a multiple of five) [progress_counter tree_emojis count 5]
    returns one, with emoji [(count / 5) mod 6] of the tree set; the walker's
    [if let Some] always prints. *)
Theorem walker_progress_message (args : RunArgs) (n : nat) :
  progress_due args n = true ->
  progress_counter tree_emojis n 5 =
  Returns (Some (nth ((n / 5) mod 6) tree_emojis "" +++ " Collected " +++ to_string (Z.of_nat n)
                 +++ " files so far...")).
Proof.
  unfold progress_due. intros H. apply andb_prop in H as [_ H]. apply Nat.eqb_eq in H.
  apply progress_counter_due; [lia | exact H | discriminate].
Qed.

Lemma mod5_succ (x : nat) :
  S x mod 5 = (if x mod 5 =? 4 then 0 else S (x mod 5)) /\
  S x / 5 = (if x mod 5 =? 4 then S (x / 5) else x / 5).
Proof.
  pose proof (Nat.div_mod_eq x 5). pose proof (Nat.mod_upper_bound x 5 ltac:(lia)).
  destruct (x mod 5 =? 4) eqn:E; [apply Nat.eqb_eq in E | apply Nat.eqb_neq in E]; split.
  - symmetry. apply Nat.mod_unique with (q := S (x / 5)); lia.
  - symmetry. apply Nat.div_unique with (r := 0); lia.
  - symmetry. apply Nat.mod_unique with (q := x / 5); lia.
  - symmetry. apply Nat.div_unique with (r := S (x mod 5)); lia.
Qed.

Lemma filter_mult5 (n : nat) :
  filter (fun j => j mod 5 =? 0) (seq 1 n) = map (fun k => 5 * k) (seq 1 (n / 5)).
Proof.
  induction n as [|n IH]; [reflexivity|].
  rewrite seq_S, filter_app, IH. cbn [filter].
  replace (1 + n) with (S n) by lia.
  destruct (mod5_succ n) as [Hm Hd]. rewrite Hm, Hd.
  destruct (n mod 5 =? 4) eqn:E; cbn [Nat.eqb].
  - rewrite seq_S, map_app. cbn [map]. do 2 f_equal.
    apply Nat.eqb_eq in E. pose proof (Nat.div_mod_eq n 5). lia.
  - now rewrite app_nil_r.
Qed.

Lemma filter_progress_due (args : RunArgs) (n : nat) :
  filter (progress_due args) (seq 1 n) =
  if verbose args && negb (fast_mode args) then map (fun k => 5 * k) (seq 1 (n / 5)) else [].
Proof.
  unfold progress_due.
  destruct (verbose args && negb (fast_mode args)); cbn [andb].
  - apply filter_mult5.
  - induction (seq 1 n); [reflexivity | exact IHl].
Qed.

Lemma split_on_length (c : ascii) (s : string) :
  List.length (split_on c s) = S (count_char c s).
Proof.
  induction s as [|x r IH]; [reflexivity|]. simpl.
  destruct (Ascii.eqb x c); simpl; [now rewrite IH|].
  destruct (split_on c r) as [|g gs]; simpl in *; [discriminate|]. exact IH.
Qed.

Lemma count_char_app (c : ascii) (a b : string) :
  count_char c (a +++ b) = count_char c a + count_char c b.
Proof. induction a as [|x a IH]; simpl; [reflexivity|]. rewrite IH. lia. Qed.

Lemma count_nl_render_rec (root : path) (x : path * string) :
  count_char nl (render_rec root x) =
  count_char nl (display (relative_path root (fst x))) + count_char nl (trim_end (snd x)) + 2.
Proof.
  unfold render_rec, header_line. rewrite !count_char_app. simpl. lia.
Qed.

Lemma count_nl_render_all (root : path) (x : path * string) (rs : list (path * string)) :
  S (count_char nl (render_all root (x :: rs))) =
  3 * List.length (x :: rs) +
  list_sum (map (fun y => count_char nl (display (relative_path root (fst y)))
                          + count_char nl (trim_end (snd y))) (x :: rs)).
Proof.
  revert x. induction rs as [|y rs IH]; intros x.
  - change (render_all root [x]) with (render_rec root x).
    rewrite count_nl_render_rec. simpl. lia.
  - change (render_all root (x :: y :: rs))
      with (render_rec root x +++ String nl (render_all root (y :: rs))).
    rewrite count_char_app, count_nl_render_rec.
    change (count_char nl (String nl ?t)) with (1 + count_char nl t).
    specialize (IH y). cbn [map list_sum fold_right List.length] in IH |- *. lia.
Qed.

(** X9: the line count [show_stats] reports for the text a successful
    traversal writes is 1 when no file was read, and otherwise three per
    record plus the newlines inside the header paths and the trimmed
    contents: [split("\n")] also counts the empty piece after the final
    newline. *)
Theorem traverse_stats_lines (fs : FS) (w : Walker) (args : RunArgs) (s : St) (fs' : FS) :
  traverse glob_valid glob_is_match globset_builds fs w args = (Ok tt, s, fs') ->
  show_stats_lines (out s) =
  match recs s with
  | [] => 1
  | _ => 3 * List.length (recs s) +
         list_sum (map (fun x => count_char nl (display (relative_path (w_root w) (fst x)))
                                 + count_char nl (trim_end (snd x))) (recs s))
  end.
Proof.
  intros Ht. destruct (traverse_ok_state glob_valid glob_is_match globset_builds fs w args s fs' Ht) as [Ho _].
  unfold show_stats_lines. rewrite split_on_length, Ho.
  destruct (recs s) as [|x rs]; [reflexivity|]. apply count_nl_render_all.
Qed.

(** ** Errors of the matcher *)


Lemma utf8_ok_ascii (s : string) :
  (forall b, In b (bytes s) -> b < 128) -> utf8_ok (bytes s) = true.
Proof.
  induction s as [|c s IH]; intros H; [reflexivity|].
  cbn [bytes utf8_ok].
  assert (Hc : byte_of c < 128) by (apply H; left; reflexivity).
  apply Nat.ltb_lt in Hc. rewrite Hc.
  apply IH. intros b Hb. apply H. right. exact Hb.
Qed.

Lemma dots_bytes (p : path) :
  Forall dot_comp p ->
  forall b, In b (bytes (String.concat "/" (map comp_str p))) -> b < 128.
Proof.
  induction p as [|c p IH]; intros Hp b Hb; [destruct Hb|].
  inversion Hp as [|? ? Hc Hr]; subst.
  assert (Hs : forall b', In b' (bytes (comp_str c)) -> b' < 128)
    by (destruct Hc as [-> | ->]; simpl; intros b' Hb';
        repeat (destruct Hb' as [<-|Hb']; [apply Nat.ltb_lt; reflexivity|]); destruct Hb').
  destruct p as [|c' p].
  - exact (Hs b Hb).
  - change (String.concat "/" (map comp_str (c :: c' :: p)))
      with (comp_str c +++ "/" +++ String.concat "/" (map comp_str (c' :: p))) in Hb.
    rewrite !bytes_app in Hb. apply in_app_or in Hb as [Hb|Hb]; [exact (Hs b Hb)|].
    apply in_app_or in Hb as [Hb|Hb].
    + simpl in Hb. destruct Hb as [<-|[]]. apply Nat.ltb_lt; reflexivity.
    + exact (IH Hr b Hb).
Qed.

Lemma dots_file_name (p : path) :
  p <> [] -> Forall dot_comp p -> file_name p = None.
Proof.
  unfold file_name. induction p as [|c p IH]; intros Hn Hp; [congruence|].
  inversion Hp as [|? ? Hc Hr]; subst.
  destruct p as [|c' p].
  - destruct Hc as [-> | ->]; reflexivity.
  - change (map Some (c :: c' :: p)) with (Some c :: Some c' :: map Some p).
    change (last (Some c :: Some c' :: map Some p) None) with (last (Some c' :: map Some p) None).
    apply IH; [discriminate | exact Hr].
Qed.

Lemma dots_hidden (p : path) :
  p <> [] -> Forall dot_comp p -> is_hidden p = true.
Proof.
  intros Hn Hp. unfold is_hidden, entry_file_name, to_str.
  rewrite (dots_file_name p Hn Hp).
  destruct p as [|c p]; [congruence|].
  inversion Hp as [|? ? Hc Hr]; subst.
  assert (Hd : os_str (c :: p) = String.concat "/" (map comp_str (c :: p)))
    by (destruct Hc as [-> | ->]; reflexivity).
  rewrite Hd, (utf8_ok_ascii _ (dots_bytes _ Hp)).
  destruct Hc as [-> | ->]; destruct p; reflexivity.
Qed.

Lemma dots_walk_empty (fs1 : FS) (m : ExcludeMatcher) (w : Walker) (args : RunArgs) :
  skip_hidden args = true -> w_input w <> [] -> Forall dot_comp (w_input w) ->
  walk_entries glob_is_match fs1 m w args = [].
Proof.
  intros Hs Hn Hp. unfold walk_entries, walk.
  destruct (fs_lookup fs1 (w_input w)) as [n|]; [|reflexivity].
  destruct n; simpl; unfold keep_entry;
    rewrite Hs, (dots_hidden _ Hn Hp), andb_false_r; reflexivity.
Qed.

(** X11: with [skip_hidden], an input path made only of [.] and [..]
    components is itself hidden: [walkdir] names the root entry by its whole
    path, which starts with a dot, so [filter_entry] drops the root and the
    walk yields nothing. [traverse] then succeeds with no record and an
    empty output. *)
Theorem dot_input_hidden (fs : FS) (w : Walker) (args : RunArgs) (s : St) (fs' : FS) :
  skip_hidden args = true -> w_input w <> [] -> Forall dot_comp (w_input w) ->
  traverse glob_valid glob_is_match globset_builds fs w args = (Ok tt, s, fs') ->
  recs s = [] /\ file_count s = 0 /\ out s = "".
Proof.
  intros Hs Hn Hp Ht.
  destruct (traverse_ok_state glob_valid glob_is_match globset_builds fs w args s fs' Ht)
    as [Hout [Hcnt [[m [fs1 [_ [_ [Hrec _]]]]] _]]].
  rewrite (dots_walk_empty fs1 m w args Hs Hn Hp) in Hrec. simpl in Hrec.
  destruct (recs s) eqn:Er; [|discriminate].
  split; [reflexivity|]. rewrite Hout, Hcnt, ?Er. split; reflexivity.
Qed.
(** ** The statistics box *)

(** X12: [render_stats_box] panics on the subtraction [total_width -
    title_width] (or on the final [- 1]) exactly when the title is at least
    51 columns wide; otherwise the title line has [p] spaces before the title
    and [q] after it, with [p + width + q = 50] and [p] equal to [q] or one
    more: the title is centred, leaning left. *)
Theorem render_stats_box_title (width : string -> nat) (title : string) (rows : list RowKind) :
  (render_stats_box width title rows = Panics <-> 51 <= width title) /\
  (width title < 51 ->
   exists p q,
     render_stats_box width title rows =
       Returns ("┌──────────────────────────────────────────────────┐" +++ nls +++
                "│" +++ spaces p +++ title +++ spaces q +++ "│" +++ nls +++
                "├──────────────────────────────────────────────────┤" +++ nls +++
                String.concat "" (map (stats_row width) rows) +++
                "└──────────────────────────────────────────────────┘") /\
     p + width title + q = 50 /\ q <= p <= q + 1).
Proof.
  cbv [render_stats_box usub obind].
  destruct (Nat.lt_ge_cases (width title) 51) as [Hw|Hw].
  - set (d := 51 - width title).
    pose proof (Nat.div_mod_eq d 2) as Hd. pose proof (Nat.mod_upper_bound d 2) as Hm.
    destruct (51 <? width title) eqn:E1; [apply Nat.ltb_lt in E1; lia|].
    destruct (51 <? d / 2) eqn:E2; [apply Nat.ltb_lt in E2; lia|].
    destruct (51 - d / 2 <? width title) eqn:E3; [apply Nat.ltb_lt in E3; lia|].
    destruct (51 - d / 2 - width title <? 1) eqn:E4; [apply Nat.ltb_lt in E4; lia|].
    cbv beta iota. split.
    + split; [discriminate | lia].
    + intros _. exists (d / 2), (51 - d / 2 - width title - 1).
      split; [reflexivity | lia].
  - split; [|lia]. split; [intros _; exact Hw|intros _].
    destruct (51 <? width title) eqn:E1; [reflexivity|]. cbv beta iota.
    assert (width title = 51) as -> by (apply Nat.ltb_ge in E1; lia).
    reflexivity.
Qed.
(** ** Aligned text and the message box *)

Lemma usub_ge (a b : nat) : b <= a -> usub a b = Returns (a - b).
Proof.
  intros H. unfold usub. destruct (a <? b) eqn:E; [apply Nat.ltb_lt in E; lia | reflexivity].
Qed.

Lemma usub_lt (a b : nat) : a < b -> usub a b = Panics.
Proof. intros H. unfold usub. apply Nat.ltb_lt in H. now rewrite H. Qed.

Lemma concat_empty_cons (x : string) (xs : list string) :
  String.concat "" (x :: xs) = x +++ String.concat "" xs.
Proof. destruct xs; [cbn [String.concat]; now rewrite sapp_nil_r | reflexivity]. Qed.

(** X13: [align_text] panics exactly when the text is wider than the field;
    otherwise it returns the text between [l] blanks and [r] blanks with
    [l + width + r] equal to the field width, [l = 0] when left aligned, and
    when centred [l <= r <= l + 1]: an odd blank goes to the right. *)
Theorem align_text_shape (width : string -> nat) (s : string) (n : nat) (al : Align) :
  (align_text width s n al = Panics <-> n < width s) /\
  (width s <= n ->
   exists l r, align_text width s n al = Returns (spaces l +++ s +++ spaces r) /\
     l + width s + r = n /\ (al = Left -> l = 0) /\ (al = Center -> l <= r <= l + 1)).
Proof.
  cbv [align_text].
  destruct (Nat.lt_ge_cases n (width s)) as [Hn|Hn].
  - rewrite (usub_lt _ _ Hn). destruct al; cbn [obind];
      (split; [split; [intros _; exact Hn | intros _; reflexivity] | lia]).
  - rewrite (usub_ge _ _ Hn). pose proof (Nat.div_mod_eq (n - width s) 2) as Hd.
    pose proof (Nat.mod_upper_bound (n - width s) 2) as Hm.
    destruct al; cbn [obind].
    + split; [split; [discriminate | lia]|]. intros _.
      exists 0, (n - width s). split; [reflexivity|]. repeat split; try lia; discriminate.
    + rewrite (usub_ge (n - width s) ((n - width s) / 2)) by lia. cbn [obind].
      split; [split; [discriminate | lia]|]. intros _.
      exists ((n - width s) / 2), (n - width s - (n - width s) / 2).
      split; [reflexivity|]. repeat split; try lia; discriminate.
Qed.

Section MessageBox.

Variable width : string -> nat.

(** [UnicodeWidthStr::width] of blanks followed by a text. *)
Hypothesis width_pad : forall n s, width (spaces n +++ s) = n + width s.

Lemma fold_max_ge (rows : list RowKind) (acc : nat) : acc <= fold_left (max_step width) rows acc.
Proof.
  revert acc. induction rows as [|r rows IH]; intros acc; [simpl; lia|].
  cbn [fold_left]. etransitivity; [|apply IH]. unfold max_step. destruct r; lia.
Qed.

Lemma fold_max_in (rows : list RowKind) (acc : nat) (t : string) :
  In t (message_texts rows) -> width t <= fold_left (max_step width) rows acc.
Proof.
  revert acc. induction rows as [|r rows IH]; intros acc Hin; [destruct Hin|].
  cbn [fold_left]. destruct r as [lab val|line]; cbn in Hin.
  - now apply IH.
  - destruct Hin as [<-|Hin].
    + etransitivity; [|apply fold_max_ge]. unfold max_step. lia.
    + now apply IH.
Qed.

Lemma max_width_bound (title : string) (rows : list RowKind) (t : string) :
  t = title \/ In t (message_texts rows) -> width t <= max_width width title rows.
Proof.
  unfold max_width. intros [->|Hin].
  - apply (fold_max_ge rows (width title)).
  - exact (fold_max_in rows (width title) t Hin).
Qed.

Lemma align_padded (pad inner : nat) (al : Align) (t : string) :
  pad + width t <= inner ->
  align_text width (spaces pad +++ t) inner al =
    Returns (spaces (lpad width pad inner al t) +++ spaces pad +++ t +++ spaces (rpad width pad inner al t)).
Proof.
  intros H. unfold rpad, lpad. cbv [align_text]. rewrite width_pad.
  rewrite (usub_ge _ _ H). destruct al; cbn [obind].
  - rewrite Nat.sub_0_r, sapp_assoc. reflexivity.
  - pose proof (Nat.div_mod_eq (inner - (pad + width t)) 2).
    rewrite (usub_ge (inner - (pad + width t)) ((inner - (pad + width t)) / 2)) by lia.
    cbn [obind]. rewrite sapp_assoc. reflexivity.
Qed.

Lemma message_lines_form (b : BorderChars) (pad inner : nat) (al : Align) (rows : list RowKind) :
  (forall t, In t (message_texts rows) -> pad + width t <= inner) ->
  message_lines width b pad inner al rows =
    Returns (String.concat ""
      (map (fun line => v b +++ spaces (lpad width pad inner al line) +++ spaces pad +++ line +++
                        spaces (rpad width pad inner al line) +++ v b +++ nls)
           (message_texts rows))).
Proof.
  induction rows as [|r rows IH]; intros H; [reflexivity|].
  destruct r as [lab val|line]; cbn [message_lines].
  - apply IH. exact H.
  - rewrite align_padded by (apply H; left; reflexivity). cbn [obind].
    rewrite IH by (intros t Ht; apply H; right; exact Ht). cbn [obind].
    change (message_texts (Message line :: rows)) with (line :: message_texts rows).
    cbn [map]. rewrite concat_empty_cons, !sapp_assoc. reflexivity.
Qed.

Lemma message_box_form (title : string) (rows : list RowKind) (theme : BoxTheme) :
  (N.of_nat (max_width width title rows + padding theme * 2) <= usize_max)%N ->
  let pad := padding theme in
  let inner := max_width width title rows + pad * 2 in
  let b := border_chars (border theme) in
  render_message_box width title rows theme =
    Returns (top_left b +++ str_repeat (h b) inner +++ top_right b +++ nls +++
             v b +++ spaces (lpad width pad inner (align theme) title) +++ spaces pad +++ title +++
               spaces (rpad width pad inner (align theme) title) +++ v b +++ nls +++
             String.concat ""
               (map (fun line => v b +++ spaces (lpad width pad inner (align theme) line) +++
                                 spaces pad +++ line +++
                                 spaces (rpad width pad inner (align theme) line) +++ v b +++ nls)
                    (message_texts rows)) +++
             bottom_left b +++ str_repeat (h b) inner +++ bottom_right b).
Proof.
  intros Hfit pad inner b. unfold render_message_box, umul, uadd.
  fold pad b.
  assert (Hm : (N.of_nat (pad * 2) <=? usize_max)%N = true) by (apply N.leb_le; unfold pad; lia).
  assert (Ha : (N.of_nat (max_width width title rows + pad * 2) <=? usize_max)%N = true)
    by (apply N.leb_le; exact Hfit).
  rewrite Hm. cbn [obind]. rewrite Ha. cbn [obind]. fold inner.
  rewrite align_padded
    by (unfold inner; pose proof (max_width_bound title rows title (or_introl eq_refl)); lia).
  cbn [obind].
  rewrite message_lines_form
    by (intros t Ht; unfold inner; pose proof (max_width_bound title rows t (or_intror Ht)); lia).
  cbn [obind]. rewrite !sapp_assoc. reflexivity.
Qed.

(** X14: [render_message_box] panics exactly when [max_width + padding * 2]
    overflows [usize]; [align_text] never panics there, since every padded
    line fits the inner width. *)
Theorem render_message_box_panics (title : string) (rows : list RowKind) (theme : BoxTheme) :
  render_message_box width title rows theme = Panics <->
  (usize_max < N.of_nat (max_width width title rows + padding theme * 2))%N.
Proof.
  destruct (N.lt_ge_cases usize_max (N.of_nat (max_width width title rows + padding theme * 2)))
    as [Ho|Hf].
  - split; [intros _; exact Ho|intros _].
    unfold render_message_box, umul, uadd.
    destruct (N.of_nat (padding theme * 2) <=? usize_max)%N; cbn [obind]; [|reflexivity].
    destruct (N.leb_spec (N.of_nat (max_width width title rows + padding theme * 2)) usize_max);
      [lia | reflexivity].
  - rewrite (message_box_form title rows theme Hf). split; [discriminate | lia].
Qed.

(** X15: when [max_width + padding * 2] fits in [usize], every line of the
    message box (the title and each [Message] line) is [v], then [l] blanks,
    the [padding] blanks, the text, [r] blanks and [v], with
    [l + padding + width + r] equal to the inner width. Left aligned, [l = 0];
    centred, [l <= r <= l + 1], so the text has [padding] more blanks (or
    [padding - 1]) on its left than on its right. [Stat] rows are dropped. *)
Theorem render_message_box_lines (title : string) (rows : list RowKind) (theme : BoxTheme) :
  (N.of_nat (max_width width title rows + padding theme * 2) <= usize_max)%N ->
  let pad := padding theme in
  let inner := max_width width title rows + pad * 2 in
  let b := border_chars (border theme) in
  exists l r : string -> nat,
    render_message_box width title rows theme =
      Returns (top_left b +++ str_repeat (h b) inner +++ top_right b +++ nls +++
               v b +++ spaces (l title) +++ spaces pad +++ title +++ spaces (r title) +++
                 v b +++ nls +++
               String.concat ""
                 (map (fun line => v b +++ spaces (l line) +++ spaces pad +++ line +++
                                   spaces (r line) +++ v b +++ nls)
                      (message_texts rows)) +++
               bottom_left b +++ str_repeat (h b) inner +++ bottom_right b) /\
    (forall t, t = title \/ In t (message_texts rows) ->
       l t + pad + width t + r t = inner /\
       (align theme = Left -> l t = 0) /\
       (align theme = Center -> l t <= r t <= l t + 1)).
Proof.
  intros Hfit pad inner b.
  exists (lpad width pad inner (align theme)), (rpad width pad inner (align theme)).
  split; [exact (message_box_form title rows theme Hfit)|].
  intros t Ht. pose proof (max_width_bound title rows t Ht) as Hb.
  unfold rpad, lpad. fold inner in Hb.
  assert (pad + width t <= inner) by (unfold inner; lia).
  pose proof (Nat.div_mod_eq (inner - (pad + width t)) 2).
  pose proof (Nat.mod_upper_bound (inner - (pad + width t)) 2).
  destruct (align theme); repeat split; try lia; discriminate.
Qed.

End MessageBox.

(** ** The messages of a run *)

Lemma hidden_paths_app (a b : list witem) :
  hidden_paths (a ++ b) = hidden_paths a ++ hidden_paths b.
Proof. unfold hidden_paths. apply flat_map_app. Qed.

Lemma hidden_paths_flat_map {A : Type} (f : A -> list witem) (l : list A) :
  hidden_paths (flat_map f l) = flat_map (fun k => hidden_paths (f k)) l.
Proof.
  induction l as [|a l IH]; [reflexivity|].
  cbn [flat_map]. rewrite hidden_paths_app, IH. reflexivity.
Qed.

(** The walk reports a path as hidden only when [msg] says so. *)
Lemma walk_node_hidden (keep msg : path -> bool) (n : node) : forall q p,
  In p (hidden_paths (walk_node_items keep msg q n)) -> msg p = true.
Proof.
  induction n as [nm d|nm kids IHk|nm] using node_ind'; intros q p Hin;
    cbn [walk_node_items] in Hin; rewrite hidden_paths_app in Hin;
    apply in_app_or in Hin as [Hin|Hin];
    try (destruct (msg q) eqn:E; [destruct Hin as [<-|[]]; exact E | destruct Hin]);
    destruct (keep q); try destruct Hin.
  change (hidden_paths (WEntry (q, NDir nm kids) ::
            flat_map (fun k => walk_node_items keep msg (join q (node_name k)) k) kids))
    with (hidden_paths (flat_map (fun k => walk_node_items keep msg (join q (node_name k)) k) kids))
    in Hin.
  rewrite hidden_paths_flat_map in Hin. apply in_flat_map in Hin as [k [Hk Hin]].
  rewrite Forall_forall in IHk. exact (IHk k Hk _ _ Hin).
Qed.

(** The messages the loop adds: one progress event per due count passed,
    and the hidden-entry messages of the walk, in order. *)
Lemma traverse_loop_log (fs : FS) (w : Walker) (args : RunArgs) (its : list witem) :
  forall s,
  let '(r, s') := traverse_loop fs w args its s in
  r = Ok tt ->
  file_count s <= file_count s' /\
  exists L, log s' = log s ++ L /\
    filter ev_is_progress L =
      map EvProgress (filter (progress_due args) (seq (S (file_count s)) (file_count s' - file_count s))) /\
    filter ev_is_hidden L = map EvHidden (hidden_paths its) /\
    Forall (fun e => ev_is_progress e || ev_is_hidden e = true) L.
Proof.
  induction its as [|[x|p] its IH]; intros s.
  - simpl. intros _. split; [lia|]. exists []. rewrite Nat.sub_diag, app_nil_r.
    repeat split; constructor.
  - destruct (qualifies fs w x) eqn:Hq.
    + rewrite traverse_loop_qual by exact Hq. rewrite write_file_content_eq.
      unfold counted; cbn [out first file_count recs log].
      destruct (match file_data fs w (fst x) _ with Some d => to_str d | None => None end)
        as [c|]; [|discriminate].
      match goal with |- context [traverse_loop fs w args its ?s2] => specialize (IH s2) end.
      destruct (traverse_loop fs w args its _) as [r s'].
      intros Hr. destruct (IH Hr) as [I1 [L [I2 [I3 [I4 I5]]]]]. cbn [file_count log] in I1, I2, I3.
      split; [lia|].
      exists ((if progress_due args (S (file_count s)) then [EvProgress (S (file_count s))] else []) ++ L).
      split; [rewrite I2, <- app_assoc; reflexivity|].
      replace (file_count s' - file_count s) with (S (file_count s' - S (file_count s))) by lia.
      cbn [seq filter].
      destruct (progress_due args (S (file_count s))); cbn [app filter ev_is_progress ev_is_hidden map];
        (split; [rewrite I3; reflexivity|]); (split; [exact I4|]);
        [constructor; [reflexivity | exact I5] | exact I5].
    + rewrite traverse_loop_skip by exact Hq. exact (IH s).
  - rewrite traverse_loop_hidden.
    specialize (IH (mkSt (out s) (first s) (file_count s) (recs s) (log s ++ [EvHidden p]))).
    destruct (traverse_loop fs w args its _) as [r s'].
    intros Hr. destruct (IH Hr) as [I1 [L [I2 [I3 [I4 I5]]]]]. cbn [file_count log] in I1, I2, I3.
    split; [exact I1|]. exists (EvHidden p :: L).
    split; [rewrite I2, <- app_assoc; reflexivity|].
    split; [cbn [filter ev_is_progress]; exact I3|].
    split; [cbn [filter ev_is_hidden]; rewrite I4; reflexivity|].
    constructor; [reflexivity | exact I5].
Qed.

(** X6: on success [traverse]'s messages are, in order: the two messages of
    [add_ignore_file] when the root's ignore file exists; then the messages
    of the walk, which are the hidden-entry messages, in walk order (printed
    only with [skip_hidden] and [verbose], for hidden entries), mixed with
    one progress message at each of the counts 5, 10, ..., up to the number
    of records in verbose and not fast mode (none otherwise); and last
    "Collected N files total!" in verbose mode. *)
Theorem traverse_progress_log (fs : FS) (w : Walker) (args : RunArgs) (s : St) (fs' : FS) :
  traverse glob_valid glob_is_match globset_builds fs w args = (Ok tt, s, fs') ->
  exists m fs1 L,
    matcher_new glob_valid globset_builds fs (w_root w) (exclude_patterns w) = Ok m /\
    open_output fs (w_output w) = Some fs1 /\
    log s = ignore_msgs fs (w_root w) ++ L ++
            (if verbose args then [EvCollected (List.length (recs s))] else []) /\
    filter ev_is_progress L =
      (if verbose args && negb (fast_mode args)
       then map (fun k => EvProgress (5 * k)) (seq 1 (List.length (recs s) / 5)) else []) /\
    filter ev_is_hidden L = map EvHidden (hidden_paths (walk_its glob_is_match fs1 m w args)) /\
    Forall (fun e => ev_is_progress e || ev_is_hidden e = true) L /\
    (forall p, In p (hidden_paths (walk_its glob_is_match fs1 m w args)) ->
       skip_hidden args = true /\ verbose args = true /\ is_hidden p = true).
Proof.
  intros Ht.
  assert (H : fst (fst (traverse glob_valid glob_is_match globset_builds fs w args)) = Ok tt)
    by now rewrite Ht.
  destruct (traverse_ok_inv glob_valid glob_is_match globset_builds fs w args H) as [m [fs1 [Hm Ho]]].
  destruct (traverse_ok_state glob_valid glob_is_match globset_builds fs w args s fs' Ht) as [_ [Hc _]].
  pose proof (traverse_spec glob_valid glob_is_match globset_builds fs w args m fs1 Hm Ho) as Hs.
  rewrite Ht in Hs.
  pose proof (traverse_loop_log fs1 w args (walk_its glob_is_match fs1 m w args)
                (st_log (ignore_msgs fs (w_root w)))) as Hl.
  destruct (traverse_loop fs1 w args (walk_its glob_is_match fs1 m w args)
              (st_log (ignore_msgs fs (w_root w)))) as [r0 s0].
  destruct Hs as [<- [_ [_ [Hc0 Hlog]]]].
  destruct (Hl eq_refl) as [_ [L [HL1 [HL2 [HL3 HL4]]]]].
  cbn [file_count log st_log] in HL1, HL2.
  exists m, fs1, L. split; [exact Hm|]. split; [exact Ho|]. split.
  - rewrite Hlog, HL1, <- Hc0, Hc, <- app_assoc. reflexivity.
  - split.
    + rewrite HL2, Nat.sub_0_r, <- Hc0, Hc, filter_progress_due.
      destruct (verbose args && negb (fast_mode args)); [|reflexivity].
      now rewrite map_map.
    + split; [exact HL3|]. split; [exact HL4|].
      intros p Hp. unfold walk_its, walk_items in Hp.
      destruct (fs_lookup fs1 (w_input w)) as [n|]; [|destruct Hp].
      apply walk_node_hidden in Hp. unfold hidden_message in Hp.
      destruct (skip_hidden args), (is_hidden p), (verbose args); try discriminate; auto.
Qed.

(** ** What a run writes *)

Lemma run_paths_output (fs : FS) (args : RunArgs) (root input output : path) :
  run_paths fs args = Ok (root, input, output) -> output = output_of args.
Proof.
  unfold run_paths.
  destruct (if path_eqb (input_path args) [CurDir] then current_dir fs else Ok (input_path args));
    [|discriminate].
  destruct (match root_arg args with
            | Some p => if path_eqb p [CurDir] then current_dir fs else Ok p
            | None => current_dir fs
            end); [|discriminate].
  intros H. injection H as _ _ <-. reflexivity.
Qed.





Lemma execute_ok_traverse (env : Env) (fs : FS) (args : RunArgs) (s : St) (fs' : FS) :
  editor args = false ->
  execute glob_valid glob_is_match globset_builds env fs args = (Ok tt, s, fs') ->
  exists root input s0,
    run_paths fs args = Ok (root, input, output_of args) /\
    traverse glob_valid glob_is_match globset_builds fs
      (mkWalker root input (output_of args) (exclude args)) args = (Ok tt, s0, fs') /\
    out s = out s0 /\ recs s = recs s0.
Proof.
  intros He. unfold execute. rewrite He, andb_false_r.
  destruct (run_paths fs args) as [[[root input] output]|e] eqn:Er; [|discriminate].
  pose proof (run_paths_output fs args root input output Er) as Hout. subst output.
  unfold process_dir. destruct (validate_path_exists fs (input_path args)); [|discriminate].
  destruct (traverse glob_valid glob_is_match globset_builds fs _ args) as [[[u|e] s0] fs1] eqn:Et;
    [|discriminate].
  destruct (negb (clipboard_new env)); [discriminate|].
  destruct (if clipboard args then set_clipboard env fs1 (output_of args) else Ok tt); [|discriminate].
  destruct (if stats args then show_stats fs1 (output_of args) else Ok tt); [|discriminate].
  intros H. injection H as <- <-. destruct u.
  exists root, input, s0. split; [reflexivity|]. split; [exact Et|].
  destruct (verbose args); split; reflexivity.
Qed.

(** X8: after a successful run that does not open the editor, the file
    system is the original one with the output text written to the output
    path (truncating the file or creating it), the working directory is the
    same, and the output path leads to a file holding exactly that text. *)
Theorem execute_writes_output (env : Env) (fs : FS) (args : RunArgs) (s : St) (fs' : FS) :
  editor args = false ->
  execute glob_valid glob_is_match globset_builds env fs args = (Ok tt, s, fs') ->
  exists t, resolve fs (output_of args) = Some t /\
    upd_file (fs_root fs) t (out s) = Some (fs_root fs') /\
    fs_cwd fs' = fs_cwd fs /\
    lookup (fs_root fs') t = Some (NFile (last t "") (out s)).
Proof.
  intros He Hx.
  destruct (execute_ok_traverse env fs args s fs' He Hx) as [root [input [s0 [_ [Ht [Ho _]]]]]].
  rewrite Ho.
  destruct (traverse_ok_state glob_valid glob_is_match globset_builds fs _ args s0 fs' Ht)
    as [_ [_ [[m [fs1 [_ [Hop [_ Hfs]]]]] _]]].
  cbn [w_output] in Hop, Hfs.
  destruct (open_store fs fs1 (output_of args) (out s0) Hop) as [t [n2 [Er [E2 [Es _]]]]].
  exists t. rewrite Es in Hfs. subst fs'. cbn [fs_root fs_cwd].
  split; [exact Er|]. split; [exact E2|]. split; [reflexivity|].
  exact (upd_file_target _ _ _ _ E2).
Qed.

(** ** How [ExcludeMatcher::new] composes its rules *)

Lemma builder_add_line_ok (b b' : GitignoreBuilder) (p : string) :
  builder_add_line glob_valid b p = Ok b' ->
  gb_root b' = gb_root b /\
  gb_globs b' = gb_globs b ++ match add_line glob_valid p with Ok (Some g) => [g] | _ => [] end.
Proof.
  unfold builder_add_line. destruct (add_line glob_valid p) as [[g|]|e]; intros H; try discriminate;
    injection H as <-; cbn; [split; reflexivity | split; [reflexivity | now rewrite app_nil_r]].
Qed.

Lemma add_lines_root (file : path) (ls : list string) :
  forall b errs, gb_root (fst (add_lines glob_valid file b ls errs)) = gb_root b.
Proof.
  induction ls as [|l ls IH]; intros b errs; [reflexivity|].
  cbn [add_lines]. destruct (utf8_ok (bytes l)); [|reflexivity].
  destruct (builder_add_line glob_valid b l) as [b'|e] eqn:E; [|apply IH].
  rewrite IH. exact (proj1 (builder_add_line_ok b b' l E)).
Qed.

Lemma add_ignore_file_root (fs : FS) (b : GitignoreBuilder) (root : path) :
  gb_root (add_ignore_file glob_valid fs b root) = gb_root b.
Proof.
  unfold add_ignore_file, builder_add.
  destruct (path_exists fs (join root ignore_file_name)); [|reflexivity].
  destruct (fs_lookup fs (join root ignore_file_name)) as [[nm d|nm ks|nm]|]; try reflexivity.
  apply add_lines_root.
Qed.

Lemma add_cli_patterns_ok (cli : list string) :
  forall b b', add_cli_patterns glob_valid b cli = Ok b' ->
  gb_root b' = gb_root b /\
  gb_globs b' = gb_globs b ++
    flat_map (fun p => match add_line glob_valid p with Ok (Some g) => [g] | _ => [] end) cli /\
  (forall p, In p cli -> exists g, add_line glob_valid p = Ok g).
Proof.
  induction cli as [|p cli IH]; intros b b' H.
  - injection H as <-. cbn. rewrite app_nil_r. split; [reflexivity|]. split; [reflexivity|].
    intros p [].
  - cbn [add_cli_patterns] in H.
    destruct (builder_add_line glob_valid b p) as [b1|e] eqn:E; [|discriminate].
    destruct (builder_add_line_ok b b1 p E) as [Hr Hg].
    destruct (IH b1 b' H) as [Hr' [Hg' Hall]].
    split; [congruence|]. split.
    + rewrite Hg', Hg. cbn [flat_map]. now rewrite app_assoc.
    + intros q [<-|Hq]; [|now apply Hall].
      unfold builder_add_line in E.
      destruct (add_line glob_valid p) as [o|e]; [now exists o | discriminate].
Qed.

(** ** Errors of the matcher *)

Lemma builder_add_line_err (b : GitignoreBuilder) (l : string) (e : err) :
  builder_add_line glob_valid b l = Err e <-> add_line glob_valid l = Err e.
Proof.
  unfold builder_add_line. destruct (add_line glob_valid l) as [[g|]|e']; split; congruence.
Qed.

Lemma add_cli_patterns_err (e : err) (cli : list string) : forall b,
  add_cli_patterns glob_valid b cli = Err e <->
  exists pre l post, cli = pre ++ l :: post /\
    (forall p, In p pre -> exists g, add_line glob_valid p = Ok g) /\
    add_line glob_valid l = Err e.
Proof.
  induction cli as [|pat cli IH]; intros b; simpl.
  - split; [discriminate|]. intros [pre [l [post [H _]]]]. destruct pre; discriminate.
  - destruct (builder_add_line glob_valid b pat) as [b'|e'] eqn:Eb.
    + rewrite IH. split.
      * intros [pre [l [post [H1 [H2 H3]]]]]. exists (pat :: pre), l, post.
        split; [now rewrite H1|]. split; [|exact H3].
        intros p [<-|Hp]; [|now apply H2].
        unfold builder_add_line in Eb.
        destruct (add_line glob_valid pat) as [g|e0]; [eauto | discriminate].
      * intros [pre [l [post [H1 [H2 H3]]]]]. destruct pre as [|p pre].
        -- injection H1 as <- _. rewrite <- (builder_add_line_err b) in H3. congruence.
        -- injection H1 as <- H1. exists pre, l, post. split; [exact H1|].
           split; [intros q Hq; apply H2; now right | exact H3].
    + apply builder_add_line_err in Eb. split.
      * intros H. injection H as <-. exists [], pat, cli.
        split; [reflexivity|]. split; [intros p [] | exact Eb].
      * intros [pre [l [post [H1 [H2 H3]]]]]. destruct pre as [|p pre].
        -- injection H1 as <- _. congruence.
        -- injection H1 as <- _. destruct (H2 pat (or_introl eq_refl)) as [g Hg]. congruence.
Qed.

(** X10: [ExcludeMatcher::new] fails exactly in two ways. Either some
    command-line pattern is not a valid glob, and the error is that of the
    first such pattern (the patterns before it all parse, the ones after it
    are never looked at); or every pattern parses and compiling the glob
    set of all the rules (those of the root's ignore file, then those of the
    patterns) fails, with [BuildFailed]. Errors of the ignore file itself
    are never returned. *)
Theorem matcher_new_error (fs : FS) (root : path) (cli : list string) (e : err) :
  matcher_new glob_valid globset_builds fs root cli = Err e <->
  (exists pre l post, cli = pre ++ l :: post /\
     (forall p, In p pre -> exists g, add_line glob_valid p = Ok g) /\
     add_line glob_valid l = Err e) \/
  ((forall p, In p cli -> exists g, add_line glob_valid p = Ok g) /\
   e = BuildFailed /\
   globset_builds (map g_actual (ignore_rules glob_valid fs root ++ rules_of glob_valid cli)) = false).
Proof.
  unfold matcher_new.
  set (b0 := add_ignore_file glob_valid fs (builder_new root) root).
  destruct (add_cli_patterns glob_valid b0 cli) as [b|e'] eqn:E.
  - destruct (add_cli_patterns_ok cli _ _ E) as [_ [_ Hall]].
    destruct (add_cli_patterns_globs glob_valid cli _ _ E) as [_ Hg].
    unfold b0 in Hg. rewrite add_ignore_file_globs in Hg.
    unfold build. rewrite Hg.
    assert (Hno : ~ exists pre l post, cli = pre ++ l :: post /\
                  (forall p, In p pre -> exists g, add_line glob_valid p = Ok g) /\
                  add_line glob_valid l = Err e).
    { intros [pre [l [post [H1 [_ H3]]]]].
      destruct (Hall l) as [g Hg']; [rewrite H1; apply in_or_app; right; left; reflexivity|].
      congruence. }
    destruct (globset_builds _); split.
    + discriminate.
    + intros [H|[_ [_ H]]]; [contradiction | discriminate].
    + intros H. injection H as <-. right. auto.
    + intros [H|[_ [-> _]]]; [contradiction | reflexivity].
  - destruct (proj1 (add_cli_patterns_err e' cli b0) E) as [pre [l [post [H1 [H2 H3]]]]].
    split.
    + intros H. injection H as ->. left. exists pre, l, post. auto.
    + intros [Hd | [Hall _]].
      * apply (proj2 (add_cli_patterns_err e cli b0)) in Hd. rewrite E in Hd. congruence.
      * exfalso. destruct (Hall l) as [g Hg]; [rewrite H1; apply in_or_app; right; left; reflexivity|].
        congruence.
Qed.

(** ** Running the traversal again *)

Lemma matcher_new_ignore_lookup (fs fs2 : FS) (root : path) (cli : list string) :
  fs_lookup fs2 (join root ignore_file_name) = fs_lookup fs (join root ignore_file_name) ->
  matcher_new glob_valid globset_builds fs2 root cli = matcher_new glob_valid globset_builds fs root cli.
Proof.
  intros H. unfold matcher_new, add_ignore_file, path_exists, builder_add. cbv zeta. now rewrite H.
Qed.

Lemma ignore_msgs_lookup (fs fs2 : FS) (root : path) :
  fs_lookup fs2 (join root ignore_file_name) = fs_lookup fs (join root ignore_file_name) ->
  ignore_msgs fs2 root = ignore_msgs fs root.
Proof. intros H. unfold ignore_msgs, path_exists. cbv zeta. now rewrite H. Qed.

(** A write leaves the entries off its path where they were. *)
Lemma lookup_after_write (fs : FS) (t : list string) (d : string) (r : node) (p : path) :
  upd_file (fs_root fs) t d = Some r ->
  (forall t', resolve fs p = Some t' -> ~ exists q, t = t' ++ q) ->
  fs_lookup (mkFS r (fs_cwd fs)) p = fs_lookup fs p.
Proof.
  intros E H. unfold fs_lookup. rewrite (resolve_upd fs t d r E). cbn [fs_root].
  destruct (resolve fs p) as [t'|]; [|reflexivity].
  exact (upd_file_frame _ _ _ _ E t' (H t' eq_refl)).
Qed.

(** X16: when the output file is not the root's [.treeclipignore] (nor below
    it), a successful [traverse] run again on the file system it left behind
    gives the same result, the same state (output text, records, count and
    messages) and the same file system: the output is truncated before the
    walk and skipped or re-read as it is being written, so its old text never
    matters. *)
Theorem traverse_rerun (fs : FS) (w : Walker) (args : RunArgs) (s : St) (fs' : FS) :
  (forall t t', resolve fs (w_output w) = Some t ->
     resolve fs (join (w_root w) ignore_file_name) = Some t' -> ~ exists q, t = t' ++ q) ->
  traverse glob_valid glob_is_match globset_builds fs w args = (Ok tt, s, fs') ->
  traverse glob_valid glob_is_match globset_builds fs' w args = (Ok tt, s, fs').
Proof.
  intros Hig Ht.
  destruct (traverse_ok_state glob_valid glob_is_match globset_builds fs w args s fs' Ht)
    as [_ [_ [[m [fs1 [Hm [Ho [_ Hfs]]]]] _]]].
  destruct (open_store fs fs1 (w_output w) (out s) Ho) as [t [n2 [Er [E2 [Es _]]]]].
  rewrite Es in Hfs. subst fs'.
  assert (Hl : fs_lookup (mkFS n2 (fs_cwd fs)) (join (w_root w) ignore_file_name) =
               fs_lookup fs (join (w_root w) ignore_file_name)).
  { apply (lookup_after_write fs t (out s) n2 _ E2). intros t' Et'. exact (Hig t t' Er Et'). }
  assert (Hop : open_output (mkFS n2 (fs_cwd fs)) (w_output w) = Some fs1).
  { rewrite <- Ho. unfold open_output. rewrite (resolve_upd fs t (out s) n2 E2), Er.
    cbn [fs_root fs_cwd]. destruct (upd_file_again _ _ _ _ E2 "") as [_ ->]. reflexivity. }
  rewrite <- Ht. unfold traverse.
  rewrite (ignore_msgs_lookup _ _ _ Hl), (matcher_new_ignore_lookup _ _ _ _ Hl), Hm, Hop, Ho.
  reflexivity.
Qed.

(** X17: when [ExcludeMatcher::new] succeeds, its rules are those of the
    root's [.treeclipignore] followed by the rules of the command-line
    patterns in the order given (comments and blank patterns add none), every
    command-line pattern parses, the glob set of those rules compiles, and
    the matcher keeps the builder's root. *)
Theorem matcher_new_rules (fs : FS) (root : path) (cli : list string) (m : ExcludeMatcher) :
  matcher_new glob_valid globset_builds fs root cli = Ok m ->
  gi_root m = gb_root (builder_new root) /\
  gi_globs m = gb_globs (add_ignore_file glob_valid fs (builder_new root) root) ++
    flat_map (fun p => match add_line glob_valid p with Ok (Some g) => [g] | _ => [] end) cli /\
  (forall p, In p cli -> exists g, add_line glob_valid p = Ok g) /\
  globset_builds (map g_actual (gi_globs m)) = true.
Proof.
  unfold matcher_new.
  destruct (add_cli_patterns glob_valid (add_ignore_file glob_valid fs (builder_new root) root) cli)
    as [b'|e] eqn:E; [|discriminate].
  unfold build. destruct (globset_builds (map g_actual (gb_globs b'))) eqn:Eb; [|discriminate].
  intros H. injection H as <-. cbn [gi_root gi_globs].
  destruct (add_cli_patterns_ok cli _ _ E) as [Hr [Hg Hall]].
  rewrite Hr, add_ignore_file_root. split; [reflexivity|]. split; [exact Hg|].
  split; [exact Hall | exact Eb].
Qed.

End Extras.

(* ------------------------------------------------------------------ *)
(** ** Concrete instances of the further properties *)

Lemma length_spaces_app (n : nat) (s : string) :
  String.length (spaces n +++ s) = n + String.length s.
Proof. induction n as [|n IH]; simpl; [reflexivity | now rewrite IH]. Qed.

(** X2: [-100] is shown as ["-,100"]. *)
Lemma format_number_negative_lead_witness : format_number (-100) = "-,100".
Proof.
  rewrite (format_number_negative_lead (-100)); [reflexivity | lia | reflexivity].
Defined.

(** X5: the fifth file in verbose mode shows the second tree emoji. *)
Lemma walker_progress_message_witness :
  progress_counter tree_emojis 5 5 = Returns (Some ("🌿" +++ " Collected 5 files so far...")).
Proof.
  rewrite (walker_progress_message (args_six false) 5); reflexivity.
Defined.

(** X9: the project run has one record of one line: three lines in all. *)
Lemma traverse_stats_lines_witness :
  show_stats_lines (out (snd (fst (trav_proj [])))) = 3.
Proof.
  rewrite (traverse_stats_lines lit_valid lit_is_match lit_builds fs_proj (w_proj []) (args_proj [])
             (snd (fst (trav_proj []))) (snd (trav_proj []))); [vm_compute; reflexivity|].
  vm_compute. reflexivity.
Defined.

(** X11: the input [..] with hidden entries skipped yields no record. *)
Lemma dot_input_hidden_witness :
  recs (snd (fst (traverse lit_valid lit_is_match lit_builds fs_up w_up args_up))) = [].
Proof.
  apply (dot_input_hidden lit_valid lit_is_match lit_builds fs_up w_up args_up
           (snd (fst (traverse lit_valid lit_is_match lit_builds fs_up w_up args_up)))
           (snd (traverse lit_valid lit_is_match lit_builds fs_up w_up args_up)));
    [reflexivity | discriminate | repeat constructor; right; reflexivity
    | vm_compute; reflexivity].
Defined.

(** X12: the title ["Content Statistics"] fits the box. *)
Lemma render_stats_box_title_witness :
  render_stats_box String.length "Content Statistics" [] <> Panics.
Proof.
  intros H. apply (proj1 (proj1 (render_stats_box_title String.length "Content Statistics" []))) in H.
  vm_compute in H. lia.
Defined.

(** X13: ["ab"] centred in seven columns. *)
Lemma align_text_shape_witness :
  exists l r, align_text String.length "ab" 7 Center = Returns (spaces l +++ "ab" +++ spaces r) /\
              l <= r <= l + 1.
Proof.
  destruct (proj2 (align_text_shape String.length "ab" 7 Center) ltac:(vm_compute; lia))
    as [l [r [H [_ [_ Hc]]]]].
  exists l, r. split; [exact H | apply Hc; reflexivity].
Defined.

(** X14: a small message box renders. *)
Lemma render_message_box_panics_witness :
  render_message_box String.length "Title" [Message "Message"] theme_default <> Panics.
Proof.
  intros H.
  apply (proj1 (render_message_box_panics String.length length_spaces_app
                  "Title" [Message "Message"] theme_default)) in H.
  vm_compute in H. discriminate H.
Defined.

(** X15: in the default theme the line ["Message"] gets [l] blanks before
    the two of the padding and [r] after it. *)
Lemma render_message_box_lines_witness :
  exists l r : string -> nat,
    l "Message" + 2 + 7 + r "Message" = 11 /\ l "Message" <= r "Message" <= l "Message" + 1.
Proof.
  pose proof (render_message_box_lines String.length length_spaces_app "Title" [Message "Message"]
                theme_default ltac:(vm_compute; intros Hc; discriminate Hc)) as H.
  cbv zeta in H. destruct H as [l [r [_ H]]].
  exists l, r. destruct (H "Message" ltac:(right; left; reflexivity)) as [H1 [_ H3]].
  change (max_width String.length "Title" [Message "Message"]) with 7 in H1.
  change (padding theme_default) with 2 in H1.
  change (String.length "Message") with 7 in H1.
  split; [lia | apply H3; reflexivity].
Defined.

(** X6: six files in verbose mode give one progress message and the total,
    after the messages of the ignore file (none here). *)
Lemma traverse_progress_log_witness :
  exists L, log (snd (fst trav_six)) = ignore_msgs fs_six proj_root ++ L ++ [EvCollected 6] /\
            filter ev_is_progress L = [EvProgress 5].
Proof.
  destruct (traverse_progress_log lit_valid lit_is_match lit_builds fs_six w_six (args_six false)
              (snd (fst trav_six)) (snd trav_six) ltac:(vm_compute; reflexivity))
    as [m [fs1 [L [_ [_ [H1 [H2 _]]]]]]].
  exists L. rewrite H1, H2. split; vm_compute; reflexivity.
Defined.


(** X8: the project run leaves its output at [/tmp/out.txt]. *)
Lemma execute_writes_output_witness :
  lookup (fs_root (snd (execute lit_valid lit_is_match lit_builds env_desktop fs_proj (args_proj []))))
         ["tmp"; "out.txt"] =
  Some (NFile "out.txt"
          (out (snd (fst (execute lit_valid lit_is_match lit_builds env_desktop fs_proj (args_proj [])))))).
Proof.
  destruct (execute_writes_output lit_valid lit_is_match lit_builds env_desktop fs_proj (args_proj [])
              (snd (fst (execute lit_valid lit_is_match lit_builds env_desktop fs_proj (args_proj []))))
              (snd (execute lit_valid lit_is_match lit_builds env_desktop fs_proj (args_proj [])))
              eq_refl ltac:(vm_compute; reflexivity))
    as [t [H1 [_ [_ H4]]]].
  vm_compute in H1. injection H1 as <-. exact H4.
Defined.

(** X10: of ["ok"; "[z-a]"; "[b-a]"], the first bad pattern is reported. *)
Lemma matcher_new_error_witness :
  matcher_new lit_valid lit_builds fs_proj proj_root ["ok"; "[z-a]"; "[b-a]"] = Err (GlobError "[z-a]").
Proof.
  apply (matcher_new_error lit_valid lit_builds fs_proj proj_root ["ok"; "[z-a]"; "[b-a]"]).
  left. exists ["ok"], "[z-a]", ["[b-a]"]. split; [reflexivity|]. split.
  - intros p [<-|[]]. vm_compute. eexists. reflexivity.
  - vm_compute. reflexivity.
Defined.

(** X16: the project run, run again, changes nothing. *)
Lemma traverse_rerun_witness :
  traverse lit_valid lit_is_match lit_builds (snd (trav_proj [])) (w_proj []) (args_proj []) =
  (Ok tt, snd (fst (trav_proj [])), snd (trav_proj [])).
Proof.
  apply (traverse_rerun lit_valid lit_is_match lit_builds fs_proj (w_proj []) (args_proj [])).
  - intros t t' Ht Ht' [q Hq]. vm_compute in Ht, Ht'. injection Ht as <-. injection Ht' as <-.
    simpl in Hq. discriminate Hq.
  - vm_compute. reflexivity.
Defined.

(** X17: the project's matcher keeps the root ["/proj"]. *)
Lemma matcher_new_rules_witness :
  gi_root (m_proj ["!sub/"]) = gb_root (builder_new proj_root).
Proof.
  exact (proj1 (matcher_new_rules lit_valid lit_builds fs_proj proj_root ["!sub/"] (m_proj ["!sub/"])
                  ltac:(vm_compute; reflexivity))).
Defined.
